(** * csim.c: a set-associative LRU cache simulator

    A shallow embedding of [initCache], [freeCache], [accessData],
    [replayTrace], [printUsage] and [main] from [src/csim.c], followed by
    the properties of the access engine, of the allocation and of the
    driver.

    Conventions.
    - [mem_addr_t] ([unsigned long long]) is a [Z] in [0, 2^64).
    - [int] is a [Z] in [-2^31, 2^31); arithmetic that leaves the range is
      undefined behaviour in C and is reported as [Fault SignedOverflow].
    - [double] is IEEE 754 binary64 and expressions on it are evaluated
      in that format; a value is kept exactly, as [mant * 2^expo], and
      rounded to 53 significant bits where C rounds.
    - An array is a [list]; an access through an index outside the array
      is undefined behaviour in C and is reported as [Fault OutOfBounds].
    - Allocated memory is a finite map from block identifiers to arrays;
      an access through [NULL] or through a pointer to a released block
      is reported as [Fault OutOfBounds] as well.
    - Text written to [stdout] is not part of the model; a process ends
      with an exit status, with the three counts handed to
      [printSummary], or in undefined behaviour. *)

From Stdlib Require Import ZArith Ascii Lia Bool.
From stdpp Require Import base tactics list gmap.

Local Open Scope Z_scope.

(** ** Outcomes of a C computation *)

Inductive undefined : Type :=
| OutOfBounds      (* array access outside the allocated object *)
| SignedOverflow   (* [int] arithmetic leaving the [int] range *)
| BadConversion    (* [double] to integer conversion out of range *)
| BadShift.        (* shift count negative or not below the width *)

Inductive outcome (A : Type) : Type :=
| Ok (a : A)
| Fault (u : undefined).

Arguments Ok {A} a.
Arguments Fault {A} u.

Global Instance outcome_ret : MRet outcome := fun A a => Ok a.

Global Instance outcome_bind : MBind outcome := fun A B k m =>
  match m with
  | Ok a => k a
  | Fault u => Fault u
  end.

(** ** Machine arithmetic *)

Module Machine.

Definition INT_MIN : Z := - 2 ^ 31.
Definition INT_MAX : Z := 2 ^ 31 - 1.
Definition U64 : Z := 2 ^ 64.

Definition in_int (x : Z) : bool := (INT_MIN <=? x) && (x <=? INT_MAX).

(** [x + y] on [int]. *)
Definition int_add (x y : Z) : outcome Z :=
  if in_int (x + y) then Ok (x + y) else Fault SignedOverflow.

(** Round an integer to 53 significant bits (to nearest, ties to even):
    the rounding of a [double] operation, on the mantissa. *)
Definition round_nonneg (x : Z) : Z :=
  let e := Z.log2 x - 52 in
  if e <=? 0 then x
  else
    let q := Z.shiftr x e in
    let r := Z.land x (Z.ones e) in
    let half := 2 ^ (e - 1) in
    let q' := if r <? half then q
              else if half <? r then q + 1
              else if Z.even q then q else q + 1 in
    Z.shiftl q' e.

Definition round_double (x : Z) : Z := Z.sgn x * round_nonneg (Z.abs x).

(** A [double]: the value [mant * 2^expo]. The exponent range of the
    format is left out: where [pow] overflows to infinity or underflows
    to zero, the conversions and the subtraction below give on the exact
    power what they give on infinity or zero (out of range, respectively
    0 and [-1.0]). *)
Record double : Type := Double {
  mant : Z;
  expo : Z
}.

(** [pow(2, n)] for an [int] [n]: [2^n], a fraction when [n < 0]. *)
Definition pow2 (n : Z) : double := Double 1 n.

(** [x - y] on [double]: the exact difference, rounded. *)
Definition double_sub (x y : double) : double :=
  let e := Z.min (expo x) (expo y) in
  Double (round_double (mant x * 2 ^ (expo x - e) - mant y * 2 ^ (expo y - e))) e.

(** Conversion of an integer to [double]. *)
Definition double_of_int (x : Z) : double := Double (round_double x) 0.

Definition double_of_u64 (x : Z) : double := Double (round_double x) 0.

(** Conversion of a [double] to an integer type: the fraction is
    discarded (truncation toward zero); undefined when the integral part
    is not a value of the type. *)
Definition trunc (d : double) : Z :=
  if 0 <=? expo d then mant d * 2 ^ expo d
  else Z.quot (mant d) (2 ^ (- expo d)).

Definition u64_of_double (d : double) : outcome Z :=
  let z := trunc d in
  if (0 <=? z) && (z <? U64) then Ok z else Fault BadConversion.

Definition int_of_double (d : double) : outcome Z :=
  let z := trunc d in
  if in_int z then Ok z else Fault BadConversion.

(** [x >> n] on [mem_addr_t] with an [int] count. *)
Definition shr_u64 (x n : Z) : outcome Z :=
  if (0 <=? n) && (n <? 64) then Ok (Z.shiftr x n) else Fault BadShift.

End Machine.

Import Machine.

(** ** Data model *)

(** [cache_line_t]: the [valid] flag is a [char] holding ['0'] or ['1']. *)
Record cache_line_t : Type := Line {
  valid : ascii;
  tag : Z;
  counter : Z
}.

Abbreviation cache_set_t := (list cache_line_t).
Abbreviation cache_t := (list (list cache_line_t)).

(** The globals that [accessData] reads and writes. *)
Record sim : Type := Sim {
  cache : cache_t;
  miss_count : Z;
  hit_count : Z;
  eviction_count : Z
}.

(** One line of the trace file: the operation character [buf[1]] and the
    address scanned from the line. *)
Abbreviation trace_line := (ascii * Z)%type.

(** Array reads and writes on [cache[i]] and [cache[i][j]]. *)
Definition index {A : Type} (l : list A) (i : Z) : outcome A :=
  if i <? 0 then Fault OutOfBounds
  else match l !! Z.to_nat i with
       | Some x => Ok x
       | None => Fault OutOfBounds
       end.

Definition store (c : cache_t) (i j : Z) (f : cache_line_t -> cache_line_t)
  : outcome cache_t :=
  set ← index c i;
  line ← index set j;
  Ok (<[Z.to_nat i := <[Z.to_nat j := f line]> set]> c).

Section Simulator.

(** Globals set by the command line arguments. *)
Variables s b E : Z.

(** [initCache]: [S = pow(2, s)] sets of [E] lines, all fields zeroed
    ([valid = '0']). *)
Definition initCache : outcome cache_t :=
  S ← int_of_double (pow2 s);
  Ok (replicate (Z.to_nat S)
        (replicate (Z.to_nat E) (Line "0" 0 0))).

(** The mask of [accessData]:
    [mask = pow(2, s + b); mask--; mask -= (pow(2, b) - 1);] *)
Definition set_mask : outcome Z :=
  n ← int_add s b;
  m0 ← u64_of_double (pow2 n);
  let m1 := (m0 - 1) mod U64 in
  u64_of_double
    (double_sub (double_of_u64 m1) (double_sub (pow2 b) (double_of_int 1))).

(** The first loop of [accessData]: minimum and maximum counter of the
    set, and the index of the minimum. [fuel] is the number of
    iterations left, [j] the loop variable. *)
Fixpoint scan_counters (set : cache_set_t) (fuel : nat) (j : Z)
    (min max minIndex : Z) : outcome (Z * Z * Z) :=
  match fuel with
  | O => Ok (min, max, minIndex)
  | S fuel' =>
      line ← index set j;
      let '(min', minIndex') :=
        if counter line <? min then (counter line, j) else (min, minIndex) in
      let max' := if max <? counter line then counter line else max in
      scan_counters set fuel' (j + 1) min' max' minIndex'
  end.

(** The loops that stop at the first line satisfying a test
    ([for ... if (test) { ...; break; }]). *)
Fixpoint find_line (test : cache_line_t -> bool) (set : cache_set_t)
    (fuel : nat) (j : Z) : outcome (option Z) :=
  match fuel with
  | O => Ok None
  | S fuel' =>
      line ← index set j;
      if test line then Ok (Some j)
      else find_line test set fuel' (j + 1)
  end.

Definition is_hit (targTag : Z) (line : cache_line_t) : bool :=
  Ascii.eqb (valid line) "1" && (tag line =? targTag).

Definition is_empty (line : cache_line_t) : bool :=
  Ascii.eqb (valid line) "0".

(** Address decomposition of [accessData]:
    [targSet = (addr & mask) >> b] and [targTag = addr >> (s + b)]. *)
Definition targSet (addr : Z) : outcome Z :=
  mask ← set_mask;
  shr_u64 (Z.land addr mask) b.

Definition targTag (addr : Z) : outcome Z :=
  n ← int_add s b;
  shr_u64 addr n.

(** [accessData]. *)
Definition accessData (st : sim) (addr : Z) : outcome sim :=
  ts ← targSet addr;
  tt ← targTag addr;
  set ← index (cache st) ts;
  '(min, max, minIndex) ← scan_counters set (Z.to_nat E) 0 5000 0 (-1);
  found ← find_line (is_hit tt) set (Z.to_nat E) 0;
  match found with
  | Some i =>
      hits ← int_add (hit_count st) 1;
      stamp ← int_add max 1;
      c ← store (cache st) ts i (fun l => Line (valid l) (tag l) stamp);
      Ok (Sim c (miss_count st) hits (eviction_count st))
  | None =>
      misses ← int_add (miss_count st) 1;
      foundEmpty ← find_line is_empty set (Z.to_nat E) 0;
      match foundEmpty with
      | Some k =>
          stamp ← int_add max 1;
          c ← store (cache st) ts k (fun _ => Line "1" tt stamp);
          Ok (Sim c misses (hit_count st) (eviction_count st))
      | None =>
          evictions ← int_add (eviction_count st) 1;
          stamp ← int_add max 1;
          c ← store (cache st) ts minIndex
                (fun l => Line (valid l) tt stamp);
          Ok (Sim c misses (hit_count st) evictions)
      end
  end.

(** [replayTrace], after the file has been read: lines whose operation
    is not [S], [L] or [M] are skipped. *)
Definition replayLine (st : sim) (line : trace_line) : outcome sim :=
  let '(op, addr) := line in
  if Ascii.eqb op "L" then accessData st addr
  else if Ascii.eqb op "S" then accessData st addr
  else if Ascii.eqb op "M" then
    st1 ← accessData st addr;
    accessData st1 addr
  else Ok st.

Fixpoint replayTrace (trace : list trace_line) (st : sim) : outcome sim :=
  match trace with
  | [] => Ok st
  | line :: rest =>
      st' ← replayLine st line;
      replayTrace rest st'
  end.

(** [main]: counters start at zero, the cache is initialised, the trace
    is replayed. *)
Definition simulate (trace : list trace_line) : outcome sim :=
  c ← initCache;
  replayTrace trace (Sim c 0 0 0).

End Simulator.

(** ** Notions used to state the properties *)

(** The largest counter of a set, never below the initial [max = 0]. *)
Definition max_counter (set : cache_set_t) : Z :=
  foldr (fun line m => Z.max (counter line) m) 0 set.

(** A valid line of [set] holds [t]. *)
Definition resident (t : Z) (set : cache_set_t) : Prop :=
  exists i line, set !! i = Some line /\ valid line = "1"%char /\ tag line = t.

(** No two valid lines of [set] hold the same tag. *)
Definition unique_tags (set : cache_set_t) : Prop :=
  forall i j li lj,
    set !! i = Some li -> set !! j = Some lj ->
    valid li = "1"%char -> valid lj = "1"%char ->
    tag li = tag lj -> i = j.

(** Number of [accessData] calls a trace expands to. *)
Definition accesses_of (line : trace_line) : Z :=
  let '(op, _) := line in
  if Ascii.eqb op "L" then 1
  else if Ascii.eqb op "S" then 1
  else if Ascii.eqb op "M" then 2
  else 0.

Definition accesses (trace : list trace_line) : Z :=
  foldr (fun line n => accesses_of line + n) 0 trace.

(** States the simulator can be in: the initial one and those produced by
    completed [accessData] calls. *)
Inductive steps (s b E : Z) : sim -> sim -> Prop :=
| steps_refl st : steps s b E st st
| steps_access st st' st'' addr :
    steps s b E st st' ->
    accessData s b E st' addr = Ok st'' ->
    steps s b E st st''.

Definition reachable (s b E : Z) (st : sim) : Prop :=
  exists c, initCache s E = Ok c /\ steps s b E (Sim c 0 0 0) st.

(** ** One call of [accessData], by cases *)

Section AccessCases.

Variables s b E : Z.

(** The three ways a call can complete: a hit on line [i], a miss that
    fills the empty line [k], a miss that evicts line [mi]. *)
Inductive access (st : sim) (addr : Z) (st' : sim) : Prop :=
| access_hit ts tt set mn mx mi i line
    (Hset : targSet s b addr = Ok ts)
    (Htag : targTag s b addr = Ok tt)
    (Hidx : index (cache st) ts = Ok set)
    (Hscan : scan_counters set (Z.to_nat E) 0 5000 0 (-1) = Ok (mn, mx, mi))
    (Hfind : find_line (is_hit tt) set (Z.to_nat E) 0 = Ok (Some i))
    (Hline : index set i = Ok line)
    (Hhits : INT_MIN <= hit_count st + 1 <= INT_MAX)
    (Hstamp : INT_MIN <= mx + 1 <= INT_MAX)
    (Hst : st' = Sim (<[Z.to_nat ts :=
                         <[Z.to_nat i := Line (valid line) (tag line) (mx + 1)]> set]>
                        (cache st))
                     (miss_count st) (hit_count st + 1) (eviction_count st))
| access_cold ts tt set mn mx mi k line
    (Hset : targSet s b addr = Ok ts)
    (Htag : targTag s b addr = Ok tt)
    (Hidx : index (cache st) ts = Ok set)
    (Hscan : scan_counters set (Z.to_nat E) 0 5000 0 (-1) = Ok (mn, mx, mi))
    (Hfind : find_line (is_hit tt) set (Z.to_nat E) 0 = Ok None)
    (Hmisses : INT_MIN <= miss_count st + 1 <= INT_MAX)
    (Hempty : find_line is_empty set (Z.to_nat E) 0 = Ok (Some k))
    (Hline : index set k = Ok line)
    (Hstamp : INT_MIN <= mx + 1 <= INT_MAX)
    (Hst : st' = Sim (<[Z.to_nat ts :=
                         <[Z.to_nat k := Line "1" tt (mx + 1)]> set]> (cache st))
                     (miss_count st + 1) (hit_count st) (eviction_count st))
| access_evict ts tt set mn mx mi line
    (Hset : targSet s b addr = Ok ts)
    (Htag : targTag s b addr = Ok tt)
    (Hidx : index (cache st) ts = Ok set)
    (Hscan : scan_counters set (Z.to_nat E) 0 5000 0 (-1) = Ok (mn, mx, mi))
    (Hfind : find_line (is_hit tt) set (Z.to_nat E) 0 = Ok None)
    (Hmisses : INT_MIN <= miss_count st + 1 <= INT_MAX)
    (Hempty : find_line is_empty set (Z.to_nat E) 0 = Ok None)
    (Hevictions : INT_MIN <= eviction_count st + 1 <= INT_MAX)
    (Hstamp : INT_MIN <= mx + 1 <= INT_MAX)
    (Hline : index set mi = Ok line)
    (Hst : st' = Sim (<[Z.to_nat ts :=
                         <[Z.to_nat mi := Line (valid line) tt (mx + 1)]> set]>
                        (cache st))
                     (miss_count st + 1) (hit_count st) (eviction_count st + 1)).

End AccessCases.

(** Shape of the caches the simulator works on: [2^s] sets of [E] lines,
    valid flags ['0'] or ['1'], counters not negative, tags of valid
    lines distinct within a set. *)
Definition wf_line (line : cache_line_t) : Prop :=
  (valid line = "0"%char \/ valid line = "1"%char) /\ 0 <= counter line.

Definition wf_set (E : Z) (set : cache_set_t) : Prop :=
  length set = Z.to_nat E /\
  unique_tags set /\
  forall k line, set !! k = Some line -> wf_line line.

Definition wf_cache (s E : Z) (c : cache_t) : Prop :=
  length c = Z.to_nat (2 ^ s) /\
  forall i set, c !! i = Some set -> wf_set E set.

(** After [n] calls: the counters of the simulator and of the lines. *)
Definition bounded (n : Z) (st : sim) : Prop :=
  0 <= hit_count st /\ 0 <= miss_count st /\
  0 <= eviction_count st <= miss_count st /\
  hit_count st + miss_count st = n /\
  forall i set k line,
    cache st !! i = Some set -> set !! k = Some line -> counter line <= n.

(** The line [cache[i][k]], if it exists. *)
Definition line_at (c : cache_t) (i k : nat) : option cache_line_t :=
  set ← c !! i; set !! k.

(** Every line of the set is valid. *)
Definition full (set : cache_set_t) : Prop :=
  forall k line, set !! k = Some line -> valid line = "1"%char.

(** The mask the set index is meant to be cut with, checked against
    [set_mask] for every [s <= 52] and [s + b <= 63]. *)
Definition mask_exact (s b : Z) : bool :=
  match set_mask s b with
  | Ok m => m =? 2 ^ (s + b) - 2 ^ b
  | Fault _ => false
  end.

Definition mask_table : bool :=
  forallb (fun s =>
    forallb (fun b => (63 <? s + b) || mask_exact s b)
            (map Z.of_nat (seq 0 64)))
          (map Z.of_nat (seq 0 53)).

(** Sum of [f] over a list. *)
Definition total {A : Type} (f : A -> Z) (l : list A) : Z :=
  foldr (fun x n => f x + n) 0 l.

(** Number of valid lines of a set and of a cache. *)
Definition occupied (line : cache_line_t) : Z :=
  if Ascii.eqb (valid line) "1" then 1 else 0.

Definition valid_lines (c : cache_t) : Z := total (total occupied) c.

(** What else holds of the sets the simulator builds: a line that is not
    valid has never been written, valid lines have been stamped, they
    fill the set from index 0 upward, and no two of them carry the same
    counter. *)
Definition tidy_set (set : cache_set_t) : Prop :=
  (forall k line, set !! k = Some line -> valid line = "0"%char ->
                  line = Line "0" 0 0) /\
  (forall k line, set !! k = Some line -> valid line = "1"%char ->
                  1 <= counter line) /\
  (forall j k lj lk, (j < k)%nat -> set !! j = Some lj -> set !! k = Some lk ->
                     valid lk = "1"%char -> valid lj = "1"%char) /\
  (forall j k lj lk, set !! j = Some lj -> set !! k = Some lk ->
                     valid lj = "1"%char -> valid lk = "1"%char ->
                     counter lj = counter lk -> j = k).

Definition tidy (c : cache_t) : Prop :=
  forall i set, c !! i = Some set -> tidy_set set.

(** The [accessData] calls a trace line stands for, written as loads. *)
Definition expand_line (line : trace_line) : list trace_line :=
  let '(op, addr) := line in
  if Ascii.eqb op "L" then [("L"%char, addr)]
  else if Ascii.eqb op "S" then [("L"%char, addr)]
  else if Ascii.eqb op "M" then [("L"%char, addr); ("L"%char, addr)]
  else [].

Definition expand (trace : list trace_line) : list trace_line :=
  foldr (fun line rest => expand_line line ++ rest) [] trace.

(** A valid line of [set] holds [t], and every valid line used more
    recently than it holds one of the tags [others]. *)
Definition retained (others : list Z) (t : Z) (set : cache_set_t) : Prop :=
  exists i line,
    set !! i = Some line /\ valid line = "1"%char /\ tag line = t /\
    forall k l, set !! k = Some l -> valid l = "1"%char ->
                counter line < counter l -> tag l ∈ others.

(** ** Allocation *)

Inductive pointer : Type :=
| NULL
| Block (id : nat).

(** An allocated array: of set pointers ([cache]) or of lines
    ([cache[i]]). A cell that has not been written holds [None]. *)
Inductive block : Type :=
| Sets (cells : list (option pointer))
| Lines (cells : list (option cache_line_t)).

Abbreviation heap := (gmap nat block).

(** The allocated blocks and the global [cache]. *)
Record memory : Type := Mem {
  blocks : heap;
  cache_var : pointer
}.

(** [malloc(n * sizeof ...)]: a request for a negative count is a request
    for more than the address space and fails; any other request, one
    for zero cells included, is taken to succeed (the source does not
    test the result) and returns a block that was not allocated before,
    its cells not yet written. *)
Definition malloc (h : heap) (n : Z) (mk : nat -> block) : heap * pointer :=
  if n <? 0 then (h, NULL)
  else let id := fresh (dom h) in (<[id := mk (Z.to_nat n)]> h, Block id).

(** [free(p)]: nothing for [NULL]; undefined unless [p] is allocated. *)
Definition free (h : heap) (p : pointer) : outcome heap :=
  match p with
  | NULL => Ok h
  | Block id =>
      match h !! id with
      | Some _ => Ok (delete id h)
      | None => Fault OutOfBounds
      end
  end.

(** [c[i] = q] and [c[i]] on an array of set pointers. *)
Definition set_cell (h : heap) (c : pointer) (i : Z) (q : pointer) : outcome heap :=
  match c with
  | NULL => Fault OutOfBounds
  | Block id =>
      match h !! id with
      | Some (Sets cells) =>
          if (0 <=? i) && (i <? Z.of_nat (length cells))
          then Ok (<[id := Sets (<[Z.to_nat i := Some q]> cells)]> h)
          else Fault OutOfBounds
      | _ => Fault OutOfBounds
      end
  end.

Definition get_cell (h : heap) (c : pointer) (i : Z) : outcome pointer :=
  match c with
  | NULL => Fault OutOfBounds
  | Block id =>
      match h !! id with
      | Some (Sets cells) =>
          if i <? 0 then Fault OutOfBounds
          else match cells !! Z.to_nat i with
               | Some (Some q) => Ok q
               | _ => Fault OutOfBounds
               end
      | _ => Fault OutOfBounds
      end
  end.

(** [q[j] = line] on an array of lines. *)
Definition set_line (h : heap) (q : pointer) (j : Z) (line : cache_line_t)
  : outcome heap :=
  match q with
  | NULL => Fault OutOfBounds
  | Block id =>
      match h !! id with
      | Some (Lines cells) =>
          if (0 <=? j) && (j <? Z.of_nat (length cells))
          then Ok (<[id := Lines (<[Z.to_nat j := Some line]> cells)]> h)
          else Fault OutOfBounds
      | _ => Fault OutOfBounds
      end
  end.

Fixpoint collect {A B : Type} (f : A -> outcome B) (l : list A) : outcome (list B) :=
  match l with
  | [] => Ok []
  | x :: l' => y ← f x; ys ← collect f l'; Ok (y :: ys)
  end.

(** The contents of the cache as [accessData] sees them through
    [cache[i][j]]. A set whose pointer is [NULL] (what [malloc] returns
    for a negative [E]) has no line that can be accessed. *)
Definition read_set (h : heap) (cell : option pointer) : outcome cache_set_t :=
  match cell with
  | Some (Block id) =>
      match h !! id with
      | Some (Lines cells) =>
          collect (fun c => match c with
                            | Some line => Ok line
                            | None => Fault OutOfBounds
                            end) cells
      | _ => Fault OutOfBounds
      end
  | Some NULL => Ok []
  | None => Fault OutOfBounds
  end.

Definition read_cache (m : memory) : outcome cache_t :=
  match cache_var m with
  | NULL => Fault OutOfBounds
  | Block id =>
      match blocks m !! id with
      | Some (Sets cells) => collect (read_set (blocks m)) cells
      | _ => Fault OutOfBounds
      end
  end.

Section Memory.

Variables s E : Z.

(** The inner loop of [initCache]: [cache[i][j]] set to ['0'], 0, 0. *)
Fixpoint init_lines (q : pointer) (fuel : nat) (j : Z) (h : heap) : outcome heap :=
  match fuel with
  | O => Ok h
  | S fuel' =>
      h1 ← set_line h q j (Line "0" 0 0);
      init_lines q fuel' (j + 1) h1
  end.

(** The outer loop of [initCache]. *)
Fixpoint init_sets (c : pointer) (fuel : nat) (i : Z) (h : heap) : outcome heap :=
  match fuel with
  | O => Ok h
  | S fuel' =>
      let '(h1, q) := malloc h E (fun n => Lines (replicate n None)) in
      h2 ← set_cell h1 c i q;
      h3 ← init_lines q (Z.to_nat E) 0 h2;
      init_sets c fuel' (i + 1) h3
  end.

(** [initCache], on the memory. *)
Definition initCache_mem (m : memory) : outcome memory :=
  S ← int_of_double (pow2 s);
  let '(h, c) := malloc (blocks m) S (fun n => Sets (replicate n None)) in
  h' ← init_sets c (Z.to_nat S) 0 h;
  Ok (Mem h' c).

(** The loop of [freeCache]. *)
Fixpoint free_sets (c : pointer) (fuel : nat) (i : Z) (h : heap) : outcome heap :=
  match fuel with
  | O => Ok h
  | S fuel' =>
      q ← get_cell h c i;
      h1 ← free h q;
      free_sets c fuel' (i + 1) h1
  end.

(** [freeCache]: [S] is computed again from [s]; [cache] keeps its value. *)
Definition freeCache (m : memory) : outcome memory :=
  S ← int_of_double (pow2 s);
  h ← free_sets (cache_var m) (Z.to_nat S) 0 (blocks m);
  h' ← free h (cache_var m);
  Ok (Mem h' (cache_var m)).

End Memory.

(** ** The driver *)

(** The globals set from the command line: [s], [E], [b], [trace_file]
    ([None] is [NULL]) and [verbosity]. *)
Record options : Type := Options {
  opt_s : Z;
  opt_E : Z;
  opt_b : Z;
  opt_trace : option String.string;
  opt_verbose : Z
}.

(** How [main] ends: [exit(status)], a return after
    [printSummary(hit_count, miss_count, eviction_count)], or undefined
    behaviour. *)
Inductive ending : Type :=
| Exited (status : Z)
| Summary (hits misses evictions : Z)
| Undefined (u : undefined).

(** A step of [main] either goes on or ends the process. *)
Inductive run (A : Type) : Type :=
| Continue (a : A)
| Stop (e : ending).

Arguments Continue {A} a.
Arguments Stop {A} e.

Global Instance run_bind : MBind run := fun A B k r =>
  match r with
  | Continue a => k a
  | Stop e => Stop e
  end.

Definition exit {A : Type} (status : Z) : run A := Stop (Exited status).

(** [printUsage]: prints the usage text and ends with [exit(0)]. *)
Definition printUsage : run unit := exit 0.

Section Driver.

(** [atoi] of the C library, and what [fopen] and the reading loop of
    [replayTrace] obtain from a file name: nothing when the file cannot
    be opened, else the operation character and address of each line. *)
Variable atoi : String.string -> Z.
Variable trace_of : String.string -> option (list trace_line).

(** The [switch] of [main] on one result of [getopt]: the option
    character and [optarg]. *)
Definition option_case (o : options) (opt : ascii * String.string) : run options :=
  let '(c, optarg) := opt in
  if Ascii.eqb c "s" then
    Continue (Options (atoi optarg) (opt_E o) (opt_b o) (opt_trace o) (opt_verbose o))
  else if Ascii.eqb c "E" then
    Continue (Options (opt_s o) (atoi optarg) (opt_b o) (opt_trace o) (opt_verbose o))
  else if Ascii.eqb c "b" then
    Continue (Options (opt_s o) (opt_E o) (atoi optarg) (opt_trace o) (opt_verbose o))
  else if Ascii.eqb c "t" then
    Continue (Options (opt_s o) (opt_E o) (opt_b o) (Some optarg) (opt_verbose o))
  else if Ascii.eqb c "v" then
    Continue (Options (opt_s o) (opt_E o) (opt_b o) (opt_trace o) 1)
  else if Ascii.eqb c "h" then
    _ ← printUsage; exit 0
  else
    _ ← printUsage; exit 1.

(** The [while] loop of [main] over the results of [getopt]. *)
Fixpoint parse_options (opts : list (ascii * String.string)) (o : options)
  : run options :=
  match opts with
  | [] => Continue o
  | opt :: rest => o' ← option_case o opt; parse_options rest o'
  end.

(** The test for missing arguments. *)
Definition required (o : options) : run (Z * Z * Z * String.string) :=
  match opt_trace o with
  | Some file =>
      if (opt_s o =? 0) || (opt_E o =? 0) || (opt_b o =? 0)
      then _ ← printUsage; exit 1
      else Continue (opt_s o, opt_E o, opt_b o, file)
  | None => _ ← printUsage; exit 1
  end.

(** [main]: options, [initCache], [replayTrace] (which exits with status
    1 when the file cannot be opened), [freeCache], [printSummary].
    [accessData] reads and writes line contents only, so the replay runs
    on the contents read from the memory [initCache] leaves. *)
Definition main (opts : list (ascii * String.string)) (m : memory)
  : ending * memory :=
  match o ← parse_options opts (Options 0 0 0 None 0); required o with
  | Stop e => (e, m)
  | Continue (s, E, b, file) =>
      match initCache_mem s E m with
      | Fault u => (Undefined u, m)
      | Ok m1 =>
          match trace_of file with
          | None => (Exited 1, m1)
          | Some trace =>
              match c ← read_cache m1; replayTrace s b E trace (Sim c 0 0 0) with
              | Fault u => (Undefined u, m1)
              | Ok st =>
                  match freeCache s m1 with
                  | Fault u => (Undefined u, m1)
                  | Ok m2 =>
                      (Summary (hit_count st) (miss_count st) (eviction_count st), m2)
                  end
              end
          end
      end
  end.

End Driver.

(** The option characters that set a global. *)
Definition setting (c : ascii) : bool :=
  Ascii.eqb c "s" || Ascii.eqb c "E" || Ascii.eqb c "b" || Ascii.eqb c "t" ||
  Ascii.eqb c "v".

(** ** The outcome monad *)

Lemma bind_Ok {A B : Type} (m : outcome A) (k : A -> outcome B) (r : B) :
  (m ≫= k) = Ok r <-> exists a, m = Ok a /\ k a = Ok r.
Proof.
  destruct m as [a|u]; simpl; split.
  - intros H. exists a. split; [reflexivity | exact H].
  - intros (a' & Ha & Hk). inversion Ha; subst. exact Hk.
  - discriminate.
  - intros (a' & Ha & _). discriminate.
Qed.

Lemma int_add_Ok (x y r : Z) :
  int_add x y = Ok r <-> r = x + y /\ INT_MIN <= x + y <= INT_MAX.
Proof.
  unfold int_add, in_int.
  destruct (INT_MIN <=? x + y) eqn:H1; destruct (x + y <=? INT_MAX) eqn:H2;
    simpl; split; intros H; try discriminate; try (inversion H; subst; split; lia);
    destruct H as [-> H]; try reflexivity; lia.
Qed.

Lemma index_Ok {A : Type} (l : list A) (i : Z) (x : A) :
  index l i = Ok x <-> 0 <= i /\ l !! Z.to_nat i = Some x.
Proof.
  unfold index. destruct (i <? 0) eqn:Hi.
  - split; [discriminate | lia].
  - destruct (l !! Z.to_nat i) as [y|]; split; intros H.
    + inversion H; subst. split; [lia | reflexivity].
    + destruct H as [_ H]. inversion H. reflexivity.
    + discriminate.
    + destruct H as [_ H]. discriminate.
Qed.

Lemma index_of_nat {A : Type} (l : list A) (i : nat) (x : A) :
  l !! i = Some x -> index l (Z.of_nat i) = Ok x.
Proof.
  intros H. apply index_Ok. rewrite Nat2Z.id. split; [lia | exact H].
Qed.

Lemma store_Ok (c c' : cache_t) (i j : Z) f :
  store c i j f = Ok c' <->
  exists set line,
    index c i = Ok set /\ index set j = Ok line /\
    c' = <[Z.to_nat i := <[Z.to_nat j := f line]> set]> c.
Proof.
  unfold store. rewrite bind_Ok. split.
  - intros (set & Hs & H). apply bind_Ok in H as (line & Hl & H).
    inversion H. eauto.
  - intros (set & line & Hs & Hl & ->). exists set. split; [exact Hs|].
    apply bind_Ok. eauto.
Qed.

(** ** Powers of two *)

Lemma trunc_pow2 (n : Z) : trunc (pow2 n) = 2 ^ n.
Proof.
  unfold trunc, pow2. simpl. destruct (0 <=? n) eqn:Hn.
  - lia.
  - apply Z.leb_gt in Hn. rewrite (Z.pow_neg_r 2 n) by lia.
    apply Z.quot_small. split; [lia|].
    assert (H : 2 ^ 1 <= 2 ^ (- n)) by (apply Z.pow_le_mono_r; lia). lia.
Qed.

Lemma int_of_pow2 (n : Z) : n <= 30 -> int_of_double (pow2 n) = Ok (2 ^ n).
Proof.
  intros Hn. unfold int_of_double. rewrite trunc_pow2. cbv zeta.
  assert (H0 : 0 <= 2 ^ n) by (apply Z.pow_nonneg; lia).
  assert (H2 : 2 ^ n <= 2 ^ 30).
  { destruct (Z_lt_le_dec n 0) as [Hneg|Hpos].
    - rewrite (Z.pow_neg_r 2 n) by lia. lia.
    - apply Z.pow_le_mono_r; lia. }
  unfold in_int, INT_MIN, INT_MAX.
  replace ((- 2 ^ 31 <=? 2 ^ n) && (2 ^ n <=? 2 ^ 31 - 1)) with true
    by (symmetry; apply andb_true_iff; split; apply Z.leb_le; lia).
  reflexivity.
Qed.

Lemma int_of_pow2_big (n : Z) :
  31 <= n -> int_of_double (pow2 n) = Fault BadConversion.
Proof.
  intros Hn. unfold int_of_double. rewrite trunc_pow2. cbv zeta.
  assert (H2 : 2 ^ 31 <= 2 ^ n) by (apply Z.pow_le_mono_r; lia).
  unfold in_int, INT_MAX.
  replace (2 ^ n <=? 2 ^ 31 - 1) with false by (symmetry; apply Z.leb_gt; lia).
  rewrite andb_false_r. reflexivity.
Qed.

(** ** The loops of [accessData] *)

Section Loops.

Variable set : cache_set_t.

Lemma index_defined (j : Z) :
  0 <= j -> (Z.to_nat j < length set)%nat -> exists line, index set j = Ok line.
Proof.
  intros Hj Hlt. destruct (lookup_lt_is_Some_2 set (Z.to_nat j) Hlt) as [line Hl].
  exists line. apply index_Ok. split; assumption.
Qed.

Lemma find_line_Some test fuel j i :
  0 <= j ->
  find_line test set fuel j = Ok (Some i) ->
  j <= i < j + Z.of_nat fuel /\
  (exists line, set !! Z.to_nat i = Some line /\ test line = true) /\
  (forall k line, (Z.to_nat j <= k < Z.to_nat i)%nat ->
                  set !! k = Some line -> test line = false).
Proof.
  revert j. induction fuel as [|fuel IH]; intros j Hj H; simpl in H.
  - discriminate.
  - apply bind_Ok in H as (line & Hl & H). apply index_Ok in Hl as [_ Hl].
    destruct (test line) eqn:Ht.
    + inversion H; subst i. split; [lia|]. split; [eauto|].
      intros k l Hk. lia.
    + apply IH in H as (Hr & Hi & Hb); [|lia]. split; [lia|]. split; [exact Hi|].
      intros k l Hk Hkl.
      destruct (decide (k = Z.to_nat j)) as [->|Hne].
      * rewrite Hl in Hkl. inversion Hkl; subst. exact Ht.
      * apply (Hb k l); [lia | exact Hkl].
Qed.

Lemma find_line_None test fuel j :
  0 <= j ->
  find_line test set fuel j = Ok None ->
  forall k line, (Z.to_nat j <= k < Z.to_nat j + fuel)%nat ->
                 set !! k = Some line -> test line = false.
Proof.
  revert j. induction fuel as [|fuel IH]; intros j Hj H k l Hk Hkl; simpl in H.
  - lia.
  - apply bind_Ok in H as (line & Hl & H). apply index_Ok in Hl as [_ Hl].
    destruct (test line) eqn:Ht; [discriminate|].
    destruct (decide (k = Z.to_nat j)) as [->|Hne].
    + rewrite Hl in Hkl. inversion Hkl; subst. exact Ht.
    + apply (IH (j + 1)) with (k := k); [lia | exact H | lia | exact Hkl].
Qed.

Lemma find_line_defined test fuel j :
  0 <= j -> (Z.to_nat j + fuel <= length set)%nat ->
  exists r, find_line test set fuel j = Ok r.
Proof.
  revert j. induction fuel as [|fuel IH]; intros j Hj Hlen; simpl.
  - eauto.
  - destruct (index_defined j) as [line Hl]; [lia | lia |]. rewrite Hl. simpl.
    destruct (test line); [eauto|]. apply IH; lia.
Qed.

(** What the first loop leaves in [min], [max] and [minIndex] after
    scanning the lines [j, j + fuel). *)
Lemma scan_counters_Ok fuel j mn mx mi mn' mx' mi' :
  0 <= j ->
  scan_counters set fuel j mn mx mi = Ok (mn', mx', mi') ->
  (mx <= mx' /\
   (forall k line, (Z.to_nat j <= k < Z.to_nat j + fuel)%nat ->
                   set !! k = Some line -> counter line <= mx') /\
   (mx' = mx \/
    exists k line, (Z.to_nat j <= k < Z.to_nat j + fuel)%nat /\
                   set !! k = Some line /\ counter line = mx')) /\
  ((forall k line, (Z.to_nat j <= k < Z.to_nat j + fuel)%nat ->
                   set !! k = Some line -> mn' <= counter line) /\
   ((mn' = mn /\ mi' = mi) \/
    (mn' < mn /\ j <= mi' < j + Z.of_nat fuel /\
     exists line, set !! Z.to_nat mi' = Some line /\ counter line = mn' /\
       forall k line', (Z.to_nat j <= k < Z.to_nat mi')%nat ->
                       set !! k = Some line' -> mn' < counter line'))).
Proof.
  revert j mn mx mi. induction fuel as [|fuel IH]; intros j mn mx mi Hj H; simpl in H.
  - inversion H; subst. split.
    + split; [lia|]. split; [intros; lia | left; reflexivity].
    + split; [intros; lia | left; split; reflexivity].
  - apply bind_Ok in H as (line & Hl & H). apply index_Ok in Hl as [_ Hl].
    destruct (counter line <? mn) eqn:Hmin;
      [apply Z.ltb_lt in Hmin | apply Z.ltb_ge in Hmin];
      (destruct (mx <? counter line) eqn:Hmax;
        [apply Z.ltb_lt in Hmax | apply Z.ltb_ge in Hmax]);
      apply IH in H as ((Hx1 & Hx2 & Hx3) & (Hn1 & Hn2)); try lia;
      (split;
       [ split; [lia|]; split;
         [ intros k l Hk Hkl;
           destruct (decide (k = Z.to_nat j)) as [->|Hne];
           [ rewrite Hl in Hkl; inversion Hkl; subst; lia
           | apply (Hx2 k l); [lia | exact Hkl] ]
         | destruct Hx3 as [->|(k & l & Hk & Hkl & Hc)];
           [ first [ left; reflexivity
                   | right; exists (Z.to_nat j), line;
                     split; [lia|]; split; [exact Hl | reflexivity] ]
           | right; exists k, l; split; [lia|]; split; assumption ] ]
       | split;
         [ intros k l Hk Hkl;
           destruct (decide (k = Z.to_nat j)) as [->|Hne];
           [ rewrite Hl in Hkl; inversion Hkl; subst;
             destruct Hn2 as [[-> _]|(Hlt & _)]; lia
           | apply (Hn1 k l); [lia | exact Hkl] ]
         | ] ]).
    all: destruct Hn2 as [[-> ->]|(Hlt & Hr & l & Hml & Hc & Hb)].
    all: try (left; split; reflexivity).
    all: try (right; split; [lia|]; split; [lia|]; exists line;
              split; [exact Hl|]; split; [reflexivity|]; intros; lia).
    all: right; split; [lia|]; split; [lia|]; exists l;
      split; [exact Hml|]; split; [exact Hc|];
      intros k l' Hk Hkl;
      (destruct (decide (k = Z.to_nat j)) as [->|Hne];
       [ rewrite Hl in Hkl; inversion Hkl; subst; lia
       | apply (Hb k l'); [lia | exact Hkl] ]).
Qed.

Lemma scan_counters_defined fuel j mn mx mi :
  0 <= j -> (Z.to_nat j + fuel <= length set)%nat ->
  exists r, scan_counters set fuel j mn mx mi = Ok r.
Proof.
  revert j mn mx mi. induction fuel as [|fuel IH]; intros j mn mx mi Hj Hlen; simpl.
  - eauto.
  - destruct (index_defined j) as [line Hl]; [lia | lia |]. rewrite Hl. simpl.
    destruct (counter line <? mn); apply IH; lia.
Qed.

End Loops.

Lemma max_counter_spec (set : cache_set_t) :
  0 <= max_counter set /\
  (forall k line, set !! k = Some line -> counter line <= max_counter set) /\
  (max_counter set = 0 \/
   exists k line, set !! k = Some line /\ counter line = max_counter set).
Proof.
  induction set as [|l set (IH0 & IHle & IHex)]; simpl.
  - split; [lia|]. split; [intros k line H; discriminate | left; reflexivity].
  - split; [lia|]. split.
    + intros [|k] line H; simpl in H.
      * inversion H; subst. lia.
      * specialize (IHle k line H). lia.
    + destruct (Z.max_spec (counter l) (max_counter set)) as [[Hlt ->]|[Hge ->]].
      * destruct IHex as [Hz|(k & line & Hk & Hc)]; [left; exact Hz|].
        right. exists (S k), line. split; [exact Hk | exact Hc].
      * right. exists O, l. split; reflexivity.
Qed.

(** Started with [max = 0] and run over the whole set, the first loop
    computes [max_counter]. *)
Lemma scan_counters_max (set : cache_set_t) mn mi mn' mx' mi' :
  scan_counters set (length set) 0 mn 0 mi = Ok (mn', mx', mi') ->
  mx' = max_counter set.
Proof.
  intros H. apply scan_counters_Ok in H as ((H0 & Hle & Hex) & _); [|lia].
  destruct (max_counter_spec set) as (M0 & Mle & Mex).
  apply Z.le_antisymm.
  - destruct Hex as [->|(k & line & _ & Hk & <-)]; [exact M0 | eapply Mle, Hk].
  - destruct Mex as [->|(k & line & Hk & <-)]; [exact H0|].
    apply (Hle k line); [|exact Hk].
    apply lookup_lt_Some in Hk. simpl. lia.
Qed.

(** ** [accessData] and its cases *)

Section Access.

Variables s b E : Z.

Lemma accessData_access st addr st' :
  accessData s b E st addr = Ok st' <-> access s b E st addr st'.
Proof.
  unfold accessData. split.
  - intros H.
    apply bind_Ok in H as (ts & Hset & H).
    apply bind_Ok in H as (tt & Htag & H).
    apply bind_Ok in H as (set & Hidx & H).
    apply bind_Ok in H as ([[mn mx] mi] & Hscan & H).
    apply bind_Ok in H as ([i|] & Hfind & H).
    + apply bind_Ok in H as (hits & Hhits & H). apply int_add_Ok in Hhits as [-> Hhits].
      apply bind_Ok in H as (stamp & Hstamp & H). apply int_add_Ok in Hstamp as [-> Hstamp].
      apply bind_Ok in H as (c & Hc & H).
      apply store_Ok in Hc as (set' & line & Hidx' & Hline & ->).
      rewrite Hidx in Hidx'. inversion Hidx'; subst set'. inversion H.
      eapply access_hit; eauto.
    + apply bind_Ok in H as (misses & Hmisses & H).
      apply int_add_Ok in Hmisses as [-> Hmisses].
      apply bind_Ok in H as ([k|] & Hempty & H).
      * apply bind_Ok in H as (stamp & Hstamp & H).
        apply int_add_Ok in Hstamp as [-> Hstamp].
        apply bind_Ok in H as (c & Hc & H).
        apply store_Ok in Hc as (set' & line & Hidx' & Hline & ->).
        rewrite Hidx in Hidx'. inversion Hidx'; subst set'. inversion H.
        eapply access_cold; eauto.
      * apply bind_Ok in H as (evictions & Hev & H).
        apply int_add_Ok in Hev as [-> Hev].
        apply bind_Ok in H as (stamp & Hstamp & H).
        apply int_add_Ok in Hstamp as [-> Hstamp].
        apply bind_Ok in H as (c & Hc & H).
        apply store_Ok in Hc as (set' & line & Hidx' & Hline & ->).
        rewrite Hidx in Hidx'. inversion Hidx'; subst set'. inversion H.
        eapply access_evict; eauto.
  - intros [ts tt set mn mx mi i line Hset Htag Hidx Hscan Hfind Hline Hhits Hstamp ->
           |ts tt set mn mx mi k line Hset Htag Hidx Hscan Hfind Hmisses Hempty Hline Hstamp ->
           |ts tt set mn mx mi line Hset Htag Hidx Hscan Hfind Hmisses Hempty Hev Hstamp Hline ->];
      rewrite Hset, Htag; simpl; rewrite Hidx; simpl; rewrite Hscan; simpl;
      rewrite Hfind; simpl.
    + assert (Hh : int_add (hit_count st) 1 = Ok (hit_count st + 1))
        by (apply int_add_Ok; split; [reflexivity | exact Hhits]).
      assert (Hs : int_add mx 1 = Ok (mx + 1))
        by (apply int_add_Ok; split; [reflexivity | exact Hstamp]).
      rewrite Hh; simpl; rewrite Hs; simpl.
      unfold store. rewrite Hidx; simpl. rewrite Hline; simpl. reflexivity.
    + assert (Hm : int_add (miss_count st) 1 = Ok (miss_count st + 1))
        by (apply int_add_Ok; split; [reflexivity | exact Hmisses]).
      assert (Hs : int_add mx 1 = Ok (mx + 1))
        by (apply int_add_Ok; split; [reflexivity | exact Hstamp]).
      rewrite Hm; simpl; rewrite Hempty; simpl; rewrite Hs; simpl.
      unfold store. rewrite Hidx; simpl. rewrite Hline; simpl. reflexivity.
    + assert (Hm : int_add (miss_count st) 1 = Ok (miss_count st + 1))
        by (apply int_add_Ok; split; [reflexivity | exact Hmisses]).
      assert (He : int_add (eviction_count st) 1 = Ok (eviction_count st + 1))
        by (apply int_add_Ok; split; [reflexivity | exact Hev]).
      assert (Hs : int_add mx 1 = Ok (mx + 1))
        by (apply int_add_Ok; split; [reflexivity | exact Hstamp]).
      rewrite Hm; simpl; rewrite Hempty; simpl; rewrite He; simpl; rewrite Hs; simpl.
      unfold store. rewrite Hidx; simpl. rewrite Hline; simpl. reflexivity.
Qed.

End Access.

(** ** Address decomposition *)

Lemma mask_table_ok : mask_table = true.
Proof. vm_compute. reflexivity. Qed.

(** For up to 52 set-index bits the [double] arithmetic is exact enough:
    the mask selects the bits [b .. s + b - 1]. *)
Lemma set_mask_exact (s b : Z) :
  0 <= s <= 52 -> 0 <= b -> s + b <= 63 ->
  set_mask s b = Ok (2 ^ (s + b) - 2 ^ b).
Proof.
  intros Hs Hb Hsb.
  pose proof mask_table_ok as T. unfold mask_table in T.
  rewrite forallb_forall in T.
  specialize (T s). rewrite forallb_forall in T.
  assert (Hin : forall n k, 0 <= k < Z.of_nat n -> In k (map Z.of_nat (seq 0 n))).
  { intros n k Hk. apply in_map_iff. exists (Z.to_nat k).
    split; [lia | apply in_seq; lia]. }
  specialize (T (Hin 53%nat s ltac:(lia)) b (Hin 64%nat b ltac:(lia))).
  apply orb_true_iff in T as [T|T]; [apply Z.ltb_lt in T; lia|].
  unfold mask_exact in T. destruct (set_mask s b) as [m|u]; [|discriminate].
  apply Z.eqb_eq in T. subst m. reflexivity.
Qed.

Lemma mask_shift (s b : Z) :
  0 <= s -> 0 <= b -> 2 ^ (s + b) - 2 ^ b = Z.shiftl (Z.ones s) b.
Proof.
  intros Hs Hb. rewrite Z.shiftl_mul_pow2 by lia.
  rewrite Z.ones_equiv, Z.pow_add_r by lia. lia.
Qed.

Lemma targSet_exact (s b addr : Z) :
  0 <= s <= 52 -> 0 <= b -> s + b <= 63 ->
  targSet s b addr = Ok (Z.land (Z.shiftr addr b) (2 ^ s - 1)).
Proof.
  intros Hs Hb Hsb. unfold targSet. rewrite set_mask_exact by lia. simpl.
  unfold shr_u64.
  replace ((0 <=? b) && (b <? 64)) with true by (symmetry; apply andb_true_iff; lia).
  f_equal. rewrite mask_shift by lia.
  rewrite Z.shiftr_land, Z.shiftr_shiftl_l, Z.sub_diag, Z.shiftl_0_r by lia.
  rewrite Z.ones_equiv. reflexivity.
Qed.

Lemma targTag_exact (s b addr : Z) :
  0 <= s -> 0 <= b -> s + b <= 63 ->
  targTag s b addr = Ok (Z.shiftr addr (s + b)).
Proof.
  intros Hs Hb Hsb. unfold targTag.
  assert (Hn : int_add s b = Ok (s + b)).
  { apply int_add_Ok. unfold INT_MIN, INT_MAX. split; [reflexivity | lia]. }
  rewrite Hn. simpl. unfold shr_u64.
  replace ((0 <=? s + b) && (s + b <? 64)) with true
    by (symmetry; apply andb_true_iff; lia).
  reflexivity.
Qed.

Lemma targSet_range (s b addr ts : Z) :
  0 <= s <= 52 -> 0 <= b -> s + b <= 63 ->
  targSet s b addr = Ok ts -> 0 <= ts < 2 ^ s.
Proof.
  intros Hs Hb Hsb H. rewrite targSet_exact in H by lia. inversion H.
  replace (2 ^ s - 1) with (Z.ones s) by (rewrite Z.ones_equiv; lia).
  rewrite Z.land_ones by lia.
  apply Z.mod_pos_bound. lia.
Qed.

(** ** Well-formed caches *)

Lemma is_hit_true tt line :
  is_hit tt line = true <-> valid line = "1"%char /\ tag line = tt.
Proof.
  unfold is_hit. rewrite andb_true_iff, Ascii.eqb_eq, Z.eqb_eq. reflexivity.
Qed.

Lemma is_hit_false tt line :
  is_hit tt line = false <-> ~ (valid line = "1"%char /\ tag line = tt).
Proof.
  rewrite <- is_hit_true. destruct (is_hit tt line); split; intros H;
    try reflexivity; try discriminate; try (intros H'; discriminate).
  exfalso. apply H. reflexivity.
Qed.

Lemma is_empty_true line : is_empty line = true <-> valid line = "0"%char.
Proof. unfold is_empty. apply Ascii.eqb_eq. Qed.

(** Found by the hit loop on a set of [E] lines: nothing, exactly when the
    tag is not resident. *)
Lemma find_hit_None E tt (set : cache_set_t) :
  length set = Z.to_nat E ->
  find_line (is_hit tt) set (Z.to_nat E) 0 = Ok None ->
  ~ resident tt set.
Proof.
  intros Hlen H (i & line & Hi & Hv & Ht).
  assert (Hf : is_hit tt line = false).
  { apply (find_line_None set _ _ 0 ltac:(lia) H i line); [|exact Hi].
    apply lookup_lt_Some in Hi. lia. }
  apply is_hit_false in Hf. apply Hf. split; assumption.
Qed.

Lemma find_empty_None E (set : cache_set_t) :
  length set = Z.to_nat E ->
  find_line is_empty set (Z.to_nat E) 0 = Ok None ->
  forall k line, set !! k = Some line -> valid line <> "0"%char.
Proof.
  intros Hlen H k line Hk Hv.
  assert (Hf : is_empty line = false).
  { apply (find_line_None set _ _ 0 ltac:(lia) H k line); [|exact Hk].
    apply lookup_lt_Some in Hk. lia. }
  apply is_empty_true in Hv. congruence.
Qed.

Lemma unique_tags_update (set : cache_set_t) i line line' :
  unique_tags set ->
  set !! i = Some line ->
  (valid line' = valid line /\ tag line' = tag line) \/ ~ resident (tag line') set ->
  unique_tags (<[i := line']> set).
Proof.
  intros Hu Hi Hcase j k lj lk Hj Hk Hvj Hvk Ht.
  apply list_lookup_insert_Some in Hj as [(<- & <- & Hlt)|[Hne Hj]];
    apply list_lookup_insert_Some in Hk as [(<- & <- & Hlt')|[Hne' Hk]].
  - reflexivity.
  - destruct Hcase as [[Hv Hg]|Hnr].
    + apply (Hu i k line lk); congruence.
    + exfalso. apply Hnr. exists k, lk. split; [exact Hk|]. split; congruence.
  - destruct Hcase as [[Hv Hg]|Hnr].
    + apply (Hu j i lj line); congruence.
    + exfalso. apply Hnr. exists j, lj. split; [exact Hj|]. split; congruence.
  - apply (Hu j k lj lk); assumption.
Qed.

Lemma wf_set_update E (set : cache_set_t) i line line' :
  wf_set E set ->
  set !! i = Some line ->
  wf_line line' ->
  (valid line' = valid line /\ tag line' = tag line) \/ ~ resident (tag line') set ->
  wf_set E (<[i := line']> set).
Proof.
  intros (Hlen & Hu & Hl) Hi Hw Hcase. split; [|split].
  - rewrite length_insert. exact Hlen.
  - eapply unique_tags_update; eassumption.
  - intros k l Hk.
    apply list_lookup_insert_Some in Hk as [(_ & <- & _)|[_ Hk]];
      [exact Hw | eapply Hl, Hk].
Qed.

Lemma wf_cache_update s E (c : cache_t) i set' :
  wf_cache s E c -> wf_set E set' -> wf_cache s E (<[i := set']> c).
Proof.
  intros [Hlen Hsets] Hset'. split.
  - rewrite length_insert. exact Hlen.
  - intros j set Hj.
    apply list_lookup_insert_Some in Hj as [(_ & <- & _)|[_ Hj]];
      [exact Hset' | eapply Hsets, Hj].
Qed.

Lemma scan_counters_nonneg (set : cache_set_t) fuel mn mi mn' mx' mi' :
  scan_counters set fuel 0 mn 0 mi = Ok (mn', mx', mi') -> 0 <= mx'.
Proof.
  intros H. apply scan_counters_Ok in H as ((H0 & _) & _); lia.
Qed.

Section Preservation.

Variables s b E : Z.

Lemma access_wf st addr st' :
  wf_cache s E (cache st) ->
  access s b E st addr st' ->
  wf_cache s E (cache st').
Proof.
  intros Hwf
    [ts tt set mn mx mi i line Hset Htag Hidx Hscan Hfind Hline Hhits Hstamp ->
    |ts tt set mn mx mi k line Hset Htag Hidx Hscan Hfind Hmisses Hempty Hline Hstamp ->
    |ts tt set mn mx mi line Hset Htag Hidx Hscan Hfind Hmisses Hempty Hev Hstamp Hline ->];
    simpl; apply wf_cache_update; try exact Hwf;
    apply index_Ok in Hidx as [_ Hidx]; apply index_Ok in Hline as [_ Hline];
    pose proof (proj2 Hwf _ _ Hidx) as Hws;
    pose proof (scan_counters_nonneg _ _ _ _ _ _ _ Hscan) as Hmx;
    (eapply wf_set_update; [exact Hws | exact Hline | | ]).
  - split; simpl; [|lia]. apply (proj2 (proj2 Hws) _ _ Hline).
  - left. split; reflexivity.
  - split; simpl; [right; reflexivity | lia].
  - right. simpl. eapply find_hit_None; [apply Hws | exact Hfind].
  - split; simpl; [|lia]. apply (proj2 (proj2 Hws) _ _ Hline).
  - right. simpl. eapply find_hit_None; [apply Hws | exact Hfind].
Qed.

Lemma steps_wf st st' :
  wf_cache s E (cache st) -> steps s b E st st' -> wf_cache s E (cache st').
Proof.
  intros Hwf Hsteps. induction Hsteps as [st|st st' st'' addr _ IH Hacc].
  - exact Hwf.
  - eapply access_wf; [apply IH, Hwf | apply accessData_access, Hacc].
Qed.

Lemma initCache_Ok c :
  initCache s E = Ok c <->
  s <= 30 /\
  c = replicate (Z.to_nat (2 ^ s)) (replicate (Z.to_nat E) (Line "0" 0 0)).
Proof.
  unfold initCache. destruct (Z_le_gt_dec s 30) as [Hle|Hgt].
  - rewrite int_of_pow2 by exact Hle. simpl. split.
    + intros H; inversion H. split; [exact Hle | reflexivity].
    + intros [_ ->]. reflexivity.
  - rewrite int_of_pow2_big by lia. simpl. split; [discriminate | lia].
Qed.

Lemma initCache_wf c : initCache s E = Ok c -> wf_cache s E c.
Proof.
  intros H. apply initCache_Ok in H as [Hs ->]. split.
  - apply length_replicate.
  - intros i set Hi. apply lookup_replicate in Hi as [-> _]. split; [|split].
    + apply length_replicate.
    + intros j k lj lk Hj _ Hvj. apply lookup_replicate in Hj as [-> _]. discriminate.
    + intros k line Hk. apply lookup_replicate in Hk as [-> _].
      split; simpl; [left; reflexivity | lia].
Qed.

Lemma reachable_wf st : reachable s b E st -> wf_cache s E (cache st).
Proof.
  intros (c & Hc & Hsteps).
  apply (steps_wf (Sim c 0 0 0)); [apply initCache_wf, Hc | exact Hsteps].
Qed.

End Preservation.

(** ** Counters *)

Section Counters.

Variables s b E : Z.

Lemma access_counts st addr st' :
  access s b E st addr st' ->
  (hit_count st' = hit_count st + 1 /\ miss_count st' = miss_count st /\
   eviction_count st' = eviction_count st) \/
  (hit_count st' = hit_count st /\ miss_count st' = miss_count st + 1 /\
   (eviction_count st' = eviction_count st \/
    eviction_count st' = eviction_count st + 1)).
Proof.
  intros [ts tt set mn mx mi i line _ _ _ _ _ _ _ _ ->
         |ts tt set mn mx mi k line _ _ _ _ _ _ _ _ _ ->
         |ts tt set mn mx mi line _ _ _ _ _ _ _ _ _ _ ->]; simpl.
  - left. repeat split.
  - right. repeat split. left. reflexivity.
  - right. repeat split. right. reflexivity.
Qed.

Lemma steps_trans st1 st2 st3 :
  steps s b E st1 st2 -> steps s b E st2 st3 -> steps s b E st1 st3.
Proof.
  intros H12 H23. induction H23 as [|st2 st3 st4 addr _ IH Hacc].
  - exact H12.
  - eapply steps_access; [apply IH, H12 | exact Hacc].
Qed.

Lemma steps_one st addr st' :
  accessData s b E st addr = Ok st' -> steps s b E st st'.
Proof. intros H. eapply steps_access; [apply steps_refl | exact H]. Qed.

Lemma replayLine_cases st line st' :
  replayLine s b E st line = Ok st' ->
  (accesses_of line = 0 /\ st' = st) \/
  (accesses_of line = 1 /\ accessData s b E st (snd line) = Ok st') \/
  (accesses_of line = 2 /\
   exists st1, accessData s b E st (snd line) = Ok st1 /\
               accessData s b E st1 (snd line) = Ok st').
Proof.
  destruct line as [op addr]. unfold replayLine, accesses_of. simpl.
  destruct (Ascii.eqb op "L"); [intros H; right; left; split; [reflexivity | exact H]|].
  destruct (Ascii.eqb op "S"); [intros H; right; left; split; [reflexivity | exact H]|].
  destruct (Ascii.eqb op "M").
  - intros H. apply bind_Ok in H as (st1 & H1 & H2).
    right; right. split; [reflexivity|]. exists st1. split; assumption.
  - intros H. inversion H. left. split; reflexivity.
Qed.

Lemma replayLine_steps st line st' :
  replayLine s b E st line = Ok st' -> steps s b E st st'.
Proof.
  intros H. apply replayLine_cases in H
    as [[_ ->]|[[_ H]|(_ & st1 & H1 & H2)]].
  - apply steps_refl.
  - apply steps_one in H. exact H.
  - eapply steps_trans; eapply steps_one; eassumption.
Qed.

Lemma replayTrace_steps trace st st' :
  replayTrace s b E trace st = Ok st' -> steps s b E st st'.
Proof.
  revert st. induction trace as [|line trace IH]; intros st H; simpl in H.
  - inversion H. apply steps_refl.
  - apply bind_Ok in H as (st1 & H1 & H2).
    eapply steps_trans; [eapply replayLine_steps, H1 | apply IH, H2].
Qed.

Lemma simulate_reachable trace st :
  simulate s b E trace = Ok st -> reachable s b E st.
Proof.
  unfold simulate. intros H. apply bind_Ok in H as (c & Hc & H).
  exists c. split; [exact Hc | eapply replayTrace_steps, H].
Qed.

(** Every completed call counts one hit or one miss. *)
Lemma accessData_total st addr st' :
  accessData s b E st addr = Ok st' ->
  hit_count st' + miss_count st' = hit_count st + miss_count st + 1.
Proof.
  intros H. apply accessData_access, access_counts in H. lia.
Qed.

Lemma replayLine_total st line st' :
  replayLine s b E st line = Ok st' ->
  hit_count st' + miss_count st' =
  hit_count st + miss_count st + accesses_of line.
Proof.
  intros H. apply replayLine_cases in H
    as [[-> ->]|[[-> H]|(-> & st1 & H1 & H2)]].
  - lia.
  - apply accessData_total in H. lia.
  - apply accessData_total in H1, H2. lia.
Qed.

Lemma replayTrace_total trace st st' :
  replayTrace s b E trace st = Ok st' ->
  hit_count st' + miss_count st' =
  hit_count st + miss_count st + accesses trace.
Proof.
  revert st. induction trace as [|line trace IH]; intros st H; simpl in H |- *.
  - inversion H. lia.
  - apply bind_Ok in H as (st1 & H1 & H2).
    apply replayLine_total in H1. apply IH in H2. lia.
Qed.

Lemma steps_evictions st st' :
  steps s b E st st' ->
  eviction_count st' - eviction_count st <= miss_count st' - miss_count st.
Proof.
  intros H. induction H as [st|st st' st'' addr _ IH Hacc].
  - lia.
  - apply accessData_access, access_counts in Hacc. lia.
Qed.

End Counters.

(** ** Calls that are sure to complete *)

Section Defined.

Variables s b E : Z.
Hypothesis Hs : 0 <= s <= 30.
Hypothesis Hb : 0 <= b.
Hypothesis Hsb : s + b <= 63.
Hypothesis HE : 1 <= E.

Lemma target_set_defined (c : cache_t) addr :
  wf_cache s E c ->
  exists ts set,
    targSet s b addr = Ok ts /\ index c ts = Ok set /\
    c !! Z.to_nat ts = Some set /\ length set = Z.to_nat E.
Proof.
  intros [Hlen Hsets].
  pose proof (targSet_exact s b addr ltac:(lia) Hb Hsb) as Hts.
  pose proof (targSet_range s b addr _ ltac:(lia) Hb Hsb Hts) as Hr.
  set (ts := Z.land (Z.shiftr addr b) (2 ^ s - 1)) in *.
  destruct (lookup_lt_is_Some_2 c (Z.to_nat ts)) as [set Hset]; [lia|].
  exists ts, set. split; [exact Hts|]. split; [apply index_Ok; split; [lia | exact Hset]|].
  split; [exact Hset | apply (Hsets _ _ Hset)].
Qed.

(** With fewer than 5000 calls so far every counter is below the
    sentinel, and the next call completes. *)
Lemma accessData_defined n st addr :
  wf_cache s E (cache st) -> bounded n st -> n < 5000 ->
  exists st', accessData s b E st addr = Ok st' /\ bounded (n + 1) st'.
Proof.
  intros Hwf (Hh & Hm & He & Hn & Hc) Hlt.
  destruct (target_set_defined (cache st) addr Hwf) as (ts & set & Hts & Hidx & Hset & Hlen).
  pose proof (targTag_exact s b addr ltac:(lia) Hb Hsb) as Htt.
  set (tt := Z.shiftr addr (s + b)) in *.
  destruct (scan_counters_defined set (Z.to_nat E) 0 5000 0 (-1))
    as ([[mn mx] mi] & Hscan); [lia | lia |].
  pose proof (scan_counters_Ok set (Z.to_nat E) 0 5000 0 (-1) mn mx mi ltac:(lia) Hscan)
    as ((Hx0 & _ & Hxex) & (Hnle & Hnex)).
  assert (Hmx : 0 <= mx <= n).
  { split; [lia|]. destruct Hxex as [->|(k & line & _ & Hk & <-)]; [lia|].
    eapply Hc; eassumption. }
  assert (Hnew : forall j line',
    counter line' <= n + 1 ->
    forall i set' k line,
      <[Z.to_nat ts := <[j := line']> set]> (cache st) !! i = Some set' ->
      set' !! k = Some line -> counter line <= n + 1).
  { intros j line' Hle i set' k line Hi Hk.
    apply list_lookup_insert_Some in Hi as [(_ & <- & _)|[_ Hi]].
    - apply list_lookup_insert_Some in Hk as [(_ & <- & _)|[_ Hk]]; [exact Hle|].
      specialize (Hc _ _ _ _ Hset Hk). lia.
    - specialize (Hc _ _ _ _ Hi Hk). lia. }
  unfold INT_MIN, INT_MAX in *.
  destruct (find_line_defined set (is_hit tt) (Z.to_nat E) 0) as ([i|] & Hfind);
    [lia | lia | |].
  - destruct (find_line_Some set _ _ 0 i ltac:(lia) Hfind) as (Hi & (line & Hline & _) & _).
    eexists. split.
    + apply accessData_access. eapply access_hit; try eassumption.
      * apply index_Ok. split; [lia | exact Hline].
      * unfold INT_MIN, INT_MAX. lia.
      * unfold INT_MIN, INT_MAX. lia.
      * reflexivity.
    + unfold bounded. simpl. split; [lia|]. split; [lia|]. split; [lia|].
        split; [lia|]. apply Hnew. simpl. lia.
  - destruct (find_line_defined set is_empty (Z.to_nat E) 0) as ([k|] & Hempty);
      [lia | lia | |].
    + destruct (find_line_Some set _ _ 0 k ltac:(lia) Hempty)
        as (Hk & (line & Hline & _) & _).
      eexists. split.
      * apply accessData_access. eapply access_cold; try eassumption.
        -- unfold INT_MIN, INT_MAX. lia.
        -- apply index_Ok. split; [lia | exact Hline].
        -- unfold INT_MIN, INT_MAX. lia.
        -- reflexivity.
      * unfold bounded. simpl. split; [lia|]. split; [lia|]. split; [lia|].
        split; [lia|]. apply Hnew. simpl. lia.
    + destruct (lookup_lt_is_Some_2 set O) as [l0 Hl0]; [lia|].
      pose proof (Hc _ _ _ _ Hset Hl0) as Hc0.
      pose proof (Hnle O l0 ltac:(lia) Hl0) as Hmn.
      destruct Hnex as [[-> _]|(_ & Hmi & line & Hline & _)]; [lia|].
      eexists. split.
      * apply accessData_access. eapply access_evict; try eassumption.
        -- unfold INT_MIN, INT_MAX. lia.
        -- unfold INT_MIN, INT_MAX. lia.
        -- unfold INT_MIN, INT_MAX. lia.
        -- apply index_Ok. split; [lia | exact Hline].
        -- reflexivity.
      * unfold bounded. simpl. split; [lia|]. split; [lia|]. split; [lia|].
        split; [lia|]. apply Hnew. simpl. lia.
Qed.

Lemma replayLine_defined n st line :
  wf_cache s E (cache st) -> bounded n st -> n + accesses_of line <= 5000 ->
  exists st', replayLine s b E st line = Ok st' /\
              wf_cache s E (cache st') /\ bounded (n + accesses_of line) st'.
Proof.
  intros Hwf Hbnd Hn. destruct line as [op addr].
  unfold replayLine, accesses_of in *.
  destruct (Ascii.eqb op "L"); [|destruct (Ascii.eqb op "S"); [|destruct (Ascii.eqb op "M")]].
  1, 2: destruct (accessData_defined n st addr Hwf Hbnd ltac:(lia)) as (st' & H & Hb');
    exists st'; split; [exact H|]; split; [|exact Hb'];
    eapply access_wf; [exact Hwf | apply accessData_access, H].
  - destruct (accessData_defined n st addr Hwf Hbnd ltac:(lia)) as (st1 & H1 & Hb1).
    assert (Hwf1 : wf_cache s E (cache st1))
      by (eapply access_wf; [exact Hwf | apply accessData_access, H1]).
    destruct (accessData_defined (n + 1) st1 addr Hwf1 Hb1 ltac:(lia)) as (st2 & H2 & Hb2).
    exists st2. split; [rewrite H1; simpl; exact H2|]. split.
    + eapply access_wf; [exact Hwf1 | apply accessData_access, H2].
    + replace (n + 2) with (n + 1 + 1) by lia. exact Hb2.
  - exists st. split; [reflexivity|]. split; [exact Hwf|].
    replace (n + 0) with n by lia. exact Hbnd.
Qed.

Lemma accesses_of_nonneg line : 0 <= accesses_of line.
Proof.
  destruct line as [op addr]. unfold accesses_of.
  repeat match goal with |- context [Ascii.eqb ?x ?y] => destruct (Ascii.eqb x y) end; lia.
Qed.

Lemma accesses_nonneg trace : 0 <= accesses trace.
Proof.
  induction trace as [|line trace IH]; simpl; [lia|].
  pose proof (accesses_of_nonneg line). lia.
Qed.

Lemma replayTrace_defined trace n st :
  wf_cache s E (cache st) -> bounded n st -> n + accesses trace <= 5000 ->
  exists st', replayTrace s b E trace st = Ok st'.
Proof.
  revert n st. induction trace as [|line trace IH]; intros n st Hwf Hbnd Hn; simpl in *.
  - eauto.
  - pose proof (accesses_of_nonneg line). pose proof (accesses_nonneg trace).
    destruct (replayLine_defined n st line Hwf Hbnd ltac:(lia)) as (st1 & H1 & Hwf1 & Hb1).
    rewrite H1. simpl. apply (IH (n + accesses_of line) st1 Hwf1 Hb1). lia.
Qed.

Lemma simulate_defined trace :
  accesses trace <= 5000 -> exists st, simulate s b E trace = Ok st.
Proof.
  intros Hn. unfold simulate.
  set (c := replicate (Z.to_nat (2 ^ s)) (replicate (Z.to_nat E) (Line "0" 0 0))).
  assert (Hc : initCache s E = Ok c) by (apply initCache_Ok; split; [lia | reflexivity]).
  rewrite Hc. simpl. apply (replayTrace_defined trace 0).
  - apply initCache_wf, Hc.
  - unfold bounded. simpl. split; [lia|]. split; [lia|]. split; [lia|].
    split; [lia|]. intros i set k line Hi Hk.
    apply lookup_replicate in Hi as [-> _]. apply lookup_replicate in Hk as [-> _].
    simpl. lia.
  - lia.
Qed.

End Defined.

(** * Properties of the access engine *)

(** ** Counting *)

(** C3. Every [L] or [S] line of the trace is one [accessData] call and
    every [M] line is two consecutive calls at the same address; a call
    that completes adds one to exactly one of [hit_count] and
    [miss_count]; hence after a whole trace has been replayed from the
    initial state [hit_count + miss_count] is the number of expanded
    accesses. A run of at most 5000 accesses on an allocatable geometry
    does complete. *)
Theorem hits_plus_misses (s b E : Z) (trace : list trace_line) :
  (forall st addr,
     replayLine s b E st ("L"%char, addr) = accessData s b E st addr /\
     replayLine s b E st ("S"%char, addr) = accessData s b E st addr /\
     replayLine s b E st ("M"%char, addr) =
       (st1 ← accessData s b E st addr; accessData s b E st1 addr)) /\
  (forall st addr st',
     accessData s b E st addr = Ok st' ->
     (hit_count st' = hit_count st + 1 /\ miss_count st' = miss_count st) \/
     (hit_count st' = hit_count st /\ miss_count st' = miss_count st + 1)) /\
  (forall st,
     simulate s b E trace = Ok st ->
     hit_count st + miss_count st = accesses trace) /\
  (0 <= s <= 30 -> 0 <= b -> s + b <= 63 -> 1 <= E ->
   accesses trace <= 5000 ->
   exists st, simulate s b E trace = Ok st).
Proof.
  split; [|split; [|split]].
  - intros st addr. repeat split; reflexivity.
  - intros st addr st' H. apply accessData_access, access_counts in H. lia.
  - intros st H. unfold simulate in H. apply bind_Ok in H as (c & _ & H).
    apply replayTrace_total in H. simpl in H. lia.
  - intros Hs Hb Hsb HE Hn. apply simulate_defined; assumption.
Qed.

Lemma hits_plus_misses_witness :
  exists st,
    simulate 1 1 2 [("L"%char, 0); ("M"%char, 4); ("I"%char, 8); ("S"%char, 0)] = Ok st /\
    hit_count st + miss_count st = 4.
Proof.
  destruct (proj2 (proj2 (proj2
    (hits_plus_misses 1 1 2
       [("L"%char, 0); ("M"%char, 4); ("I"%char, 8); ("S"%char, 0)])))
    ltac:(lia) ltac:(lia) ltac:(lia) ltac:(lia) ltac:(vm_compute; discriminate))
    as [st Hst].
  exists st. split; [exact Hst|].
  apply (proj1 (proj2 (proj2
    (hits_plus_misses 1 1 2
       [("L"%char, 0); ("M"%char, 4); ("I"%char, 8); ("S"%char, 0)]))) st Hst).
Defined.

(** C4. [eviction_count <= miss_count] in every reachable state: it holds
    in the initial state, every completed call preserves it, and a call
    that adds to [eviction_count] also adds to [miss_count]. *)
Theorem evictions_le_misses (s b E : Z) (st : sim) :
  reachable s b E st ->
  eviction_count st <= miss_count st /\
  (forall c, eviction_count (Sim c 0 0 0) <= miss_count (Sim c 0 0 0)) /\
  (forall addr st',
     accessData s b E st addr = Ok st' ->
     eviction_count st' <= miss_count st' /\
     (eviction_count st' = eviction_count st \/
      eviction_count st' = eviction_count st + 1 /\
      miss_count st' = miss_count st + 1)).
Proof.
  intros (c & _ & Hsteps).
  assert (Hle : eviction_count st <= miss_count st)
    by (apply steps_evictions in Hsteps; simpl in Hsteps; lia).
  split; [exact Hle|]. split; [intros; simpl; lia|].
  intros addr st' H. apply accessData_access, access_counts in H. lia.
Qed.

Lemma evictions_le_misses_witness :
  exists st,
    simulate 0 0 2 [("L"%char, 0); ("L"%char, 8); ("L"%char, 0); ("L"%char, 16)] = Ok st /\
    eviction_count st = 1 /\ eviction_count st <= miss_count st.
Proof.
  eexists. split; [vm_compute; reflexivity|]. split; [reflexivity|].
  apply (evictions_le_misses 0 0 2).
  apply (simulate_reachable 0 0 2
           [("L"%char, 0); ("L"%char, 8); ("L"%char, 0); ("L"%char, 16)]).
  vm_compute. reflexivity.
Defined.

(** ** Address decomposition *)

(** The set index cut with an exact mask. *)
Lemma targSet_of_mask (s b addr : Z) :
  0 <= s -> 0 <= b < 64 ->
  set_mask s b = Ok (2 ^ (s + b) - 2 ^ b) ->
  targSet s b addr = Ok (Z.land (Z.shiftr addr b) (2 ^ s - 1)).
Proof.
  intros Hs Hb Hmask. unfold targSet. rewrite Hmask. simpl.
  unfold shr_u64.
  replace ((0 <=? b) && (b <? 64)) with true by (symmetry; apply andb_true_iff; lia).
  f_equal. rewrite mask_shift by lia.
  rewrite Z.shiftr_land, Z.shiftr_shiftl_l, Z.sub_diag, Z.shiftl_0_r by lia.
  rewrite Z.ones_equiv. reflexivity.
Qed.

(** With 53 set-index bits the mask is still exact from [b = 2] on. *)
Lemma set_mask_53 (b : Z) :
  2 <= b <= 10 -> set_mask 53 b = Ok (2 ^ (53 + b) - 2 ^ b).
Proof.
  intros Hb.
  assert (Hcases : b = 2 \/ b = 3 \/ b = 4 \/ b = 5 \/ b = 6 \/ b = 7 \/
                   b = 8 \/ b = 9 \/ b = 10) by lia.
  destruct Hcases as [->|[->|[->|[->|[->|[->|[->|[->| ->]]]]]]]];
    vm_compute; reflexivity.
Qed.

(** No mask and no tag when the two fields do not fit the address. *)
Lemma set_mask_too_wide (s b : Z) :
  64 <= s + b -> exists u, set_mask s b = Fault u.
Proof.
  intros Hsb. unfold set_mask, int_add.
  destruct (in_int (s + b)); [|simpl; eauto].
  simpl. unfold u64_of_double. rewrite trunc_pow2. cbv zeta.
  assert (H : 2 ^ 64 <= 2 ^ (s + b)) by (apply Z.pow_le_mono_r; lia).
  replace (2 ^ (s + b) <? U64) with false
    by (symmetry; apply Z.ltb_ge; unfold U64; lia).
  rewrite andb_false_r. simpl. eauto.
Qed.

Lemma targTag_too_wide (s b addr : Z) :
  64 <= s + b -> exists u, targTag s b addr = Fault u.
Proof.
  intros Hsb. unfold targTag, int_add.
  destruct (in_int (s + b)); [|simpl; eauto].
  simpl. unfold shr_u64.
  replace (s + b <? 64) with false by (symmetry; apply Z.ltb_ge; lia).
  rewrite andb_false_r. eauto.
Qed.

(** C5, as stated, fails for a geometry whose set-index and offset bits
    do not fit in a 64-bit address. [s = 1], [b = 63], [E = 1] are all
    positive, [main] accepts them and [initCache] allocates the two
    sets; but [pow(2, s + b)] is [2^64], which is not a [mem_addr_t]
    value, and a [mem_addr_t] cannot be shifted by [s + b = 64]. For the
    address [2^63] the formulas give set index 1 and tag 0; [accessData]
    computes neither, and the run is undefined at its first access. *)
Lemma address_width_counterexample :
  0 < 1 /\ 0 < 63 /\ 0 < 1 /\ 0 <= 2 ^ 63 < 2 ^ 64 /\
  initCache 1 1 = Ok [[Line "0" 0 0]; [Line "0" 0 0]] /\
  Z.land (Z.shiftr (2 ^ 63) 63) (2 ^ 1 - 1) = 1 /\
  Z.shiftr (2 ^ 63) (1 + 63) = 0 /\
  targSet 1 63 (2 ^ 63) = Fault BadConversion /\
  targTag 1 63 (2 ^ 63) = Fault BadShift /\
  targSet 1 63 (2 ^ 63) <> Ok (Z.land (Z.shiftr (2 ^ 63) 63) (2 ^ 1 - 1)) /\
  targTag 1 63 (2 ^ 63) <> Ok (Z.shiftr (2 ^ 63) (1 + 63)) /\
  simulate 1 63 1 [("L"%char, 2 ^ 63)] = Fault BadConversion.
Proof.
  split; [lia|]. split; [lia|]. split; [lia|]. split; [lia|].
  split; [vm_compute; reflexivity|]. split; [vm_compute; reflexivity|].
  split; [vm_compute; reflexivity|]. split; [vm_compute; reflexivity|].
  split; [vm_compute; reflexivity|]. split; [vm_compute; discriminate|].
  split; [vm_compute; discriminate|]. vm_compute. reflexivity.
Qed.

(** C5, amended. For every 64-bit address and every geometry with
    positive [s] and [b]: when the two fields fit below the top of the
    address ([s + b <= 63]) and the set index has at most 53 bits (with
    [b >= 2] when it has exactly 53), [accessData] computes
    [targSet = (addr >> b) & (2^s - 1)] and [targTag = addr >> (s + b)],
    and the set index is below [2^s]; when [s + b >= 64] it computes
    neither, whatever the address. Every geometry a run can reach has
    [s <= 30] ([initCache] needs it), so for those [s + b <= 63] alone
    decides. *)
Theorem decomposition_exact (s b addr : Z) :
  1 <= s -> 1 <= b -> 0 <= addr < 2 ^ 64 ->
  (s + b <= 63 -> s <= 52 \/ (s = 53 /\ 2 <= b) ->
   targSet s b addr = Ok (Z.land (Z.shiftr addr b) (2 ^ s - 1)) /\
   targTag s b addr = Ok (Z.shiftr addr (s + b)) /\
   0 <= Z.land (Z.shiftr addr b) (2 ^ s - 1) < 2 ^ s) /\
  (64 <= s + b ->
   (exists u, targSet s b addr = Fault u) /\
   (exists u, targTag s b addr = Fault u)).
Proof.
  intros Hs Hb Haddr. split.
  - intros Hsb Hdom.
    assert (Hmask : set_mask s b = Ok (2 ^ (s + b) - 2 ^ b)).
    { destruct Hdom as [Hle|[-> Hb2]].
      - apply set_mask_exact; lia.
      - apply set_mask_53. lia. }
    split; [apply targSet_of_mask; [lia | lia | exact Hmask]|].
    split; [apply targTag_exact; lia|].
    replace (2 ^ s - 1) with (Z.ones s) by (rewrite Z.ones_equiv; lia).
    rewrite Z.land_ones by lia. apply Z.mod_pos_bound. lia.
  - intros Hwide. split.
    + destruct (set_mask_too_wide s b Hwide) as [u Hu].
      exists u. unfold targSet. rewrite Hu. reflexivity.
    + apply targTag_too_wide, Hwide.
Qed.

Lemma decomposition_exact_witness :
  (targSet 5 5 0x7ff0005c8 = Ok 14 /\
   targTag 5 5 0x7ff0005c8 = Ok 0x1ffc001 /\
   0 <= 14 < 32) /\
  (targSet 53 2 (2 ^ 64 - 1) = Ok (2 ^ 53 - 1) /\
   targTag 53 2 (2 ^ 64 - 1) = Ok 511 /\
   0 <= 2 ^ 53 - 1 < 2 ^ 53) /\
  ((exists u, targSet 30 40 0 = Fault u) /\
   (exists u, targTag 30 40 0 = Fault u)).
Proof.
  split; [|split].
  - apply (decomposition_exact 5 5 0x7ff0005c8); lia.
  - apply (decomposition_exact 53 2 (2 ^ 64 - 1)); lia.
  - apply (decomposition_exact 30 40 0); lia.
Defined.

(** ** Hits *)

Lemma line_at_update (c : cache_t) ts set i line' j k :
  c !! ts = Some set -> (i < length set)%nat ->
  line_at (<[ts := <[i := line']> set]> c) j k =
  if decide (j = ts /\ k = i) then Some line' else line_at c j k.
Proof.
  intros Hc Hi. unfold line_at. pose proof (lookup_lt_Some _ _ _ Hc) as Hts.
  destruct (decide (j = ts)) as [->|Hj].
  - rewrite list_lookup_insert_eq by exact Hts. simpl. rewrite Hc. simpl.
    destruct (decide (k = i)) as [->|Hk].
    + rewrite list_lookup_insert_eq by exact Hi.
      destruct (decide (ts = ts /\ i = i)) as [_|Hn]; [reflexivity | exfalso; auto].
    + rewrite list_lookup_insert_ne by auto.
      destruct (decide (ts = ts /\ k = i)) as [[_ ?]|_]; [contradiction | reflexivity].
  - rewrite list_lookup_insert_ne by auto.
    destruct (decide (j = ts /\ k = i)) as [[? _]|_]; [contradiction | reflexivity].
Qed.

Section Hits.

Variables s b E : Z.

(** A call on a resident tag is a hit on the first line holding it. *)
Lemma resident_hit st addr ts tt set st' :
  targSet s b addr = Ok ts ->
  targTag s b addr = Ok tt ->
  index (cache st) ts = Ok set ->
  length set = Z.to_nat E ->
  resident tt set ->
  accessData s b E st addr = Ok st' ->
  exists i line,
    set !! i = Some line /\ valid line = "1"%char /\ tag line = tt /\
    (forall k l, (k < i)%nat -> set !! k = Some l ->
                 ~ (valid l = "1"%char /\ tag l = tt)) /\
    st' = Sim (<[Z.to_nat ts :=
                  <[i := Line (valid line) (tag line) (max_counter set + 1)]> set]>
                 (cache st))
              (miss_count st) (hit_count st + 1) (eviction_count st).
Proof.
  intros Hts Htt Hidx Hlen Hres H. apply accessData_access in H.
  destruct H
    as [ts' tt' set' mn mx mi i line Hset Htag Hidx' Hscan Hfind Hline Hhits Hstamp ->
       |ts' tt' set' mn mx mi k line Hset Htag Hidx' Hscan Hfind Hmisses Hempty Hline Hstamp ->
       |ts' tt' set' mn mx mi line Hset Htag Hidx' Hscan Hfind Hmisses Hempty Hev Hstamp Hline ->];
    rewrite Hts in Hset; inversion Hset; subst ts';
    rewrite Htt in Htag; inversion Htag; subst tt';
    rewrite Hidx in Hidx'; inversion Hidx'; subst set'.
  - destruct (find_line_Some set _ _ 0 i ltac:(lia) Hfind)
      as (Hi & (line' & Hl' & Hhit) & Hfirst).
    apply index_Ok in Hline as [_ Hline]. rewrite Hline in Hl'. inversion Hl'; subst line'.
    apply is_hit_true in Hhit as [Hv Ht].
    rewrite <- Hlen in Hscan. apply scan_counters_max in Hscan. subst mx.
    exists (Z.to_nat i), line. split; [exact Hline|]. split; [exact Hv|].
    split; [exact Ht|]. split; [|reflexivity].
    intros k l Hk Hkl. apply is_hit_false. apply (Hfirst k l); [lia | exact Hkl].
  - exfalso. eapply find_hit_None; eassumption.
  - exfalso. eapply find_hit_None; eassumption.
Qed.

Lemma resident_hit_again st addr ts tt set st' :
  targSet s b addr = Ok ts ->
  targTag s b addr = Ok tt ->
  index (cache st) ts = Ok set ->
  length set = Z.to_nat E ->
  resident tt set ->
  accessData s b E st addr = Ok st' ->
  exists set',
    index (cache st') ts = Ok set' /\ length set' = Z.to_nat E /\
    resident tt set'.
Proof.
  intros Hts Htt Hidx Hlen Hres H.
  destruct (resident_hit st addr ts tt set st' Hts Htt Hidx Hlen Hres H)
    as (i & line & Hi & Hv & Ht & _ & ->).
  apply index_Ok in Hidx as [H0 Hidx]. simpl.
  eexists. split; [|split].
  - apply index_Ok. split; [exact H0|]. apply list_lookup_insert_eq.
    eapply lookup_lt_Some, Hidx.
  - rewrite length_insert. exact Hlen.
  - exists i. eexists. split; [|split].
    + apply list_lookup_insert_eq. eapply lookup_lt_Some, Hi.
    + exact Hv.
    + exact Ht.
Qed.

(** Such a call completes unless an [int] would overflow. *)
Lemma resident_hit_defined st addr ts tt set :
  targSet s b addr = Ok ts ->
  targTag s b addr = Ok tt ->
  index (cache st) ts = Ok set ->
  length set = Z.to_nat E ->
  resident tt set ->
  INT_MIN <= hit_count st + 1 <= INT_MAX ->
  max_counter set + 1 <= INT_MAX ->
  exists st', accessData s b E st addr = Ok st'.
Proof.
  intros Hts Htt Hidx Hlen Hres Hh Hm.
  destruct (scan_counters_defined set (Z.to_nat E) 0 5000 0 (-1))
    as ([[mn mx] mi] & Hscan); [lia | lia |].
  assert (Hmx : mx = max_counter set).
  { rewrite <- Hlen in Hscan. apply scan_counters_max in Hscan. exact Hscan. }
  pose proof (proj1 (max_counter_spec set)) as H0.
  destruct (find_line_defined set (is_hit tt) (Z.to_nat E) 0) as ([i|] & Hfind);
    [lia | lia | |].
  - destruct (find_line_Some set _ _ 0 i ltac:(lia) Hfind) as (Hi & (line & Hline & _) & _).
    eexists. apply accessData_access. eapply access_hit; try eassumption.
    + apply index_Ok. split; [lia | exact Hline].
    + unfold INT_MIN in *. lia.
    + reflexivity.
  - exfalso. eapply find_hit_None; eassumption.
Qed.

Lemma repeated_hits n st addr ts tt set st' :
  targSet s b addr = Ok ts ->
  targTag s b addr = Ok tt ->
  index (cache st) ts = Ok set ->
  length set = Z.to_nat E ->
  resident tt set ->
  replayTrace s b E (replicate n ("L"%char, addr)) st = Ok st' ->
  miss_count st' = miss_count st /\
  eviction_count st' = eviction_count st /\
  hit_count st' = hit_count st + Z.of_nat n.
Proof.
  intros Hts Htt. revert st set.
  induction n as [|n IH]; intros st set Hidx Hlen Hres H; simpl in H.
  - inversion H. lia.
  - apply bind_Ok in H as (st1 & H1 & H2).
    change (replayLine s b E st ("L"%char, addr)) with (accessData s b E st addr) in H1.
    destruct (resident_hit_again st addr ts tt set st1 Hts Htt Hidx Hlen Hres H1)
      as (set1 & Hidx1 & Hlen1 & Hres1).
    destruct (resident_hit st addr ts tt set st1 Hts Htt Hidx Hlen Hres H1)
      as (i & line & _ & _ & _ & _ & Hst1).
    specialize (IH st1 set1 Hidx1 Hlen1 Hres1 H2).
    rewrite Hst1 in IH. simpl in IH. lia.
Qed.

End Hits.

(** C7. A call whose tag is resident in its set adds one to [hit_count]
    and leaves [miss_count] and [eviction_count] alone; in the cache it
    only sets the counter of the first line holding the tag to
    [max + 1]: that line keeps its valid flag and tag and every other
    line keeps all its fields. Repeating the access any number of times
    never changes [miss_count] or [eviction_count]. The call completes
    as long as [hit_count + 1] and [max + 1] fit in an [int]. *)
Theorem hit_frame (s b E : Z) (st : sim) (addr ts tt : Z) (set : cache_set_t) :
  targSet s b addr = Ok ts ->
  targTag s b addr = Ok tt ->
  index (cache st) ts = Ok set ->
  length set = Z.to_nat E ->
  resident tt set ->
  (INT_MIN <= hit_count st + 1 <= INT_MAX -> max_counter set + 1 <= INT_MAX ->
   exists st', accessData s b E st addr = Ok st') /\
  (forall st',
     accessData s b E st addr = Ok st' ->
     (hit_count st' = hit_count st + 1 /\
      miss_count st' = miss_count st /\
      eviction_count st' = eviction_count st) /\
     exists i line,
       line_at (cache st) (Z.to_nat ts) i = Some line /\
       valid line = "1"%char /\ tag line = tt /\
       line_at (cache st') (Z.to_nat ts) i =
         Some (Line (valid line) (tag line) (max_counter set + 1)) /\
       forall j k, ~ (j = Z.to_nat ts /\ k = i) ->
                   line_at (cache st') j k = line_at (cache st) j k) /\
  (forall n st'',
     replayTrace s b E (replicate n ("L"%char, addr)) st = Ok st'' ->
     miss_count st'' = miss_count st /\
     eviction_count st'' = eviction_count st /\
     hit_count st'' = hit_count st + Z.of_nat n).
Proof.
  intros Hts Htt Hidx Hlen Hres. split; [|split].
  - intros Hh Hm. apply (resident_hit_defined s b E st addr ts tt set); assumption.
  - intros st' H.
    destruct (resident_hit s b E st addr ts tt set st' Hts Htt Hidx Hlen Hres H)
      as (i & line & Hi & Hv & Ht & _ & ->). simpl.
    split; [repeat split|].
    apply index_Ok in Hidx as [_ Hidx].
    pose proof (lookup_lt_Some _ _ _ Hi) as Hlt.
    exists i, line. split; [|split; [exact Hv|split; [exact Ht|split]]].
    + unfold line_at. rewrite Hidx. exact Hi.
    + rewrite (line_at_update _ _ set) by assumption.
      destruct (decide (Z.to_nat ts = Z.to_nat ts /\ i = i)) as [_|Hn];
        [reflexivity | exfalso; auto].
    + intros j k Hjk. rewrite (line_at_update _ _ set) by assumption.
      destruct (decide (j = Z.to_nat ts /\ k = i)); [contradiction | reflexivity].
  - intros n st''. apply (repeated_hits s b E n st addr ts tt set); assumption.
Qed.

Lemma hit_frame_witness :
  let st := Sim [[Line "1" 0 7; Line "1" 5 3]; [Line "0" 0 0; Line "0" 0 0]] 2 9 0 in
  let st' := Sim [[Line "1" 0 7; Line "1" 5 8]; [Line "0" 0 0; Line "0" 0 0]] 2 10 0 in
  accessData 1 1 2 st 20 = Ok st' /\
  hit_count st' = hit_count st + 1 /\
  miss_count st' = miss_count st /\
  eviction_count st' = eviction_count st.
Proof.
  intros st st'. split; [vm_compute; reflexivity|].
  apply (proj1 (proj2 (hit_frame 1 1 2 st 20 0 5 [Line "1" 0 7; Line "1" 5 3]
           ltac:(vm_compute; reflexivity) ltac:(vm_compute; reflexivity)
           ltac:(vm_compute; reflexivity) ltac:(reflexivity)
           ltac:(exists 1%nat, (Line "1" 5 3); repeat split))) st').
  vm_compute. reflexivity.
Defined.

(** ** Tags within a set *)

Section Tags.

Variables s b E : Z.

(** Without a valid line holding the tag, a call is a miss. *)
Lemma not_resident_miss st addr ts tt set st' :
  targSet s b addr = Ok ts ->
  targTag s b addr = Ok tt ->
  index (cache st) ts = Ok set ->
  ~ resident tt set ->
  accessData s b E st addr = Ok st' ->
  hit_count st' = hit_count st /\ miss_count st' = miss_count st + 1.
Proof.
  intros Hts Htt Hidx Hnr H. apply accessData_access in H.
  destruct H
    as [ts' tt' set' mn mx mi i line Hset Htag Hidx' Hscan Hfind Hline Hhits Hstamp ->
       |ts' tt' set' mn mx mi k line Hset Htag Hidx' Hscan Hfind Hmisses Hempty Hline Hstamp ->
       |ts' tt' set' mn mx mi line Hset Htag Hidx' Hscan Hfind Hmisses Hempty Hev Hstamp Hline ->];
    simpl; try (split; reflexivity).
  exfalso. apply Hnr.
  rewrite Hts in Hset; inversion Hset; subst ts'.
  rewrite Htt in Htag; inversion Htag; subst tt'.
  rewrite Hidx in Hidx'; inversion Hidx'; subst set'.
  destruct (find_line_Some set _ _ 0 i ltac:(lia) Hfind) as (_ & (l & Hl & Hhit) & _).
  apply is_hit_true in Hhit as [Hv Ht]. exists (Z.to_nat i), l. auto.
Qed.

Lemma initCache_line c i k line :
  initCache s E = Ok c -> line_at c i k = Some line -> line = Line "0" 0 0.
Proof.
  intros Hc H. apply initCache_Ok in Hc as [_ ->]. unfold line_at in H.
  destruct (replicate (Z.to_nat (2 ^ s)) (replicate (Z.to_nat E) (Line "0" 0 0)) !! i)
    as [set|] eqn:Hi; [|discriminate].
  apply lookup_replicate in Hi as [-> _]. simpl in H.
  apply lookup_replicate in H as [-> _]. reflexivity.
Qed.

(** A call that counts a miss has scanned the whole set without finding
    the tag in a valid line. *)
Lemma miss_not_resident st addr ts tt set st' :
  wf_cache s E (cache st) ->
  targSet s b addr = Ok ts ->
  targTag s b addr = Ok tt ->
  index (cache st) ts = Ok set ->
  accessData s b E st addr = Ok st' ->
  miss_count st' = miss_count st + 1 ->
  ~ resident tt set.
Proof.
  intros Hwf Hts Htt Hidx H Hmiss.
  pose proof Hidx as Hidx0. apply index_Ok in Hidx0 as [_ Hset0].
  destruct (proj2 Hwf _ _ Hset0) as (Hlen & _ & _).
  apply accessData_access in H.
  destruct H
    as [ts' tt' set' mn mx mi i line Hset Htag Hidx' Hscan Hfind Hline Hhits Hstamp ->
       |ts' tt' set' mn mx mi k line Hset Htag Hidx' Hscan Hfind Hmisses Hempty Hline Hstamp ->
       |ts' tt' set' mn mx mi line Hset Htag Hidx' Hscan Hfind Hmisses Hempty Hev Hstamp Hline ->];
    simpl in Hmiss; try lia;
    rewrite Hts in Hset; inversion Hset; subst ts';
    rewrite Htt in Htag; inversion Htag; subst tt';
    rewrite Hidx in Hidx'; inversion Hidx'; subst set';
    eapply find_hit_None; eassumption.
Qed.

End Tags.

(** C10. In the initial cache every line is invalid; in every reachable
    state no two valid lines of a set hold the same tag, so at most one
    line can match in the hit loop; a call that counts a miss, the only
    kind that installs a tag, has found the tag in no valid line of the
    set; and a line that is not valid never gives a hit, whatever its tag
    field: a call whose tag is held by no valid line of its set is a
    miss, in particular every first access to the initial cache (tag [0]
    included). *)
Theorem tags_unique (s b E : Z) :
  (forall c i k line,
     initCache s E = Ok c -> line_at c i k = Some line ->
     valid line = "0"%char /\ tag line = 0) /\
  (forall st i set,
     reachable s b E st -> cache st !! i = Some set -> unique_tags set) /\
  (forall st addr ts tt set st',
     reachable s b E st ->
     targSet s b addr = Ok ts -> targTag s b addr = Ok tt ->
     index (cache st) ts = Ok set ->
     accessData s b E st addr = Ok st' ->
     miss_count st' = miss_count st + 1 ->
     ~ resident tt set) /\
  (forall st addr ts tt set st',
     targSet s b addr = Ok ts -> targTag s b addr = Ok tt ->
     index (cache st) ts = Ok set ->
     (forall k line, set !! k = Some line -> tag line = tt ->
                     valid line <> "1"%char) ->
     accessData s b E st addr = Ok st' ->
     hit_count st' = hit_count st /\ miss_count st' = miss_count st + 1) /\
  (forall c addr st',
     initCache s E = Ok c ->
     accessData s b E (Sim c 0 0 0) addr = Ok st' ->
     hit_count st' = 0 /\ miss_count st' = 1).
Proof.
  split; [|split; [|split; [|split]]].
  - intros c i k line Hc H. rewrite (initCache_line s E c i k line Hc H).
    split; reflexivity.
  - intros st i set Hr Hi. apply reachable_wf in Hr as [_ Hsets].
    apply (Hsets i set Hi).
  - intros st addr ts tt set st' Hr Hts Htt Hidx H Hmiss.
    apply (miss_not_resident s b E st addr ts tt set st'); try assumption.
    apply (reachable_wf s b E st Hr).
  - intros st addr ts tt set st' Hts Htt Hidx Hinv H.
    apply (not_resident_miss s b E st addr ts tt set st' Hts Htt Hidx); [|exact H].
    intros (k & line & Hk & Hv & Ht). apply (Hinv k line Hk Ht Hv).
  - intros c addr st' Hc H.
    pose proof H as H'. apply accessData_access in H'.
    assert (Hctx : exists ts tt set,
      targSet s b addr = Ok ts /\ targTag s b addr = Ok tt /\
      index c ts = Ok set).
    { destruct H'; simpl in *; eauto 10. }
    destruct Hctx as (ts & tt & set & Hts & Htt & Hidx).
    change 0 with (hit_count (Sim c 0 0 0)) at 1.
    change 1 with (miss_count (Sim c 0 0 0) + 1).
    apply (not_resident_miss s b E (Sim c 0 0 0) addr ts tt set st' Hts Htt Hidx); [|exact H].
    intros (k & line & Hk & Hv & _).
    apply index_Ok in Hidx as [_ Hidx].
    assert (Hl : line_at c (Z.to_nat ts) k = Some line)
      by (unfold line_at; rewrite Hidx; exact Hk).
    rewrite (initCache_line s E c _ _ line Hc Hl) in Hv. discriminate.
Qed.

Lemma tags_unique_witness :
  exists st,
    simulate 1 1 1 [("L"%char, 0)] = Ok st /\ hit_count st = 0 /\ miss_count st = 1.
Proof.
  exists (Sim [[Line "1" 0 1]; [Line "0" 0 0]] 1 0 0).
  split; [vm_compute; reflexivity|].
  apply (proj2 (proj2 (proj2 (proj2 (tags_unique 1 1 1))))
           [[Line "0" 0 0]; [Line "0" 0 0]] 0); vm_compute; reflexivity.
Defined.

(** ** Full sets *)

Section Full.

Variables s b E : Z.

Lemma access_full st addr st' i set :
  access s b E st addr st' ->
  cache st !! i = Some set -> length set = Z.to_nat E -> full set ->
  exists set', cache st' !! i = Some set' /\ length set' = Z.to_nat E /\ full set'.
Proof.
  intros Hacc Hi Hlen Hfull.
  assert (Hupd : forall ts set0 j line line',
    cache st !! Z.to_nat ts = Some set0 -> set0 !! j = Some line ->
    valid line' = valid line \/ valid line' = "1"%char ->
    exists set',
      <[Z.to_nat ts := <[j := line']> set0]> (cache st) !! i = Some set' /\
      length set' = Z.to_nat E /\ full set').
  { intros ts set0 j line line' Hts Hj Hv.
    destruct (decide (i = Z.to_nat ts)) as [->|Hne].
    - rewrite Hi in Hts. inversion Hts; subst set0.
      exists (<[j := line']> set). split; [|split].
      + apply list_lookup_insert_eq. eapply lookup_lt_Some, Hi.
      + rewrite length_insert. exact Hlen.
      + intros k l Hk.
        apply list_lookup_insert_Some in Hk as [(_ & <- & _)|[_ Hk]].
        * destruct Hv as [Hv|Hv]; [rewrite Hv; apply (Hfull j line Hj) | exact Hv].
        * apply (Hfull k l Hk).
    - exists set. split; [|split; assumption].
      rewrite list_lookup_insert_ne by auto. exact Hi. }
  destruct Hacc
    as [ts tt set0 mn mx mi j line Hset Htag Hidx Hscan Hfind Hline Hhits Hstamp ->
       |ts tt set0 mn mx mi j line Hset Htag Hidx Hscan Hfind Hmisses Hempty Hline Hstamp ->
       |ts tt set0 mn mx mi line Hset Htag Hidx Hscan Hfind Hmisses Hempty Hev Hstamp Hline ->];
    simpl; apply index_Ok in Hidx as [_ Hidx]; apply index_Ok in Hline as [_ Hline];
    eapply Hupd; try eassumption; simpl; auto.
Qed.

Lemma steps_full st st' i set :
  steps s b E st st' ->
  cache st !! i = Some set -> length set = Z.to_nat E -> full set ->
  exists set', cache st' !! i = Some set' /\ length set' = Z.to_nat E /\ full set'.
Proof.
  intros Hsteps Hi Hlen Hfull.
  induction Hsteps as [st|st st1 st2 addr _ IH Hacc].
  - exists set. auto.
  - destruct (IH Hi) as (set1 & Hi1 & Hlen1 & Hfull1).
    apply accessData_access in Hacc.
    apply (access_full st1 addr st2 i set1 Hacc Hi1 Hlen1 Hfull1).
Qed.

(** On a full set a call ends in the hit branch or in the eviction
    branch, never in the cold-miss branch. *)
Lemma full_miss_evicts st addr ts set st' :
  targSet s b addr = Ok ts ->
  index (cache st) ts = Ok set -> full set ->
  accessData s b E st addr = Ok st' ->
  miss_count st' = miss_count st + 1 ->
  eviction_count st' = eviction_count st + 1.
Proof.
  intros Hts Hidx Hfull H Hmiss. apply accessData_access in H.
  destruct H
    as [ts' tt set' mn mx mi i line Hset Htag Hidx' Hscan Hfind Hline Hhits Hstamp ->
       |ts' tt set' mn mx mi k line Hset Htag Hidx' Hscan Hfind Hmisses Hempty Hline Hstamp ->
       |ts' tt set' mn mx mi line Hset Htag Hidx' Hscan Hfind Hmisses Hempty Hev Hstamp Hline ->];
    simpl in *; try lia.
  exfalso.
  rewrite Hts in Hset; inversion Hset; subst ts'.
  rewrite Hidx in Hidx'; inversion Hidx'; subst set'.
  destruct (find_line_Some set _ _ 0 k ltac:(lia) Hempty) as (_ & (l & Hl & He) & _).
  apply is_empty_true in He. rewrite (Hfull _ _ Hl) in He. discriminate.
Qed.

(** On a single line the scan keeps the line as the minimum when its
    counter is below the sentinel. *)
Lemma scan_counters_single (line : cache_line_t) :
  counter line < 5000 ->
  scan_counters [line] (Z.to_nat 1) 0 5000 0 (-1) =
  Ok (counter line, Z.max 0 (counter line), 0).
Proof.
  intros Hlt. change (Z.to_nat 1) with 1%nat. unfold scan_counters.
  change (index [line] 0) with (Ok line). simpl.
  apply Z.ltb_lt in Hlt. rewrite Hlt.
  destruct (0 <? counter line) eqn:Hpos;
    [apply Z.ltb_lt in Hpos; rewrite Z.max_r by lia
    |apply Z.ltb_ge in Hpos; rewrite Z.max_l by lia];
    reflexivity.
Qed.

Lemma direct_mapped_defined st addr ts tt line :
  targSet s b addr = Ok ts ->
  targTag s b addr = Ok tt ->
  index (cache st) ts = Ok [line] ->
  valid line = "1"%char ->
  tag line <> tt ->
  counter line < 5000 ->
  INT_MIN <= miss_count st + 1 <= INT_MAX ->
  INT_MIN <= eviction_count st + 1 <= INT_MAX ->
  exists st', accessData s b 1 st addr = Ok st'.
Proof.
  intros Hts Htt Hidx Hv Ht Hc Hm He.
  eexists. apply accessData_access.
  eapply (access_evict s b 1 st addr _ ts tt [line]
            (counter line) (Z.max 0 (counter line)) 0 line);
    try eassumption; try reflexivity.
  - apply scan_counters_single, Hc.
  - change (Z.to_nat 1) with 1%nat. unfold find_line.
    change (index [line] 0) with (Ok line). simpl.
    unfold is_hit. rewrite Hv. simpl.
    destruct (tag line =? tt) eqn:Heq; [apply Z.eqb_eq in Heq; contradiction|].
    reflexivity.
  - change (Z.to_nat 1) with 1%nat. unfold find_line.
    change (index [line] 0) with (Ok line). simpl.
    unfold is_empty. rewrite Hv. reflexivity.
  - unfold INT_MIN, INT_MAX. lia.
Qed.

End Full.

(** C9. With [E = 1], a call whose tag differs from the tag of the valid
    line of its set finds neither a hit nor an empty line, so it runs the
    eviction branch; it completes when the counter of the line is below
    5000 and the counts fit in an [int], and when it completes both
    [miss_count] and [eviction_count] have grown by one. Once the line of a set is valid it
    stays valid, and from then on every miss in that set is counted as an
    eviction as well. *)
Theorem direct_mapped_conflict (s b : Z) (st : sim) (addr ts tt : Z)
    (line : cache_line_t) :
  targSet s b addr = Ok ts ->
  targTag s b addr = Ok tt ->
  index (cache st) ts = Ok [line] ->
  valid line = "1"%char ->
  tag line <> tt ->
  (find_line (is_hit tt) [line] (Z.to_nat 1) 0 = Ok None /\
   find_line is_empty [line] (Z.to_nat 1) 0 = Ok None) /\
  (counter line < 5000 ->
   INT_MIN <= miss_count st + 1 <= INT_MAX ->
   INT_MIN <= eviction_count st + 1 <= INT_MAX ->
   exists st', accessData s b 1 st addr = Ok st') /\
  (forall st',
     accessData s b 1 st addr = Ok st' ->
     miss_count st' = miss_count st + 1 /\
     eviction_count st' = eviction_count st + 1 /\
     hit_count st' = hit_count st) /\
  (forall st2,
     steps s b 1 st st2 ->
     exists line2,
       index (cache st2) ts = Ok [line2] /\ valid line2 = "1"%char /\
       forall addr2 st3,
         targSet s b addr2 = Ok ts ->
         accessData s b 1 st2 addr2 = Ok st3 ->
         miss_count st3 = miss_count st2 + 1 ->
         eviction_count st3 = eviction_count st2 + 1).
Proof.
  intros Hts Htt Hidx Hv Ht.
  assert (Hfull : full [line]).
  { intros [|k] l Hk; simpl in Hk; [|discriminate]. inversion Hk; subst. exact Hv. }
  split; [|split; [|split]].
  - simpl. unfold index. simpl. unfold is_hit, is_empty. rewrite Hv. simpl.
    destruct (tag line =? tt) eqn:Heq; [apply Z.eqb_eq in Heq; contradiction|].
    split; reflexivity.
  - intros Hc Hm He.
    apply (direct_mapped_defined s b st addr ts tt line); assumption.
  - intros st' H.
    assert (Hnr : ~ resident tt [line]).
    { intros ([|k] & l & Hk & _ & Hl); simpl in Hk; [|discriminate].
      inversion Hk; subst. contradiction. }
    destruct (not_resident_miss s b 1 st addr ts tt [line] st' Hts Htt Hidx Hnr H)
      as [Hh Hm].
    split; [exact Hm|]. split; [|exact Hh].
    apply (full_miss_evicts s b 1 st addr ts [line] st'); assumption.
  - intros st2 Hsteps. apply index_Ok in Hidx as [H0 Hidx].
    destruct (steps_full s b 1 st st2 _ [line] Hsteps Hidx eq_refl Hfull)
      as (set2 & Hi2 & Hlen2 & Hfull2).
    destruct set2 as [|line2 [|x set2]]; try discriminate.
    exists line2. split; [apply index_Ok; split; assumption|].
    split; [apply (Hfull2 O line2 eq_refl)|].
    intros addr2 st3 Hts2 H3 Hm.
    apply (full_miss_evicts s b 1 st2 addr2 ts [line2] st3); try assumption.
    apply index_Ok; split; assumption.
Qed.

Lemma direct_mapped_conflict_witness :
  let st := Sim [[Line "1" 0 1]; [Line "0" 0 0]] 1 0 0 in
  accessData 1 1 1 st 4 = Ok (Sim [[Line "1" 1 2]; [Line "0" 0 0]] 2 0 1) /\
  miss_count (Sim [[Line "1" 1 2]; [Line "0" 0 0]] 2 0 1) = miss_count st + 1 /\
  eviction_count (Sim [[Line "1" 1 2]; [Line "0" 0 0]] 2 0 1) = eviction_count st + 1 /\
  hit_count (Sim [[Line "1" 1 2]; [Line "0" 0 0]] 2 0 1) = hit_count st.
Proof.
  intros st. split; [vm_compute; reflexivity|].
  apply (proj1 (proj2 (proj2 (direct_mapped_conflict 1 1 st 4 0 1 (Line "1" 0 1)
           ltac:(vm_compute; reflexivity) ltac:(vm_compute; reflexivity)
           ltac:(vm_compute; reflexivity) ltac:(reflexivity)
           ltac:(simpl; lia))))).
  vm_compute. reflexivity.
Defined.

(** ** Least recently used *)

Lemma index_insert (c : cache_t) ts set set' :
  index c ts = Ok set -> index (<[Z.to_nat ts := set']> c) ts = Ok set'.
Proof.
  intros H. apply index_Ok in H as [H0 H]. apply index_Ok. split; [exact H0|].
  apply list_lookup_insert_eq. eapply lookup_lt_Some, H.
Qed.

Lemma find_line_pair test (l0 l1 : cache_line_t) :
  find_line test [l0; l1] (Z.to_nat 2) 0 =
  if test l0 then Ok (Some 0) else if test l1 then Ok (Some 1) else Ok None.
Proof. reflexivity. Qed.

(** C6. In a set of two lines that starts empty, the accesses A, B, A
    leave A in line 0 with counter 3 and B in line 1 with counter 2; the
    access C that follows is a miss that evicts B: line 1 receives C and
    line 0 still holds A. *)
Theorem lru_order (s b : Z) (st : sim) (a1 a2 a3 ts A B C : Z) :
  targSet s b a1 = Ok ts -> targSet s b a2 = Ok ts -> targSet s b a3 = Ok ts ->
  targTag s b a1 = Ok A -> targTag s b a2 = Ok B -> targTag s b a3 = Ok C ->
  A <> B -> A <> C -> B <> C ->
  index (cache st) ts = Ok [Line "0" 0 0; Line "0" 0 0] ->
  INT_MIN <= hit_count st + 1 <= INT_MAX ->
  INT_MIN <= miss_count st + 1 -> miss_count st + 3 <= INT_MAX ->
  INT_MIN <= eviction_count st + 1 <= INT_MAX ->
  exists st3 st4,
    replayTrace s b 2 [("L"%char, a1); ("L"%char, a2); ("L"%char, a1)] st = Ok st3 /\
    index (cache st3) ts = Ok [Line "1" A 3; Line "1" B 2] /\
    eviction_count st3 = eviction_count st /\
    accessData s b 2 st3 a3 = Ok st4 /\
    index (cache st4) ts = Ok [Line "1" A 3; Line "1" C 4] /\
    eviction_count st4 = eviction_count st + 1 /\
    miss_count st4 = miss_count st + 3 /\
    hit_count st4 = hit_count st + 1.
Proof.
  intros Hs1 Hs2 Hs3 Ht1 Ht2 Ht3 HAB HAC HBC Hidx Hh Hm Hm' He.
  unfold INT_MIN, INT_MAX in Hh, Hm, Hm', He.
  apply Z.eqb_neq in HAB, HAC, HBC.
  assert (HBA : (B =? A) = false) by (rewrite Z.eqb_sym; exact HAB).
  assert (HCA : (C =? A) = false) by (rewrite Z.eqb_sym; exact HAC).
  assert (HCB : (C =? B) = false) by (rewrite Z.eqb_sym; exact HBC).
  set (c0 := cache st) in *.
  set (c1 := <[Z.to_nat ts := [Line "1" A 1; Line "0" 0 0]]> c0).
  set (c2 := <[Z.to_nat ts := [Line "1" A 1; Line "1" B 2]]> c1).
  set (c3 := <[Z.to_nat ts := [Line "1" A 3; Line "1" B 2]]> c2).
  set (c4 := <[Z.to_nat ts := [Line "1" A 3; Line "1" C 4]]> c3).
  set (st1 := Sim c1 (miss_count st + 1) (hit_count st) (eviction_count st)).
  set (st2 := Sim c2 (miss_count st + 1 + 1) (hit_count st) (eviction_count st)).
  set (st3 := Sim c3 (miss_count st + 1 + 1) (hit_count st + 1) (eviction_count st)).
  set (st4 := Sim c4 (miss_count st + 1 + 1 + 1) (hit_count st + 1) (eviction_count st + 1)).
  assert (Hidx1 : index c1 ts = Ok [Line "1" A 1; Line "0" 0 0])
    by (eapply index_insert, Hidx).
  assert (Hidx2 : index c2 ts = Ok [Line "1" A 1; Line "1" B 2])
    by (eapply index_insert, Hidx1).
  assert (Hidx3 : index c3 ts = Ok [Line "1" A 3; Line "1" B 2])
    by (eapply index_insert, Hidx2).
  assert (Hidx4 : index c4 ts = Ok [Line "1" A 3; Line "1" C 4])
    by (eapply index_insert, Hidx3).
  assert (H1 : accessData s b 2 st a1 = Ok st1).
  { apply accessData_access.
    eapply (access_cold s b 2 st a1 st1 ts A _ 0 0 0 0);
      try eassumption; try reflexivity; unfold INT_MIN, INT_MAX; lia. }
  assert (H2 : accessData s b 2 st1 a2 = Ok st2).
  { apply accessData_access.
    eapply (access_cold s b 2 st1 a2 st2 ts B _ 0 1 1 1);
      try eassumption; try reflexivity; try (unfold INT_MIN, INT_MAX; simpl; lia).
    rewrite find_line_pair. unfold is_hit. simpl. rewrite HAB. reflexivity. }
  assert (H3 : accessData s b 2 st2 a1 = Ok st3).
  { apply accessData_access.
    eapply (access_hit s b 2 st2 a1 st3 ts A _ 1 2 0 0);
      try eassumption; try reflexivity; try (unfold INT_MIN, INT_MAX; simpl; lia).
    rewrite find_line_pair. unfold is_hit. simpl. rewrite Z.eqb_refl. reflexivity. }
  assert (H4 : accessData s b 2 st3 a3 = Ok st4).
  { apply accessData_access.
    eapply (access_evict s b 2 st3 a3 st4 ts C _ 2 3 1);
      try eassumption; try reflexivity; try (unfold INT_MIN, INT_MAX; simpl; lia).
    rewrite find_line_pair. unfold is_hit. simpl. rewrite HAC, HBC. reflexivity. }
  exists st3, st4. split.
  { simpl. rewrite H1. simpl. rewrite H2. simpl. rewrite H3. reflexivity. }
  split; [exact Hidx3|]. split; [reflexivity|]. split; [exact H4|].
  split; [exact Hidx4|]. simpl. lia.
Qed.

Lemma lru_order_witness :
  exists st3 st4,
    replayTrace 1 1 2 [("L"%char, 0); ("L"%char, 4); ("L"%char, 0)]
      (Sim [[Line "0" 0 0; Line "0" 0 0]; [Line "0" 0 0; Line "0" 0 0]] 0 0 0) = Ok st3 /\
    index (cache st3) 0 = Ok [Line "1" 0 3; Line "1" 1 2] /\
    accessData 1 1 2 st3 8 = Ok st4 /\
    index (cache st4) 0 = Ok [Line "1" 0 3; Line "1" 2 4].
Proof.
  destruct (lru_order 1 1
              (Sim [[Line "0" 0 0; Line "0" 0 0]; [Line "0" 0 0; Line "0" 0 0]] 0 0 0)
              0 4 8 0 0 1 2)
    as (st3 & st4 & Hrun & Hset3 & _ & Hacc & Hset4 & _).
  - vm_compute. reflexivity.
  - vm_compute. reflexivity.
  - vm_compute. reflexivity.
  - vm_compute. reflexivity.
  - vm_compute. reflexivity.
  - vm_compute. reflexivity.
  - lia.
  - lia.
  - lia.
  - vm_compute. reflexivity.
  - unfold INT_MIN, INT_MAX. simpl. lia.
  - unfold INT_MIN. simpl. lia.
  - unfold INT_MAX. simpl. lia.
  - unfold INT_MIN, INT_MAX. simpl. lia.
  - exists st3, st4. split; [exact Hrun|]. split; [exact Hset3|].
    split; [exact Hacc | exact Hset4].
Defined.

(** ** Evictions *)

Section Evictions.

Variables s b E : Z.

(** A call that completes in the eviction branch overwrites the first
    line holding the smallest counter. *)
Lemma eviction_lru st addr ts tt set st' :
  targSet s b addr = Ok ts ->
  targTag s b addr = Ok tt ->
  index (cache st) ts = Ok set ->
  length set = Z.to_nat E ->
  ~ resident tt set ->
  (forall k line, set !! k = Some line -> valid line <> "0"%char) ->
  accessData s b E st addr = Ok st' ->
  exists i line,
    set !! i = Some line /\
    (forall k l, set !! k = Some l -> counter line <= counter l) /\
    (forall k l, (k < i)%nat -> set !! k = Some l -> counter line < counter l) /\
    st' = Sim (<[Z.to_nat ts :=
                  <[i := Line (valid line) tt (max_counter set + 1)]> set]>
                 (cache st))
              (miss_count st + 1) (hit_count st) (eviction_count st + 1).
Proof.
  intros Hts Htt Hidx Hlen Hnr Hne H. apply accessData_access in H.
  destruct H
    as [ts' tt' set' mn mx mi i line Hset Htag Hidx' Hscan Hfind Hline Hhits Hstamp ->
       |ts' tt' set' mn mx mi k line Hset Htag Hidx' Hscan Hfind Hmisses Hempty Hline Hstamp ->
       |ts' tt' set' mn mx mi line Hset Htag Hidx' Hscan Hfind Hmisses Hempty Hev Hstamp Hline ->];
    rewrite Hts in Hset; inversion Hset; subst ts';
    rewrite Htt in Htag; inversion Htag; subst tt';
    rewrite Hidx in Hidx'; inversion Hidx'; subst set'.
  - exfalso. apply Hnr.
    destruct (find_line_Some set _ _ 0 i ltac:(lia) Hfind) as (_ & (l & Hl & Hhit) & _).
    apply is_hit_true in Hhit as [Hv Ht]. exists (Z.to_nat i), l. auto.
  - exfalso.
    destruct (find_line_Some set _ _ 0 k ltac:(lia) Hempty) as (_ & (l & Hl & He) & _).
    apply is_empty_true in He. apply (Hne _ _ Hl He).
  - apply index_Ok in Hline as [Hmi Hline].
    pose proof (scan_counters_Ok set (Z.to_nat E) 0 5000 0 (-1) mn mx mi ltac:(lia) Hscan)
      as (_ & (Hnle & Hnex)).
    destruct Hnex as [[_ ->]|(_ & _ & line' & Hline' & Hc & Hfirst)]; [lia|].
    rewrite Hline in Hline'. inversion Hline'; subst line'.
    rewrite <- Hlen in Hscan. apply scan_counters_max in Hscan. subst mx.
    exists (Z.to_nat mi), line. split; [exact Hline|]. split; [|split; [|reflexivity]].
    + intros k l Hk. rewrite Hc. apply (Hnle k l); [|exact Hk].
      apply lookup_lt_Some in Hk. lia.
    + intros k l Hk Hkl. rewrite Hc. apply (Hfirst k l); [lia | exact Hkl].
Qed.

(** A completed [M] on a tag that is not resident: the first call
    misses and installs the tag, the second call hits. *)
Lemma modify_miss_hit st addr ts tt set st' :
  wf_cache s E (cache st) ->
  targSet s b addr = Ok ts ->
  targTag s b addr = Ok tt ->
  index (cache st) ts = Ok set ->
  ~ resident tt set ->
  replayLine s b E st ("M"%char, addr) = Ok st' ->
  exists st1 set1,
    accessData s b E st addr = Ok st1 /\
    miss_count st1 = miss_count st + 1 /\ hit_count st1 = hit_count st /\
    index (cache st1) ts = Ok set1 /\ resident tt set1 /\
    accessData s b E st1 addr = Ok st' /\
    miss_count st' = miss_count st + 1 /\ hit_count st' = hit_count st + 1.
Proof.
  intros Hwf Hts Htt Hidx Hnr H.
  change (replayLine s b E st ("M"%char, addr))
    with (st1 ← accessData s b E st addr; accessData s b E st1 addr) in H.
  apply bind_Ok in H as (st1 & H1 & H2).
  pose proof (not_resident_miss s b E st addr ts tt set st1 Hts Htt Hidx Hnr H1)
    as [Hh1 Hm1].
  pose proof Hidx as Hidx0. apply index_Ok in Hidx0 as [Hts0 Hset].
  destruct (proj2 Hwf _ _ Hset) as (Hlen & _ & Hlines).
  assert (Hres : exists set1,
    index (cache st1) ts = Ok set1 /\ length set1 = Z.to_nat E /\ resident tt set1).
  { pose proof H1 as Hacc. apply accessData_access in Hacc.
    destruct Hacc
      as [ts' tt' set' mn mx mi i line Hset' Htag Hidx' Hscan Hfind Hline Hhits Hstamp ->
         |ts' tt' set' mn mx mi k line Hset' Htag Hidx' Hscan Hfind Hmisses Hempty Hline Hstamp ->
         |ts' tt' set' mn mx mi line Hset' Htag Hidx' Hscan Hfind Hmisses Hempty Hev Hstamp Hline ->];
      simpl in *; try lia;
      rewrite Hts in Hset'; inversion Hset'; subst ts';
      rewrite Htt in Htag; inversion Htag; subst tt';
      rewrite Hidx in Hidx'; inversion Hidx'; subst set';
      apply index_Ok in Hline as [_ Hline];
      pose proof (lookup_lt_Some _ _ _ Hline) as Hlt;
      (eexists; split; [eapply index_insert, Hidx|]; split;
       [rewrite length_insert; exact Hlen|]).
    - exists (Z.to_nat k). eexists. split; [apply list_lookup_insert_eq, Hlt|].
      split; reflexivity.
    - exists (Z.to_nat mi). eexists. split; [apply list_lookup_insert_eq, Hlt|].
      split; [|reflexivity]. simpl.
      destruct (proj1 (Hlines _ _ Hline)) as [Hv|Hv]; [|exact Hv].
      exfalso. eapply find_empty_None; eassumption. }
  destruct Hres as (set1 & Hidx1 & Hlen1 & Hres1).
  destruct (resident_hit s b E st1 addr ts tt set1 st' Hts Htt Hidx1 Hlen1 Hres1 H2)
    as (i & line & _ & _ & _ & _ & Hst').
  exists st1, set1. repeat (split; [assumption|]).
  rewrite Hst'. simpl. lia.
Qed.

End Evictions.

(** ** The sentinel of the minimum scan *)

(** C2. The scan for the minimum starts from [min = 5000], and counters
    are not kept below it: 5000 loads of one address on a direct-mapped
    cache leave the counter of the line at 5000. The scan then selects no
    line ([minIndex] stays [-1]) and the next conflicting access indexes
    the set at [-1]. *)
Theorem sentinel_reached :
  let st := Sim [[Line "1" 0 5000]; [Line "0" 0 0]] 1 4999 0 in
  simulate 1 1 1 (replicate 5000 ("L"%char, 0)) = Ok st /\
  reachable 1 1 1 st /\
  line_at (cache st) 0 0 = Some (Line "1" 0 5000) /\
  scan_counters [Line "1" 0 5000] (Z.to_nat 1) 0 5000 0 (-1) = Ok (5000, 5000, -1) /\
  accessData 1 1 1 st 4 = Fault OutOfBounds.
Proof.
  intros st.
  assert (Hrun : simulate 1 1 1 (replicate 5000 ("L"%char, 0)) = Ok st)
    by (vm_compute; reflexivity).
  split; [exact Hrun|]. split; [eapply simulate_reachable, Hrun|].
  split; [reflexivity|]. split; vm_compute; reflexivity.
Qed.

(** C1. Once every counter of a set has reached 5000 the eviction branch
    no longer overwrites the least recently used line: with two lines
    holding tags 0 and 1 at counters 5001 and 5002, an access with tag 2
    finds no hit and no empty line, the scan returns [minIndex = -1], and
    the eviction writes outside the set. *)
Theorem eviction_past_sentinel :
  let set := [Line "1" 0 5001; Line "1" 1 5002] in
  let st := Sim [set; [Line "0" 0 0; Line "0" 0 0]] 2 5000 0 in
  simulate 1 1 2 (concat (replicate 2501 [("L"%char, 0); ("L"%char, 4)])) = Ok st /\
  targSet 1 1 8 = Ok 0 /\ targTag 1 1 8 = Ok 2 /\
  find_line (is_hit 2) set (Z.to_nat 2) 0 = Ok None /\
  find_line is_empty set (Z.to_nat 2) 0 = Ok None /\
  scan_counters set (Z.to_nat 2) 0 5000 0 (-1) = Ok (5000, 5002, -1) /\
  accessData 1 1 2 st 8 = Fault OutOfBounds.
Proof.
  intros set st. repeat split; vm_compute; reflexivity.
Qed.

(** C8. A [M] line on a tag that is not resident does not always give a
    miss followed by a hit: after 5000 loads of address 0 on a
    direct-mapped cache, the first call of [M 32] (same set, tag 1) runs
    the eviction branch with [minIndex = -1] and the tag is not
    installed. *)
Theorem modify_past_sentinel :
  let st := Sim [[Line "1" 0 5000]; [Line "0" 0 0]; [Line "0" 0 0]; [Line "0" 0 0]]
                1 4999 0 in
  simulate 2 3 1 (replicate 5000 ("L"%char, 0)) = Ok st /\
  targSet 2 3 32 = Ok 0 /\ targTag 2 3 32 = Ok 1 /\
  ~ resident 1 [Line "1" 0 5000] /\
  accessData 2 3 1 st 32 = Fault OutOfBounds /\
  replayLine 2 3 1 st ("M"%char, 32) = Fault OutOfBounds.
Proof.
  intros st. split; [vm_compute; reflexivity|].
  split; [vm_compute; reflexivity|]. split; [vm_compute; reflexivity|].
  split; [|split; vm_compute; reflexivity].
  intros ([|k] & line & Hk & _ & Ht); simpl in Hk; [|discriminate].
  inversion Hk; subst line. discriminate.
Qed.

(** * Further properties of the simulator *)

(** ** The effect of one call *)

Lemma max_counter_unique (set : cache_set_t) (m : Z) :
  0 <= m ->
  (forall k line, set !! k = Some line -> counter line <= m) ->
  (m = 0 \/ exists k line, set !! k = Some line /\ counter line = m) ->
  m = max_counter set.
Proof.
  intros H0 Hle Hex. destruct (max_counter_spec set) as (M0 & Mle & Mex).
  apply Z.le_antisymm.
  - destruct Hex as [->|(k & line & Hk & <-)]; [exact M0 | eapply Mle, Hk].
  - destruct Mex as [->|(k & line & Hk & <-)]; [exact H0 | eapply Hle, Hk].
Qed.

(** Stamping a line with [max + 1] raises the maximum of the set by one. *)
Lemma max_counter_stamp (set : cache_set_t) i line v t :
  set !! i = Some line ->
  max_counter (<[i := Line v t (max_counter set + 1)]> set) = max_counter set + 1.
Proof.
  intros Hi. symmetry. destruct (max_counter_spec set) as (M0 & Mle & _).
  apply max_counter_unique.
  - lia.
  - intros k l Hk.
    apply list_lookup_insert_Some in Hk as [(_ & <- & _)|[_ Hk]]; simpl; [lia|].
    specialize (Mle k l Hk). lia.
  - right. exists i, (Line v t (max_counter set + 1)). split; [|reflexivity].
    apply list_lookup_insert_eq. eapply lookup_lt_Some, Hi.
Qed.

Section Effect.

Variables s b E : Z.

(** Every completed call on a well-formed cache writes one line of the
    target set, and what it writes is [Line '1' targTag (max + 1)]. The
    three cases differ in the line chosen and in the counts. *)
Lemma accessData_effect st addr st' :
  wf_cache s E (cache st) ->
  accessData s b E st addr = Ok st' ->
  exists ts tt set i line,
    targSet s b addr = Ok ts /\ targTag s b addr = Ok tt /\
    index (cache st) ts = Ok set /\ set !! i = Some line /\
    cache st' = <[Z.to_nat ts := <[i := Line "1" tt (max_counter set + 1)]> set]>
                  (cache st) /\
    ((valid line = "1"%char /\ tag line = tt /\
      (forall k l, (k < i)%nat -> set !! k = Some l ->
                   ~ (valid l = "1"%char /\ tag l = tt)) /\
      hit_count st' = hit_count st + 1 /\ miss_count st' = miss_count st /\
      eviction_count st' = eviction_count st) \/
     (~ resident tt set /\ valid line = "0"%char /\
      (forall k l, (k < i)%nat -> set !! k = Some l -> valid l = "1"%char) /\
      hit_count st' = hit_count st /\ miss_count st' = miss_count st + 1 /\
      eviction_count st' = eviction_count st) \/
     (~ resident tt set /\ full set /\
      (forall k l, set !! k = Some l -> counter line <= counter l) /\
      (forall k l, (k < i)%nat -> set !! k = Some l -> counter line < counter l) /\
      counter line < 5000 /\
      hit_count st' = hit_count st /\ miss_count st' = miss_count st + 1 /\
      eviction_count st' = eviction_count st + 1)).
Proof.
  intros Hwf H. apply accessData_access in H.
  destruct H
    as [ts tt set mn mx mi i line Hset Htag Hidx Hscan Hfind Hline Hhits Hstamp ->
       |ts tt set mn mx mi k line Hset Htag Hidx Hscan Hfind Hmisses Hempty Hline Hstamp ->
       |ts tt set mn mx mi line Hset Htag Hidx Hscan Hfind Hmisses Hempty Hev Hstamp Hline ->];
    pose proof Hidx as Hidx0; apply index_Ok in Hidx0 as [_ Hset0];
    destruct (proj2 Hwf _ _ Hset0) as (Hlen & _ & Hlines);
    pose proof Hscan as Hmax; rewrite <- Hlen in Hmax;
    apply scan_counters_max in Hmax; subst mx;
    apply index_Ok in Hline as [Hpos Hline]; simpl.
  - destruct (find_line_Some set _ _ 0 i ltac:(lia) Hfind)
      as (_ & (line' & Hl' & Hhit) & Hfirst).
    rewrite Hline in Hl'. inversion Hl'; subst line'.
    apply is_hit_true in Hhit as [Hv Ht].
    exists ts, tt, set, (Z.to_nat i), line.
    repeat (split; [assumption|]). split; [rewrite Hv, Ht; reflexivity|].
    left. repeat (split; [assumption|]). split; [|repeat split].
    intros k l Hk Hkl. apply is_hit_false. apply (Hfirst k l); [lia | exact Hkl].
  - destruct (find_line_Some set _ _ 0 k ltac:(lia) Hempty)
      as (_ & (line' & Hl' & Hemp) & Hfirst).
    rewrite Hline in Hl'. inversion Hl'; subst line'.
    apply is_empty_true in Hemp.
    exists ts, tt, set, (Z.to_nat k), line.
    repeat (split; [assumption|]). split; [reflexivity|].
    right; left. split; [eapply find_hit_None; eassumption|].
    split; [exact Hemp|]. split; [|repeat split].
    intros j l Hj Hjl.
    assert (Hne : is_empty l = false) by (apply (Hfirst j l); [lia | exact Hjl]).
    destruct (proj1 (Hlines _ _ Hjl)) as [Hv|Hv]; [|exact Hv].
    apply is_empty_true in Hv. congruence.
  - assert (Hfull : full set).
    { intros j l Hjl. destruct (proj1 (Hlines _ _ Hjl)) as [Hv|Hv]; [|exact Hv].
      exfalso. eapply find_empty_None; eassumption. }
    pose proof (scan_counters_Ok set (Z.to_nat E) 0 5000 0 (-1) mn _ mi ltac:(lia) Hscan)
      as (_ & (Hnle & Hnex)).
    destruct Hnex as [[_ ->]|(Hlt & _ & line' & Hline' & Hc & Hfirst)]; [lia|].
    rewrite Hline in Hline'. inversion Hline'; subst line'.
    exists ts, tt, set, (Z.to_nat mi), line.
    repeat (split; [assumption|]).
    split; [rewrite (Hfull _ _ Hline); reflexivity|].
    right; right. split; [eapply find_hit_None; eassumption|].
    split; [exact Hfull|]. split; [|split; [|split; [lia | repeat split]]].
    + intros k l Hk. rewrite Hc. apply (Hnle k l); [|exact Hk].
      apply lookup_lt_Some in Hk. lia.
    + intros k l Hk Hkl. rewrite Hc. apply (Hfirst k l); [lia | exact Hkl].
Qed.

End Effect.

(** ** When a call completes *)

Section Completion.

Variables s b E : Z.

Lemma accessData_completes st addr ts tt set :
  targSet s b addr = Ok ts ->
  targTag s b addr = Ok tt ->
  index (cache st) ts = Ok set ->
  wf_set E set ->
  INT_MIN <= hit_count st + 1 <= INT_MAX ->
  INT_MIN <= miss_count st + 1 <= INT_MAX ->
  INT_MIN <= eviction_count st + 1 <= INT_MAX ->
  max_counter set + 1 <= INT_MAX ->
  resident tt set \/
  (exists k line, set !! k = Some line /\ valid line = "0"%char) \/
  (exists k line, set !! k = Some line /\ counter line < 5000) ->
  exists st', accessData s b E st addr = Ok st'.
Proof.
  intros Hts Htt Hidx (Hlen & _ & Hlines) Hh Hm He Hmax Hcase.
  destruct (scan_counters_defined set (Z.to_nat E) 0 5000 0 (-1))
    as ([[mn mx] mi] & Hscan); [lia | lia |].
  assert (Hmx : mx = max_counter set).
  { pose proof Hscan as H. rewrite <- Hlen in H. apply scan_counters_max in H. exact H. }
  pose proof (proj1 (max_counter_spec set)) as H0.
  assert (Hstamp : INT_MIN <= mx + 1 <= INT_MAX) by (unfold INT_MIN in *; lia).
  destruct (find_line_defined set (is_hit tt) (Z.to_nat E) 0) as ([i|] & Hfind);
    [lia | lia | |].
  { destruct (find_line_Some set _ _ 0 i ltac:(lia) Hfind) as (Hi & (line & Hline & _) & _).
    eexists. apply accessData_access. eapply access_hit; try eassumption.
    - apply index_Ok. split; [lia | exact Hline].
    - reflexivity. }
  destruct (find_line_defined set is_empty (Z.to_nat E) 0) as ([k|] & Hempty);
    [lia | lia | |].
  { destruct (find_line_Some set _ _ 0 k ltac:(lia) Hempty) as (Hk & (line & Hline & _) & _).
    eexists. apply accessData_access. eapply access_cold; try eassumption.
    - apply index_Ok. split; [lia | exact Hline].
    - reflexivity. }
  pose proof (scan_counters_Ok set (Z.to_nat E) 0 5000 0 (-1) mn mx mi ltac:(lia) Hscan)
    as (_ & (Hnle & Hnex)).
  destruct Hnex as [[-> ->]|(_ & Hmi & line & Hline & _)].
  - exfalso. destruct Hcase as [Hres|[(k & line & Hk & Hv)|(k & line & Hk & Hc)]].
    + eapply find_hit_None; eassumption.
    + eapply find_empty_None; eassumption.
    + assert (5000 <= counter line); [|lia].
      apply (Hnle k line); [|exact Hk]. apply lookup_lt_Some in Hk. lia.
  - eexists. apply accessData_access. eapply access_evict; try eassumption.
    + apply index_Ok. split; [lia | exact Hline].
    + reflexivity.
Qed.

Lemma accessData_out_of_bounds st addr ts tt set :
  targSet s b addr = Ok ts ->
  targTag s b addr = Ok tt ->
  index (cache st) ts = Ok set ->
  length set = Z.to_nat E ->
  INT_MIN <= miss_count st + 1 <= INT_MAX ->
  INT_MIN <= eviction_count st + 1 <= INT_MAX ->
  max_counter set + 1 <= INT_MAX ->
  ~ resident tt set ->
  full set ->
  (forall k line, set !! k = Some line -> 5000 <= counter line) ->
  accessData s b E st addr = Fault OutOfBounds.
Proof.
  intros Hts Htt Hidx Hlen Hm He Hmax Hnr Hfull Hhigh.
  destruct (scan_counters_defined set (Z.to_nat E) 0 5000 0 (-1))
    as ([[mn mx] mi] & Hscan); [lia | lia |].
  assert (Hmx : mx = max_counter set).
  { pose proof Hscan as H. rewrite <- Hlen in H. apply scan_counters_max in H. exact H. }
  pose proof (proj1 (max_counter_spec set)) as H0.
  pose proof (scan_counters_Ok set (Z.to_nat E) 0 5000 0 (-1) mn mx mi ltac:(lia) Hscan)
    as (_ & (_ & Hnex)).
  assert (Hmi : mi = -1).
  { destruct Hnex as [[_ ->]|(Hlt & _ & line & Hline & Hc & _)]; [reflexivity|].
    specialize (Hhigh _ _ Hline). lia. }
  subst mi.
  destruct (find_line_defined set (is_hit tt) (Z.to_nat E) 0) as ([i|] & Hfind);
    [lia | lia | |].
  { exfalso. apply Hnr.
    destruct (find_line_Some set _ _ 0 i ltac:(lia) Hfind) as (_ & (l & Hl & Hhit) & _).
    apply is_hit_true in Hhit as [Hv Ht]. exists (Z.to_nat i), l. auto. }
  destruct (find_line_defined set is_empty (Z.to_nat E) 0) as ([k|] & Hempty);
    [lia | lia | |].
  { exfalso.
    destruct (find_line_Some set _ _ 0 k ltac:(lia) Hempty) as (_ & (l & Hl & Hemp) & _).
    apply is_empty_true in Hemp. rewrite (Hfull _ _ Hl) in Hemp. discriminate. }
  assert (Hm' : int_add (miss_count st) 1 = Ok (miss_count st + 1))
    by (apply int_add_Ok; split; [reflexivity | exact Hm]).
  assert (He' : int_add (eviction_count st) 1 = Ok (eviction_count st + 1))
    by (apply int_add_Ok; split; [reflexivity | exact He]).
  assert (Hs' : int_add mx 1 = Ok (mx + 1))
    by (apply int_add_Ok; split; [reflexivity | unfold INT_MIN; lia]).
  unfold accessData. rewrite Hts, Htt. simpl. rewrite Hidx. simpl.
  rewrite Hscan. simpl. rewrite Hfind. simpl. rewrite Hm'. simpl.
  rewrite Hempty. simpl. rewrite He'. simpl. rewrite Hs'. simpl.
  unfold store. rewrite Hidx. simpl. reflexivity.
Qed.

End Completion.

(** X1. On a well-formed set, and as long as the counts and [max + 1]
    fit in an [int], a call has exactly two outcomes. It completes when
    the tag is resident, or some line is empty, or some counter is below
    5000. Otherwise (tag not resident, set full, every counter at 5000
    or more) it ends in the out-of-bounds write at [minIndex = -1]. *)
Theorem access_completes_or_overruns (s b E : Z) (st : sim) (addr ts tt : Z)
    (set : cache_set_t) :
  targSet s b addr = Ok ts ->
  targTag s b addr = Ok tt ->
  index (cache st) ts = Ok set ->
  wf_set E set ->
  INT_MIN <= hit_count st + 1 <= INT_MAX ->
  INT_MIN <= miss_count st + 1 <= INT_MAX ->
  INT_MIN <= eviction_count st + 1 <= INT_MAX ->
  max_counter set + 1 <= INT_MAX ->
  ((exists st', accessData s b E st addr = Ok st') <->
   (resident tt set \/
    (exists k line, set !! k = Some line /\ valid line = "0"%char) \/
    (exists k line, set !! k = Some line /\ counter line < 5000))) /\
  (accessData s b E st addr = Fault OutOfBounds <->
   (~ resident tt set /\ full set /\
    forall k line, set !! k = Some line -> 5000 <= counter line)) /\
  (forall u, accessData s b E st addr = Fault u -> u = OutOfBounds).
Proof.
  intros Hts Htt Hidx Hws Hh Hm He Hmax.
  pose proof Hws as (Hlen & _ & Hlines).
  assert (Hdec : (resident tt set \/
      (exists k line, set !! k = Some line /\ valid line = "0"%char) \/
      (exists k line, set !! k = Some line /\ counter line < 5000)) \/
     (~ resident tt set /\ full set /\
      forall k line, set !! k = Some line -> 5000 <= counter line)).
  { destruct (find_line_defined set (is_hit tt) (Z.to_nat E) 0) as ([i|] & Hfind);
      [lia | lia | |].
    { left; left.
      destruct (find_line_Some set _ _ 0 i ltac:(lia) Hfind) as (_ & (l & Hl & Hhit) & _).
      apply is_hit_true in Hhit as [Hv Ht]. exists (Z.to_nat i), l. auto. }
    destruct (find_line_defined set is_empty (Z.to_nat E) 0) as ([k|] & Hempty);
      [lia | lia | |].
    { left; right; left.
      destruct (find_line_Some set _ _ 0 k ltac:(lia) Hempty) as (_ & (l & Hl & Hemp) & _).
      apply is_empty_true in Hemp. eauto. }
    destruct (scan_counters_defined set (Z.to_nat E) 0 5000 0 (-1))
      as ([[mn mx] mi] & Hscan); [lia | lia |].
    pose proof (scan_counters_Ok set (Z.to_nat E) 0 5000 0 (-1) mn mx mi ltac:(lia) Hscan)
      as (_ & (Hnle & Hnex)).
    destruct Hnex as [[-> ->]|(Hlt & _ & line & Hline & Hc & _)].
    - right. split; [eapply find_hit_None; eassumption|]. split.
      + intros j l Hjl. destruct (proj1 (Hlines _ _ Hjl)) as [Hv|Hv]; [|exact Hv].
        exfalso. eapply find_empty_None; eassumption.
      + intros j l Hjl. apply (Hnle j l); [|exact Hjl].
        apply lookup_lt_Some in Hjl. lia.
    - left; right; right. exists (Z.to_nat mi), line. split; [exact Hline | lia]. }
  destruct Hdec as [Hok|(Hnr & Hfull & Hhigh)].
  - destruct (accessData_completes s b E st addr ts tt set
                Hts Htt Hidx Hws Hh Hm He Hmax Hok) as [st' Hst'].
    split; [split; [intros _; exact Hok | intros _; eauto]|].
    split; [|intros u Hu; rewrite Hst' in Hu; discriminate].
    split; [intros Hf; rewrite Hst' in Hf; discriminate|].
    intros (Hnr & Hfull & Hhigh). exfalso.
    destruct Hok as [Hres|[(k & line & Hk & Hv)|(k & line & Hk & Hc)]].
    + contradiction.
    + rewrite (Hfull _ _ Hk) in Hv. discriminate.
    + specialize (Hhigh _ _ Hk). lia.
  - pose proof (accessData_out_of_bounds s b E st addr ts tt set
                  Hts Htt Hidx Hlen Hm He Hmax Hnr Hfull Hhigh) as Hf.
    split; [split|].
    + intros [st' Hst']. rewrite Hf in Hst'. discriminate.
    + intros [Hres|[(k & line & Hk & Hv)|(k & line & Hk & Hc)]]; exfalso.
      * contradiction.
      * rewrite (Hfull _ _ Hk) in Hv. discriminate.
      * specialize (Hhigh _ _ Hk). lia.
    + split; [split; [intros _; auto | intros _; exact Hf]|].
      intros u Hu. rewrite Hf in Hu. inversion Hu. reflexivity.
Qed.

Lemma access_completes_or_overruns_witness :
  let st := Sim [[Line "1" 3 5000; Line "1" 7 6000]] 2 9000 0 in
  accessData 0 1 2 st 8 = Fault OutOfBounds.
Proof.
  intros st.
  assert (Hws : wf_set 2 [Line "1" 3 5000; Line "1" 7 6000]).
  { split; [reflexivity|]. split.
    - intros [|[|i]] [|[|j]] li lj Hi Hj; simpl in Hi, Hj; try discriminate;
        inversion Hi; inversion Hj; subst; simpl; intros _ _ Ht;
        try reflexivity; discriminate.
    - intros [|[|k]] l Hk; simpl in Hk; try discriminate;
        inversion Hk; subst l; split; simpl; try (right; reflexivity); lia. }
  apply (proj2 (proj1 (proj2 (access_completes_or_overruns 0 1 2 st 8 0 4
           [Line "1" 3 5000; Line "1" 7 6000]
           ltac:(vm_compute; reflexivity) ltac:(vm_compute; reflexivity)
           ltac:(vm_compute; reflexivity)
           Hws ltac:(vm_compute; split; discriminate)
           ltac:(vm_compute; split; discriminate)
           ltac:(vm_compute; split; discriminate)
           ltac:(vm_compute; discriminate))))).
  split; [|split].
  - intros ([|[|k]] & l & Hk & Hv & Ht); simpl in Hk; try discriminate;
      inversion Hk; subst l; discriminate.
  - intros [|[|k]] l Hk; simpl in Hk; try discriminate;
      inversion Hk; subst l; reflexivity.
  - intros [|[|k]] l Hk; simpl in Hk; try discriminate;
      inversion Hk; subst l; simpl; lia.
Defined.

(** X2. A completed call on a well-formed cache writes exactly one line:
    some line of the target set becomes [Line '1' targTag (max + 1)],
    where [max] is the largest counter the set had; every other line of
    the cache and the dimensions of the cache are unchanged, and the
    written line now holds the strictly largest counter of its set. *)
Theorem access_writes_one_line (s b E : Z) (st : sim) (addr : Z) (st' : sim) :
  wf_cache s E (cache st) ->
  accessData s b E st addr = Ok st' ->
  exists ts tt set i,
    targSet s b addr = Ok ts /\ targTag s b addr = Ok tt /\
    index (cache st) ts = Ok set /\
    line_at (cache st') (Z.to_nat ts) i = Some (Line "1" tt (max_counter set + 1)) /\
    (forall j k, ~ (j = Z.to_nat ts /\ k = i) ->
                 line_at (cache st') j k = line_at (cache st) j k) /\
    length (cache st') = length (cache st) /\
    exists set',
      index (cache st') ts = Ok set' /\ length set' = length set /\
      max_counter set' = max_counter set + 1 /\
      forall k l, k <> i -> set' !! k = Some l -> counter l < max_counter set'.
Proof.
  intros Hwf H.
  destruct (accessData_effect s b E st addr st' Hwf H)
    as (ts & tt & set & i & line & Hts & Htt & Hidx & Hi & Hc & _).
  pose proof Hidx as Hidx0. apply index_Ok in Hidx0 as [_ Hset].
  pose proof (lookup_lt_Some _ _ _ Hi) as Hlt.
  exists ts, tt, set, i. repeat (split; [assumption|]). rewrite Hc.
  split; [|split; [|split]].
  - rewrite (line_at_update _ _ set) by assumption.
    destruct (decide (Z.to_nat ts = Z.to_nat ts /\ i = i)) as [_|Hn];
      [reflexivity | exfalso; auto].
  - intros j k Hjk. rewrite (line_at_update _ _ set) by assumption.
    destruct (decide (j = Z.to_nat ts /\ k = i)); [contradiction | reflexivity].
  - apply length_insert.
  - eexists. split; [eapply index_insert, Hidx|].
    split; [apply length_insert|].
    split; [eapply max_counter_stamp, Hi|].
    intros k l Hk Hkl. rewrite (max_counter_stamp set i line) by exact Hi.
    rewrite list_lookup_insert_ne in Hkl by auto.
    pose proof (proj1 (proj2 (max_counter_spec set)) k l Hkl). lia.
Qed.

Lemma access_writes_one_line_witness :
  exists ts tt set i,
    targSet 1 1 4 = Ok ts /\ targTag 1 1 4 = Ok tt /\
    index [[Line "1" 0 1]; [Line "0" 0 0]] ts = Ok set /\
    line_at [[Line "1" 1 2]; [Line "0" 0 0]] (Z.to_nat ts) i =
      Some (Line "1" tt (max_counter set + 1)).
Proof.
  destruct (access_writes_one_line 1 1 1
              (Sim [[Line "1" 0 1]; [Line "0" 0 0]] 1 0 0) 4
              (Sim [[Line "1" 1 2]; [Line "0" 0 0]] 2 0 1))
    as (ts & tt & set & i & H1 & H2 & H3 & H4 & _).
  - apply (reachable_wf 1 1 1).
    apply (simulate_reachable 1 1 1 [("L"%char, 0)]). vm_compute. reflexivity.
  - vm_compute. reflexivity.
  - exists ts, tt, set, i. auto.
Defined.

(** X3. A miss on a set that still has an empty line fills the first
    empty line (lowest index) with [Line '1' targTag (max + 1)]; it adds
    one to [miss_count] and leaves [hit_count] and [eviction_count]
    alone. Such a call completes whenever [miss_count + 1] and [max + 1]
    fit in an [int]: the sentinel plays no part. *)
Theorem cold_miss_fill (s b E : Z) (st : sim) (addr ts tt : Z) (set : cache_set_t) :
  wf_cache s E (cache st) ->
  targSet s b addr = Ok ts ->
  targTag s b addr = Ok tt ->
  index (cache st) ts = Ok set ->
  ~ resident tt set ->
  (exists k line, set !! k = Some line /\ valid line = "0"%char) ->
  (INT_MIN <= miss_count st + 1 <= INT_MAX -> max_counter set + 1 <= INT_MAX ->
   exists st', accessData s b E st addr = Ok st') /\
  (forall st',
     accessData s b E st addr = Ok st' ->
     exists k line,
       set !! k = Some line /\ valid line = "0"%char /\
       (forall j l, (j < k)%nat -> set !! j = Some l -> valid l = "1"%char) /\
       st' = Sim (<[Z.to_nat ts := <[k := Line "1" tt (max_counter set + 1)]> set]>
                    (cache st))
                 (miss_count st + 1) (hit_count st) (eviction_count st)).
Proof.
  intros Hwf Hts Htt Hidx Hnr Hemp.
  pose proof Hidx as Hidx0. apply index_Ok in Hidx0 as [_ Hset].
  pose proof (proj2 Hwf _ _ Hset) as Hws. split.
  - intros Hm Hmax. pose proof Hws as (Hlen & _ & _).
    destruct (find_line_defined set (is_hit tt) (Z.to_nat E) 0) as ([i|] & Hfind);
      [lia | lia | |].
    { exfalso. apply Hnr.
      destruct (find_line_Some set _ _ 0 i ltac:(lia) Hfind) as (_ & (l & Hl & Hhit) & _).
      apply is_hit_true in Hhit as [Hv Ht]. exists (Z.to_nat i), l. auto. }
    destruct (find_line_defined set is_empty (Z.to_nat E) 0) as ([k|] & Hempty);
      [lia | lia | |].
    + destruct (scan_counters_defined set (Z.to_nat E) 0 5000 0 (-1))
        as ([[mn mx] mi] & Hscan); [lia | lia |].
      assert (Hmx : mx = max_counter set).
      { pose proof Hscan as H. rewrite <- Hlen in H. apply scan_counters_max in H. exact H. }
      pose proof (proj1 (max_counter_spec set)) as H0.
      destruct (find_line_Some set _ _ 0 k ltac:(lia) Hempty)
        as (Hk & (line & Hline & _) & _).
      eexists. apply accessData_access. eapply access_cold; try eassumption.
      * apply index_Ok. split; [lia | exact Hline].
      * unfold INT_MIN in *. lia.
      * reflexivity.
    + exfalso. destruct Hemp as (k & line & Hk & Hv).
      eapply find_empty_None; eassumption.
  - intros st' H.
    destruct (accessData_effect s b E st addr st' Hwf H)
      as (ts' & tt' & set' & i & line & Hts' & Htt' & Hidx' & Hi & Hc & Hkind).
    rewrite Hts in Hts'; inversion Hts'; subst ts'.
    rewrite Htt in Htt'; inversion Htt'; subst tt'.
    rewrite Hidx in Hidx'; inversion Hidx'; subst set'.
    destruct Hkind as [(Hv & Ht & _)|[(_ & Hv & Hfirst & Hh & Hm & He)|(_ & Hfull & _)]].
    + exfalso. apply Hnr. exists i, line. auto.
    + exists i, line. repeat (split; [assumption|]).
      destruct st' as [c' m' h' e']. simpl in *. subst. reflexivity.
    + exfalso. destruct Hemp as (k & l & Hk & Hv).
      rewrite (Hfull _ _ Hk) in Hv. discriminate.
Qed.

Lemma cold_miss_fill_witness :
  exists st',
    accessData 1 1 2 (Sim [[Line "1" 0 1; Line "0" 0 0]; [Line "0" 0 0; Line "0" 0 0]] 1 0 0) 4
      = Ok st'.
Proof.
  apply (proj1 (cold_miss_fill 1 1 2
           (Sim [[Line "1" 0 1; Line "0" 0 0]; [Line "0" 0 0; Line "0" 0 0]] 1 0 0)
           4 0 1 [Line "1" 0 1; Line "0" 0 0]
           (reachable_wf 1 1 2 _
              (simulate_reachable 1 1 2 [("L"%char, 0)] _ ltac:(vm_compute; reflexivity)))
           ltac:(vm_compute; reflexivity) ltac:(vm_compute; reflexivity)
           ltac:(vm_compute; reflexivity)
           ltac:(intros ([|[|k]] & l & Hk & Hv & Ht); simpl in Hk; try discriminate;
                 inversion Hk; subst l; discriminate)
           ltac:(exists 1%nat, (Line "0" 0 0); split; reflexivity))).
  - vm_compute. split; discriminate.
  - vm_compute. discriminate.
Defined.

(** ** Invariants of the reachable states *)

Lemma tidy_set_stamp (set : cache_set_t) i line t :
  tidy_set set ->
  set !! i = Some line ->
  (forall j l, (j < i)%nat -> set !! j = Some l -> valid l = "1"%char) ->
  tidy_set (<[i := Line "1" t (max_counter set + 1)]> set).
Proof.
  intros (Ha & Hb & Hc & Hd) Hi Hbefore.
  destruct (max_counter_spec set) as (M0 & Mle & _).
  split; [|split; [|split]].
  - intros k l Hk Hv.
    apply list_lookup_insert_Some in Hk as [(_ & <- & _)|[_ Hk]]; [discriminate|].
    apply (Ha k l Hk Hv).
  - intros k l Hk Hv.
    apply list_lookup_insert_Some in Hk as [(_ & <- & _)|[_ Hk]]; [simpl; lia|].
    apply (Hb k l Hk Hv).
  - intros j k lj lk Hjk Hj Hk Hv.
    apply list_lookup_insert_Some in Hj as [(_ & <- & _)|[Hne Hj]]; [reflexivity|].
    apply list_lookup_insert_Some in Hk as [(<- & _ & _)|[_ Hk]].
    + apply (Hbefore j lj Hjk Hj).
    + apply (Hc j k lj lk Hjk Hj Hk Hv).
  - intros j k lj lk Hj Hk Hvj Hvk Heq.
    apply list_lookup_insert_Some in Hj as [(<- & <- & _)|[Hnej Hj]];
      apply list_lookup_insert_Some in Hk as [(<- & <- & _)|[Hnek Hk]].
    + reflexivity.
    + simpl in Heq. specialize (Mle k lk Hk). lia.
    + simpl in Heq. specialize (Mle j lj Hj). lia.
    + apply (Hd j k lj lk); assumption.
Qed.

Lemma total_insert {A : Type} (f : A -> Z) (l : list A) i x y :
  l !! i = Some x -> total f (<[i := y]> l) = total f l - f x + f y.
Proof.
  revert i. induction l as [|a l IH]; intros [|i] H; simpl in *; try discriminate.
  - inversion H; subst. lia.
  - rewrite (IH i H). lia.
Qed.

Lemma total_replicate {A : Type} (f : A -> Z) n x :
  total f (replicate n x) = Z.of_nat n * f x.
Proof. induction n as [|n IH]; simpl; [lia | rewrite IH; lia]. Qed.

Lemma total_bounds {A : Type} (f : A -> Z) (l : list A) m :
  (forall k x, l !! k = Some x -> 0 <= f x <= m) ->
  0 <= total f l <= Z.of_nat (length l) * m.
Proof.
  induction l as [|a l IH]; intros H; simpl; [lia|].
  pose proof (H O a eq_refl). 
  assert (H' : forall k x, l !! k = Some x -> 0 <= f x <= m)
    by (intros k x Hk; apply (H (S k) x Hk)).
  specialize (IH H'). lia.
Qed.

Section Invariants.

Variables s b E : Z.

Lemma access_tidy st addr st' :
  wf_cache s E (cache st) -> tidy (cache st) ->
  accessData s b E st addr = Ok st' ->
  tidy (cache st').
Proof.
  intros Hwf Htidy H.
  destruct (accessData_effect s b E st addr st' Hwf H)
    as (ts & tt & set & i & line & _ & _ & Hidx & Hi & Hc & Hkind).
  apply index_Ok in Hidx as [_ Hset]. rewrite Hc. intros j set' Hj.
  apply list_lookup_insert_Some in Hj as [(_ & <- & _)|[_ Hj]]; [|apply (Htidy j set' Hj)].
  pose proof (Htidy _ _ Hset) as Hts.
  apply (tidy_set_stamp set i line tt Hts Hi).
  destruct Hkind as [(Hv & _)|[(_ & _ & Hfirst & _)|(_ & Hfull & _)]].
  - intros k l Hk Hkl. destruct Hts as (_ & _ & Hprefix & _).
    apply (Hprefix k i l line Hk Hkl Hi Hv).
  - exact Hfirst.
  - intros k l _ Hkl. apply (Hfull k l Hkl).
Qed.

Lemma initCache_tidy c : initCache s E = Ok c -> tidy c.
Proof.
  intros H. apply initCache_Ok in H as [_ ->]. intros i set Hi.
  apply lookup_replicate in Hi as [-> _].
  split; [|split; [|split]].
  - intros k l Hk _. apply lookup_replicate in Hk as [-> _]. reflexivity.
  - intros k l Hk Hv. apply lookup_replicate in Hk as [-> _]. discriminate.
  - intros j k lj lk _ _ Hk Hv. apply lookup_replicate in Hk as [-> _]. discriminate.
  - intros j k lj lk Hj _ Hv. apply lookup_replicate in Hj as [-> _]. discriminate.
Qed.

Lemma steps_tidy st st' :
  wf_cache s E (cache st) -> tidy (cache st) ->
  steps s b E st st' -> tidy (cache st').
Proof.
  intros Hwf Htidy Hsteps. induction Hsteps as [st|st st1 st2 addr Hs IH Hacc].
  - exact Htidy.
  - apply (access_tidy st1 addr st2); [|apply IH; assumption | exact Hacc].
    apply (steps_wf s b E st st1 Hwf Hs).
Qed.

Lemma access_valid_lines st addr st' :
  wf_cache s E (cache st) ->
  accessData s b E st addr = Ok st' ->
  miss_count st' - eviction_count st' - valid_lines (cache st') =
  miss_count st - eviction_count st - valid_lines (cache st).
Proof.
  intros Hwf H.
  destruct (accessData_effect s b E st addr st' Hwf H)
    as (ts & tt & set & i & line & _ & _ & Hidx & Hi & Hc & Hkind).
  apply index_Ok in Hidx as [_ Hset]. rewrite Hc. unfold valid_lines.
  rewrite (total_insert _ _ _ set) by exact Hset.
  rewrite (total_insert _ _ _ line) by exact Hi.
  change (occupied (Line "1" tt (max_counter set + 1))) with 1.
  destruct Hkind as [(Hv & _ & _ & Hh & Hm & He)
                    |[(_ & Hv & _ & Hh & Hm & He)|(_ & Hfull & _ & _ & _ & Hh & Hm & He)]].
  - assert (Ho : occupied line = 1) by (unfold occupied; rewrite Hv; reflexivity).
    lia.
  - assert (Ho : occupied line = 0) by (unfold occupied; rewrite Hv; reflexivity).
    lia.
  - assert (Ho : occupied line = 1)
      by (unfold occupied; rewrite (Hfull _ _ Hi); reflexivity).
    lia.
Qed.

End Invariants.

(** X4. Every reachable state is well formed and tidy: the cache has
    [2^s] sets of [E] lines; each valid flag is ['0'] or ['1']; a line
    that is not valid still holds its initial contents (tag 0, counter
    0); valid lines carry counters of at least 1, occupy the set from
    index 0 upward without gaps, and no two valid lines of a set carry
    the same counter, so the least recently used line of a full set is
    unique. *)
Theorem reachable_tidy (s b E : Z) (st : sim) :
  reachable s b E st ->
  length (cache st) = Z.to_nat (2 ^ s) /\
  (forall i set, cache st !! i = Some set ->
     length set = Z.to_nat E /\
     (forall k line, set !! k = Some line ->
        valid line = "1"%char /\ 1 <= counter line \/ line = Line "0" 0 0) /\
     (forall j k lj lk, (j < k)%nat -> set !! j = Some lj -> set !! k = Some lk ->
        valid lk = "1"%char -> valid lj = "1"%char) /\
     (forall j k lj lk, set !! j = Some lj -> set !! k = Some lk ->
        valid lj = "1"%char -> valid lk = "1"%char ->
        counter lj = counter lk -> j = k)).
Proof.
  intros Hr. pose proof (reachable_wf s b E st Hr) as Hwf.
  destruct Hr as (c & Hc & Hsteps).
  assert (Htidy : tidy (cache st)).
  { apply (steps_tidy s b E (Sim c 0 0 0) st); simpl.
    - apply initCache_wf, Hc.
    - apply (initCache_tidy s E c Hc).
    - exact Hsteps. }
  split; [apply Hwf|]. intros i set Hi.
  destruct (proj2 Hwf i set Hi) as (Hlen & _ & Hlines).
  destruct (Htidy i set Hi) as (Ha & Hb & Hc' & Hd).
  split; [exact Hlen|]. split; [|split; [exact Hc' | exact Hd]].
  intros k line Hk. destruct (proj1 (Hlines k line Hk)) as [Hv|Hv].
  - right. apply (Ha k line Hk Hv).
  - left. split; [exact Hv | apply (Hb k line Hk Hv)].
Qed.

Lemma reachable_tidy_witness :
  length (cache (Sim [[Line "1" 0 3; Line "1" 2 4]; [Line "0" 0 0; Line "0" 0 0]] 3 1 1))
    = Z.to_nat (2 ^ 1).
Proof.
  apply (reachable_tidy 1 1 2).
  apply (simulate_reachable 1 1 2
           [("L"%char, 0); ("L"%char, 4); ("L"%char, 0); ("L"%char, 8)]).
  vm_compute. reflexivity.
Defined.

(** X5. In every reachable state [miss_count] is [eviction_count] plus
    the number of valid lines in the cache: each miss either fills an
    empty line or evicts. Hence the misses that are not evictions never
    outnumber the [2^s * E] lines of the cache. *)
Theorem miss_accounting (s b E : Z) (st : sim) :
  reachable s b E st ->
  miss_count st = eviction_count st + valid_lines (cache st) /\
  0 <= miss_count st - eviction_count st <= 2 ^ s * Z.max 0 E.
Proof.
  intros Hr. pose proof (reachable_wf s b E st Hr) as Hwf.
  destruct Hr as (c & Hc & Hsteps).
  assert (Heq : miss_count st - eviction_count st - valid_lines (cache st) = 0).
  { assert (Hinit : wf_cache s E (cache (Sim c 0 0 0))) by (apply initCache_wf, Hc).
    assert (H0 : miss_count (Sim c 0 0 0) - eviction_count (Sim c 0 0 0)
                 - valid_lines (cache (Sim c 0 0 0)) = 0).
    { simpl. apply initCache_Ok in Hc as [_ ->]. unfold valid_lines.
      rewrite !total_replicate. unfold occupied. simpl. lia. }
    clear Hwf. induction Hsteps as [st|st st1 st2 addr Hs IH Hacc]; [exact H0|].
    rewrite (access_valid_lines s b E st1 addr st2); [apply IH; assumption| |exact Hacc].
    apply (steps_wf s b E st st1 Hinit Hs). }
  split; [lia|].
  assert (Hb : 0 <= valid_lines (cache st) <= Z.of_nat (length (cache st)) * Z.max 0 E).
  { unfold valid_lines. apply total_bounds. intros i set Hi.
    destruct (proj2 Hwf i set Hi) as (Hlen & _ & _).
    assert (Hset : 0 <= total occupied set <= Z.of_nat (length set) * 1).
    { apply total_bounds. intros k l _. unfold occupied.
      destruct (Ascii.eqb (valid l) "1"); lia. }
    rewrite Hlen in Hset. lia. }
  rewrite (proj1 Hwf) in Hb.
  assert (0 <= 2 ^ s) by (apply Z.pow_nonneg; lia).
  rewrite Z2Nat.id in Hb by lia. lia.
Qed.

Lemma miss_accounting_witness :
  miss_count (Sim [[Line "1" 0 3; Line "1" 2 4]; [Line "0" 0 0; Line "0" 0 0]] 3 1 1)
  = eviction_count (Sim [[Line "1" 0 3; Line "1" 2 4]; [Line "0" 0 0; Line "0" 0 0]] 3 1 1)
    + valid_lines [[Line "1" 0 3; Line "1" 2 4]; [Line "0" 0 0; Line "0" 0 0]].
Proof.
  apply (miss_accounting 1 1 2
           (Sim [[Line "1" 0 3; Line "1" 2 4]; [Line "0" 0 0; Line "0" 0 0]] 3 1 1)).
  apply (simulate_reachable 1 1 2
           [("L"%char, 0); ("L"%char, 4); ("L"%char, 0); ("L"%char, 8)]).
  vm_compute. reflexivity.
Defined.

(** ** Blocks *)

Lemma block_split (s b addr : Z) :
  0 <= s -> 0 <= b ->
  Z.shiftr addr b =
  Z.shiftr addr (s + b) * 2 ^ s + Z.land (Z.shiftr addr b) (2 ^ s - 1).
Proof.
  intros Hs Hb.
  replace (2 ^ s - 1) with (Z.ones s) by (rewrite Z.ones_equiv; lia).
  rewrite Z.land_ones by lia.
  replace (Z.shiftr addr (s + b)) with (Z.shiftr (Z.shiftr addr b) s)
    by (rewrite Z.shiftr_shiftr by lia; f_equal; lia).
  rewrite (Z.shiftr_div_pow2 (Z.shiftr addr b) s) by lia.
  assert (H2 : 0 < 2 ^ s) by (apply Z.pow_pos_nonneg; lia).
  pose proof (Z.div_mod (Z.shiftr addr b) (2 ^ s) ltac:(lia)). lia.
Qed.

(** X6. For [0 <= s <= 52] and [s + b <= 63] the decomposition loses only
    the block offset: the address is
    [targTag * 2^(s+b) + targSet * 2^b + offset] with
    [offset = addr mod 2^b], and two addresses get the same set index and
    tag exactly when they lie in the same block ([addr >> b] equal). *)
Theorem decomposition_round_trip (s b a1 a2 ts tt : Z) :
  0 <= s <= 52 -> 0 <= b -> s + b <= 63 ->
  targSet s b a1 = Ok ts -> targTag s b a1 = Ok tt ->
  a1 = tt * 2 ^ (s + b) + ts * 2 ^ b + a1 mod 2 ^ b /\
  (targSet s b a2 = Ok ts /\ targTag s b a2 = Ok tt <->
   Z.shiftr a2 b = Z.shiftr a1 b).
Proof.
  intros Hs Hb Hsb Hts Htt.
  rewrite targSet_exact in Hts by lia. rewrite targTag_exact in Htt by lia.
  inversion Hts as [Hts']. inversion Htt as [Htt']. clear Hts Htt.
  pose proof (block_split s b a1 ltac:(lia) Hb) as H1.
  assert (H2b : 0 < 2 ^ b) by (apply Z.pow_pos_nonneg; lia).
  split.
  - pose proof (Z.div_mod a1 (2 ^ b) ltac:(lia)) as Hd.
    rewrite <- Z.shiftr_div_pow2 in Hd by lia.
    rewrite Z.pow_add_r by lia. rewrite H1 in Hd at 1. lia.
  - rewrite targSet_exact by lia. rewrite targTag_exact by lia. split.
    + intros [Hs2 Ht2]. inversion Hs2 as [Hs2']. inversion Ht2 as [Ht2'].
      rewrite (block_split s b a2 ltac:(lia) Hb), H1. congruence.
    + intros Heq. split; f_equal.
      * rewrite Heq. reflexivity.
      * replace (Z.shiftr a2 (s + b)) with (Z.shiftr (Z.shiftr a2 b) s)
          by (rewrite Z.shiftr_shiftr by lia; f_equal; lia).
        rewrite Heq. rewrite Z.shiftr_shiftr by lia. f_equal. lia.
Qed.

Lemma decomposition_round_trip_witness :
  0x7ff0005c8 = 0x1ffc001 * 2 ^ (5 + 5) + 14 * 2 ^ 5 + 0x7ff0005c8 mod 2 ^ 5.
Proof.
  apply (decomposition_round_trip 5 5 0x7ff0005c8 0x7ff0005c8 14 0x1ffc001);
    try lia; vm_compute; reflexivity.
Defined.

(** ** Locality *)

Section Locality.

Variables s b E : Z.

(** After a completed call the tag is resident in the target set. *)
Lemma access_resident st addr st' ts tt :
  wf_cache s E (cache st) ->
  targSet s b addr = Ok ts -> targTag s b addr = Ok tt ->
  accessData s b E st addr = Ok st' ->
  exists set', index (cache st') ts = Ok set' /\
               length set' = Z.to_nat E /\ resident tt set'.
Proof.
  intros Hwf Hts Htt H.
  destruct (accessData_effect s b E st addr st' Hwf H)
    as (ts' & tt' & set & i & line & Hts' & Htt' & Hidx & Hi & Hc & _).
  rewrite Hts in Hts'; inversion Hts'; subst ts'.
  rewrite Htt in Htt'; inversion Htt'; subst tt'.
  pose proof Hidx as Hidx0. apply index_Ok in Hidx0 as [_ Hset].
  destruct (proj2 Hwf _ _ Hset) as (Hlen & _ & _).
  rewrite Hc. eexists. split; [eapply index_insert, Hidx|].
  split; [rewrite length_insert; exact Hlen|].
  exists i, (Line "1" tt (max_counter set + 1)). split; [|split; reflexivity].
  apply list_lookup_insert_eq. eapply lookup_lt_Some, Hi.
Qed.

Lemma second_access_hits st a a' st1 st2 :
  wf_cache s E (cache st) ->
  targSet s b a' = targSet s b a -> targTag s b a' = targTag s b a ->
  accessData s b E st a = Ok st1 ->
  accessData s b E st1 a' = Ok st2 ->
  hit_count st2 = hit_count st1 + 1 /\ miss_count st2 = miss_count st1 /\
  eviction_count st2 = eviction_count st1.
Proof.
  intros Hwf Hset Htag H1 H2.
  pose proof H1 as Hacc. apply accessData_access in Hacc.
  assert (Hctx : exists ts tt, targSet s b a = Ok ts /\ targTag s b a = Ok tt)
    by (destruct Hacc; eauto).
  destruct Hctx as (ts & tt & Hts & Htt).
  destruct (access_resident st a st1 ts tt Hwf Hts Htt H1) as (set1 & Hidx1 & Hlen1 & Hres1).
  rewrite Hts in Hset. rewrite Htt in Htag.
  destruct (resident_hit s b E st1 a' ts tt set1 st2 Hset Htag Hidx1 Hlen1 Hres1 H2)
    as (i & line & _ & _ & _ & _ & ->).
  simpl. repeat split.
Qed.

End Locality.

(** X7. After a completed call at address [a], a call at any address [a']
    with the same set index and tag (that is, in the same block) is a
    hit: it adds one to [hit_count] and nothing to [miss_count] or
    [eviction_count]. The second call completes whenever [hit_count + 1]
    and the new stamp fit in an [int]. *)
Theorem same_block_hits (s b E : Z) (st : sim) (a a' : Z) (st1 : sim) :
  wf_cache s E (cache st) ->
  targSet s b a' = targSet s b a -> targTag s b a' = targTag s b a ->
  accessData s b E st a = Ok st1 ->
  (INT_MIN <= hit_count st1 + 1 <= INT_MAX ->
   (forall i set, cache st1 !! i = Some set -> max_counter set + 1 <= INT_MAX) ->
   exists st2, accessData s b E st1 a' = Ok st2) /\
  (forall st2,
     accessData s b E st1 a' = Ok st2 ->
     hit_count st2 = hit_count st1 + 1 /\ miss_count st2 = miss_count st1 /\
     eviction_count st2 = eviction_count st1).
Proof.
  intros Hwf Hset Htag H1. split.
  - intros Hh Hmax.
    pose proof H1 as Hacc. apply accessData_access in Hacc.
    assert (Hctx : exists ts tt, targSet s b a = Ok ts /\ targTag s b a = Ok tt)
      by (destruct Hacc; eauto).
    destruct Hctx as (ts & tt & Hts & Htt).
    destruct (access_resident s b E st a st1 ts tt Hwf Hts Htt H1)
      as (set1 & Hidx1 & Hlen1 & Hres1).
    rewrite Hts in Hset. rewrite Htt in Htag.
    apply (resident_hit_defined s b E st1 a' ts tt set1); try assumption.
    apply index_Ok in Hidx1 as [_ Hidx1]. apply (Hmax _ _ Hidx1).
  - intros st2 H2. apply (second_access_hits s b E st a a' st1 st2); assumption.
Qed.

Lemma same_block_hits_witness :
  hit_count (Sim [[Line "1" 0 1]; [Line "1" 3 2]] 2 1 0) =
  hit_count (Sim [[Line "1" 0 1]; [Line "1" 3 1]] 2 0 0) + 1.
Proof.
  apply (proj2 (same_block_hits 1 2 1 (Sim [[Line "1" 0 1]; [Line "0" 0 0]] 1 0 0)
           28 31 (Sim [[Line "1" 0 1]; [Line "1" 3 1]] 2 0 0)
           (reachable_wf 1 2 1 _
              (simulate_reachable 1 2 1 [("L"%char, 0)] _ ltac:(vm_compute; reflexivity)))
           ltac:(vm_compute; reflexivity) ltac:(vm_compute; reflexivity)
           ltac:(vm_compute; reflexivity))).
  vm_compute. reflexivity.
Defined.

(** X8. A completed [M] line on a well-formed cache gives two hits, or a
    miss followed by a hit with at most one eviction; it never gives two
    misses. *)
Theorem modify_outcomes (s b E : Z) (st : sim) (addr : Z) (st' : sim) :
  wf_cache s E (cache st) ->
  replayLine s b E st ("M"%char, addr) = Ok st' ->
  (hit_count st' = hit_count st + 2 /\ miss_count st' = miss_count st /\
   eviction_count st' = eviction_count st) \/
  (hit_count st' = hit_count st + 1 /\ miss_count st' = miss_count st + 1 /\
   (eviction_count st' = eviction_count st \/
    eviction_count st' = eviction_count st + 1)).
Proof.
  intros Hwf H.
  change (replayLine s b E st ("M"%char, addr))
    with (st1 ← accessData s b E st addr; accessData s b E st1 addr) in H.
  apply bind_Ok in H as (st1 & H1 & H2).
  pose proof (second_access_hits s b E st addr addr st1 st' Hwf eq_refl eq_refl H1 H2)
    as (Hh & Hm & He).
  apply accessData_access, access_counts in H1. lia.
Qed.

Lemma modify_outcomes_witness :
  hit_count (Sim [[Line "1" 1 2]; [Line "0" 0 0]] 1 1 0) = 0 + 1.
Proof.
  destruct (modify_outcomes 1 1 1 (Sim [[Line "0" 0 0]; [Line "0" 0 0]] 0 0 0) 4
              (Sim [[Line "1" 1 2]; [Line "0" 0 0]] 1 1 0)) as [(H & _)|(H & _)].
  - apply (initCache_wf 1 1). vm_compute. reflexivity.
  - vm_compute. reflexivity.
  - simpl in H. discriminate.
  - exact H.
Defined.

(** ** Traces *)

Section Traces.

Variables s b E : Z.

Lemma replayTrace_app t1 t2 st :
  replayTrace s b E (t1 ++ t2) st =
  (st1 ← replayTrace s b E t1 st; replayTrace s b E t2 st1).
Proof.
  revert st. induction t1 as [|line t1 IH]; intros st; simpl; [reflexivity|].
  destruct (replayLine s b E st line) as [st1|u]; simpl; [apply IH | reflexivity].
Qed.

Lemma replayLine_expand st line :
  replayLine s b E st line = replayTrace s b E (expand_line line) st.
Proof.
  destruct line as [op addr]. unfold replayLine, expand_line.
  destruct (Ascii.eqb op "L") eqn:HL.
  - simpl. destruct (accessData s b E st addr); reflexivity.
  - destruct (Ascii.eqb op "S") eqn:HS.
    + simpl. destruct (accessData s b E st addr); reflexivity.
    + destruct (Ascii.eqb op "M") eqn:HM; [|reflexivity].
      simpl. destruct (accessData s b E st addr) as [st1|u]; simpl; [|reflexivity].
      destruct (accessData s b E st1 addr); reflexivity.
Qed.

End Traces.

(** X9. Replaying a trace is replaying its expansion into loads: a store
    is handled exactly like a load, an [M] line exactly like two loads of
    its address, and a line with any other operation character (an
    instruction fetch, a blank or malformed line) has no effect at all.
    Replaying a concatenation is replaying the parts in turn. The
    expansion has as many lines as the trace has accesses. *)
Theorem replay_expand (s b E : Z) (trace t1 t2 : list trace_line) (st : sim) :
  replayTrace s b E trace st = replayTrace s b E (expand trace) st /\
  replayTrace s b E (t1 ++ t2) st =
    (st1 ← replayTrace s b E t1 st; replayTrace s b E t2 st1) /\
  Z.of_nat (length (expand trace)) = accesses trace /\
  (forall line, In line (expand trace) -> fst line = "L"%char).
Proof.
  split; [|split; [apply replayTrace_app|split]].
  - revert st. induction trace as [|line trace IH]; intros st; [reflexivity|].
    simpl. rewrite replayTrace_app, <- replayLine_expand.
    destruct (replayLine s b E st line) as [st1|u]; simpl; [apply IH | reflexivity].
  - induction trace as [|[op addr] trace IH]; [reflexivity|].
    simpl. rewrite length_app, Nat2Z.inj_add, IH.
    destruct (Ascii.eqb op "L"); [reflexivity|].
    destruct (Ascii.eqb op "S"); [reflexivity|].
    destruct (Ascii.eqb op "M"); reflexivity.
  - induction trace as [|[op addr] trace IH]; intros line Hin; [destruct Hin|].
    simpl in Hin. apply in_app_or in Hin as [Hin|Hin]; [|apply IH, Hin].
    destruct (Ascii.eqb op "L"); [|destruct (Ascii.eqb op "S");
      [|destruct (Ascii.eqb op "M")]]; simpl in Hin;
      repeat (destruct Hin as [<-|Hin]; [reflexivity|]); destruct Hin.
Qed.

(** ** Edge geometries *)

Lemma accessData_no_lines (s b E : Z) (st : sim) (addr : Z) :
  E <= 0 -> exists u, accessData s b E st addr = Fault u.
Proof.
  intros HE.
  destruct (accessData s b E st addr) as [st'|u] eqn:H; [|eauto].
  exfalso. apply accessData_access in H.
  assert (HE0 : Z.to_nat E = O) by lia.
  destruct H
    as [ts tt set mn mx mi i line Hset Htag Hidx Hscan Hfind Hline Hhits Hstamp ->
       |ts tt set mn mx mi k line Hset Htag Hidx Hscan Hfind Hmisses Hempty Hline Hstamp ->
       |ts tt set mn mx mi line Hset Htag Hidx Hscan Hfind Hmisses Hempty Hev Hstamp Hline ->];
    rewrite HE0 in *; simpl in *; try discriminate.
  inversion Hscan; subst. apply index_Ok in Hline as [Hneg _]. lia.
Qed.

(** X10. With [E <= 0] no call ever completes: the loops do not run, the
    call counts a miss and an eviction and then indexes the set at
    [minIndex = -1]. ([main] rejects [E = 0] but not a negative [E].) *)
Theorem no_lines_no_access (s b E : Z) (st : sim) (addr : Z) :
  E <= 0 -> exists u, accessData s b E st addr = Fault u.
Proof. apply accessData_no_lines. Qed.

Lemma no_lines_no_access_witness :
  exists u, accessData 1 1 (-1) (Sim [[]; []] 0 0 0) 0 = Fault u.
Proof. apply (no_lines_no_access 1 1 (-1)). lia. Defined.

(** X11. [initCache] needs [S = 2^s] to fit in an [int]: for
    [0 <= s <= 30] it builds [2^s] sets of [E] lines, every line
    [valid = '0'], [tag = 0], [counter = 0]; for [s >= 31] the conversion
    of [pow(2, s)] to [int] is out of range. *)
Theorem initCache_bounds (s E : Z) :
  0 <= s ->
  (s <= 30 ->
   exists c, initCache s E = Ok c /\
     length c = Z.to_nat (2 ^ s) /\
     forall i set, c !! i = Some set ->
       length set = Z.to_nat E /\
       forall k line, set !! k = Some line -> line = Line "0" 0 0) /\
  (31 <= s -> initCache s E = Fault BadConversion).
Proof.
  intros Hs. split.
  - intros Hle. eexists. split; [apply initCache_Ok; split; [lia | reflexivity]|].
    split; [apply length_replicate|].
    intros i set Hi. apply lookup_replicate in Hi as [-> _].
    split; [apply length_replicate|].
    intros k line Hk. apply lookup_replicate in Hk as [-> _]. reflexivity.
  - intros Hge. unfold initCache. rewrite int_of_pow2_big by exact Hge.
    reflexivity.
Qed.

Lemma initCache_bounds_witness :
  initCache 31 4 = Fault BadConversion.
Proof. apply (initCache_bounds 31 4); lia. Defined.

(** ** The recency clock *)

Lemma max_counter_fresh (n : nat) :
  max_counter (replicate n (Line "0" 0 0)) = 0.
Proof. induction n as [|n IH]; simpl; [reflexivity | rewrite IH; reflexivity]. Qed.

Lemma max_counter_le_total (c : cache_t) i set :
  c !! i = Some set -> 0 <= max_counter set <= total max_counter c.
Proof.
  revert i. induction c as [|a c IH]; intros i Hi; [discriminate|]. simpl.
  assert (Hc : 0 <= total max_counter c).
  { clear. induction c as [|x c IH]; simpl; [lia|].
    pose proof (proj1 (max_counter_spec x)). lia. }
  pose proof (proj1 (max_counter_spec a)).
  destruct i as [|i]; simpl in Hi.
  - inversion Hi; subst. lia.
  - specialize (IH i Hi). lia.
Qed.

Section Clock.

Variables s b E : Z.

Lemma access_clock st addr st' :
  wf_cache s E (cache st) ->
  accessData s b E st addr = Ok st' ->
  total max_counter (cache st') = total max_counter (cache st) + 1.
Proof.
  intros Hwf H.
  destruct (accessData_effect s b E st addr st' Hwf H)
    as (ts & tt & set & i & line & _ & _ & Hidx & Hi & Hc & _).
  apply index_Ok in Hidx as [_ Hset]. rewrite Hc.
  rewrite (total_insert _ _ _ set) by exact Hset.
  rewrite (max_counter_stamp set i line) by exact Hi. lia.
Qed.

End Clock.

(** X12. The counters form one clock per set: every completed call raises
    the largest counter of its set by exactly one and leaves the other
    sets alone, so in every reachable state the largest counters of all
    sets add up to [hit_count + miss_count], and no line carries a
    counter above the number of calls made so far. *)
Theorem recency_clock (s b E : Z) (st : sim) :
  reachable s b E st ->
  total max_counter (cache st) = hit_count st + miss_count st /\
  (forall i set k line,
     cache st !! i = Some set -> set !! k = Some line ->
     0 <= counter line <= hit_count st + miss_count st).
Proof.
  intros Hr. pose proof (reachable_wf s b E st Hr) as Hwf.
  destruct Hr as (c & Hc & Hsteps).
  assert (Hinit : wf_cache s E (cache (Sim c 0 0 0))) by (apply initCache_wf, Hc).
  assert (Hsum : total max_counter (cache st) = hit_count st + miss_count st).
  { assert (H0 : total max_counter (cache (Sim c 0 0 0)) =
                 hit_count (Sim c 0 0 0) + miss_count (Sim c 0 0 0)).
    { simpl. apply initCache_Ok in Hc as [_ ->]. rewrite total_replicate.
      rewrite max_counter_fresh. lia. }
    clear Hwf. induction Hsteps as [st|st st1 st2 addr Hs IH Hacc]; [exact H0|].
    rewrite (access_clock s b E st1 addr st2); [| |exact Hacc].
    - rewrite (IH Hinit H0). apply accessData_access, access_counts in Hacc. lia.
    - apply (steps_wf s b E st st1 Hinit Hs). }
  split; [exact Hsum|]. intros i set k line Hi Hk.
  destruct (proj2 Hwf i set Hi) as (_ & _ & Hlines).
  split; [apply (Hlines k line Hk)|].
  pose proof (proj1 (proj2 (max_counter_spec set)) k line Hk) as Hle.
  pose proof (max_counter_le_total (cache st) i set Hi). lia.
Qed.

Lemma recency_clock_witness :
  total max_counter [[Line "1" 0 3; Line "1" 2 4]; [Line "0" 0 0; Line "0" 0 0]] = 1 + 3.
Proof.
  apply (recency_clock 1 1 2
           (Sim [[Line "1" 0 3; Line "1" 2 4]; [Line "0" 0 0; Line "0" 0 0]] 3 1 1)).
  apply (simulate_reachable 1 1 2
           [("L"%char, 0); ("L"%char, 4); ("L"%char, 0); ("L"%char, 8)]).
  vm_compute. reflexivity.
Defined.

(** ** Retention under LRU *)

Lemma full_unique_NoDup (set : cache_set_t) :
  full set -> unique_tags set -> NoDup (tag <$> set).
Proof.
  intros Hfull Hu. apply NoDup_alt. intros i j t Hi Hj.
  apply list_lookup_fmap_Some in Hi as (li & -> & Hi).
  apply list_lookup_fmap_Some in Hj as (lj & Ht & Hj).
  apply (Hu i j li lj Hi Hj (Hfull _ _ Hi) (Hfull _ _ Hj) Ht).
Qed.

Section Retention.

Variables s b E : Z.
Variable others : list Z.
Variables ts tt : Z.
Hypothesis Hfew : Z.of_nat (length others) < E.

Lemma access_retained st addr st' set :
  wf_cache s E (cache st) -> tidy (cache st) ->
  index (cache st) ts = Ok set ->
  retained others tt set ->
  (targSet s b addr = Ok ts ->
   forall t', targTag s b addr = Ok t' -> t' = tt \/ t' ∈ others) ->
  accessData s b E st addr = Ok st' ->
  exists set', index (cache st') ts = Ok set' /\ retained others tt set'.
Proof.
  intros Hwf Htidy Hidx (i & li & Hi & Hvi & Hti & Hlarger) Htags H.
  pose proof (access_wf s b E st addr st' Hwf (proj1 (accessData_access s b E _ _ _) H))
    as Hwf'.
  destruct (accessData_effect s b E st addr st' Hwf H)
    as (ts' & u & set0 & j & lj & Hts' & Htu & Hidx' & Hj & Hc & Hkind).
  pose proof Hidx as Hidx0. apply index_Ok in Hidx0 as [Hts0 Hset].
  pose proof Hidx' as Hidx1. apply index_Ok in Hidx1 as [Hts1 Hset0].
  destruct (decide (ts' = ts)) as [->|Hne].
  2: { exists set. split.
       - apply index_Ok. split; [exact Hts0|]. rewrite Hc.
         rewrite list_lookup_insert_ne by lia. exact Hset.
       - exists i, li. auto. }
  rewrite Hset in Hset0. inversion Hset0; subst set0. clear Hset0 Hidx'.
  specialize (Htags Hts' u Htu).
  destruct (proj2 Hwf _ _ Hset) as (Hlen & Huniq & Hlines).
  destruct (max_counter_spec set) as (M0 & Mle & _).
  assert (Hnew : index (cache st') ts =
                 Ok (<[j := Line "1" u (max_counter set + 1)]> set))
    by (rewrite Hc; eapply index_insert, Hidx).
  eexists. split; [exact Hnew|].
  assert (Hres : resident tt set) by (exists i, li; auto).
  destruct (decide (j = i)) as [->|Hji].
  - rewrite Hi in Hj. inversion Hj; subst lj.
    destruct Hkind as [(_ & Htag & _)|[(_ & Hv & _)|(Hnr & Hfull & Hmin & _)]].
    + exists i, (Line "1" u (max_counter set + 1)).
      split; [apply list_lookup_insert_eq; eapply lookup_lt_Some, Hi|].
      split; [reflexivity|]. split; [simpl; congruence|].
      intros k l Hk _ Hlt. exfalso. simpl in Hlt.
      apply list_lookup_insert_Some in Hk as [(_ & <- & _)|[_ Hk]]; simpl in Hlt; [lia|].
      specialize (Mle k l Hk). lia.
    + congruence.
    + exfalso.
      assert (Hu : u ∈ others).
      { destruct Htags as [->|Hu]; [contradiction | exact Hu]. }
      set (set' := <[i := Line "1" u (max_counter set + 1)]> set) in *.
      assert (Hset' : cache st' !! Z.to_nat ts = Some set').
      { apply index_Ok in Hnew as [_ Hn]. exact Hn. }
      destruct (proj2 Hwf' _ _ Hset') as (Hlen' & Huniq' & _).
      assert (Hfull' : full set').
      { intros k l Hk. unfold set' in Hk.
        apply list_lookup_insert_Some in Hk as [(_ & <- & _)|[_ Hk]];
          [reflexivity | apply (Hfull k l Hk)]. }
      pose proof (full_unique_NoDup set' Hfull' Huniq') as Hnd.
      assert (Hincl : forall x, x ∈ tag <$> set' -> x ∈ others).
      { intros x Hx. apply list_elem_of_fmap in Hx as (l & -> & Hl).
        apply list_elem_of_lookup in Hl as (k & Hk). unfold set' in Hk.
        apply list_lookup_insert_Some in Hk as [(_ & <- & _)|[Hki Hk]]; [exact Hu|].
        apply (Hlarger k l Hk (Hfull k l Hk)).
        pose proof (Hmin k l Hk) as Hle.
        destruct (Z.eq_dec (counter li) (counter l)) as [Heq|Hneq]; [|lia].
        exfalso. apply Hki. destruct (Htidy _ _ Hset) as (_ & _ & _ & Hd).
        apply (Hd i k li l Hi Hk Hvi (Hfull k l Hk) Heq). }
      pose proof (submseteq_length _ _ (NoDup_submseteq _ _ Hnd Hincl)) as Hle.
      rewrite length_fmap, Hlen' in Hle. lia.
  - exists i, li.
    split; [rewrite list_lookup_insert_ne by auto; exact Hi|].
    split; [exact Hvi|]. split; [exact Hti|].
    intros k l Hk Hv Hlt.
    apply list_lookup_insert_Some in Hk as [(_ & <- & _)|[_ Hk]];
      [|apply (Hlarger k l Hk Hv Hlt)].
    simpl. destruct Htags as [->|Hu]; [|exact Hu]. exfalso.
    destruct Hkind as [(Hvj & Htj & _)|[(Hnr & _)|(Hnr & _)]]; try contradiction.
    apply Hji. apply (Huniq j i lj li Hj Hi Hvj Hvi). congruence.
Qed.

Lemma replayTrace_retained trace st st' set :
  wf_cache s E (cache st) -> tidy (cache st) ->
  index (cache st) ts = Ok set ->
  retained others tt set ->
  (forall op addr t',
     In (op, addr) trace -> accesses_of (op, addr) <> 0 ->
     targSet s b addr = Ok ts ->
     targTag s b addr = Ok t' -> t' = tt \/ t' ∈ others) ->
  replayTrace s b E trace st = Ok st' ->
  exists set', index (cache st') ts = Ok set' /\ retained others tt set'.
Proof.
  revert st set. induction trace as [|[op addr] trace IH];
    intros st set Hwf Htidy Hidx Hret Htags H.
  - simpl in H. inversion H; subst. eauto.
  - change (replayTrace s b E ((op, addr) :: trace) st)
      with (st1 ← replayLine s b E st (op, addr); replayTrace s b E trace st1) in H.
    apply bind_Ok in H as (st1 & H1 & H2).
    assert (Hrest : forall op' addr' t',
              In (op', addr') trace -> accesses_of (op', addr') <> 0 ->
              targSet s b addr' = Ok ts ->
              targTag s b addr' = Ok t' -> t' = tt \/ t' ∈ others)
      by (intros op' addr' t' Hin; apply (Htags op' addr' t'); right; exact Hin).
    assert (Hone : forall sta stb seta,
              accesses_of (op, addr) <> 0 ->
              wf_cache s E (cache sta) -> tidy (cache sta) ->
              index (cache sta) ts = Ok seta -> retained others tt seta ->
              accessData s b E sta addr = Ok stb ->
              wf_cache s E (cache stb) /\ tidy (cache stb) /\
              exists setb, index (cache stb) ts = Ok setb /\ retained others tt setb).
    { intros sta stb seta Hn0 Hwa Hta Hia Hra Hacc.
      assert (Hhere : targSet s b addr = Ok ts ->
                forall t', targTag s b addr = Ok t' -> t' = tt \/ t' ∈ others)
        by (intros Hs t' Ht; apply (Htags op addr t');
            [left; reflexivity | exact Hn0 | exact Hs | exact Ht]).
      split; [|split].
      - apply (access_wf s b E sta addr stb Hwa). apply accessData_access, Hacc.
      - apply (access_tidy s b E sta addr stb Hwa Hta Hacc).
      - apply (access_retained sta addr stb seta); assumption. }
    apply replayLine_cases in H1 as [[_ ->]|[[Hn H1]|(Hn & stm & H1 & H1')]];
      change (snd (op, addr)) with addr in *.
    + apply (IH st set); assumption.
    + assert (Hn0 : accesses_of (op, addr) <> 0) by lia.
      destruct (Hone st st1 set Hn0 Hwf Htidy Hidx Hret H1)
        as (Hw1 & Ht1 & set1 & Hi1 & Hr1).
      apply (IH st1 set1); assumption.
    + assert (Hn0 : accesses_of (op, addr) <> 0) by lia.
      destruct (Hone st stm set Hn0 Hwf Htidy Hidx Hret H1)
        as (Hwm & Htm & setm & Him & Hrm).
      destruct (Hone stm st1 setm Hn0 Hwm Htm Him Hrm H1')
        as (Hw1 & Ht1 & set1 & Hi1 & Hr1).
      apply (IH st1 set1); assumption.
Qed.

End Retention.

(** X13. A block stays in the cache as long as fewer than [E] other
    blocks of its set are touched. After a completed call at [a] (set
    [ts], tag [tt]) in a reachable state, replay any trace to
    completion: if the tags other than [tt] that the [L], [S] and [M]
    lines of the trace send to set [ts] all belong to a list of fewer
    than [E] tags, then [tt] is still resident at the end, and a call at
    [a] that completes next is a hit. *)
Theorem lru_retention (s b E : Z) (st0 st st' : sim) (a ts tt : Z)
    (trace : list trace_line) (others : list Z) :
  reachable s b E st0 ->
  targSet s b a = Ok ts -> targTag s b a = Ok tt ->
  accessData s b E st0 a = Ok st ->
  replayTrace s b E trace st = Ok st' ->
  (forall op addr t',
     In (op, addr) trace -> accesses_of (op, addr) <> 0 ->
     targSet s b addr = Ok ts ->
     targTag s b addr = Ok t' -> t' = tt \/ t' ∈ others) ->
  Z.of_nat (length others) < E ->
  (exists set', index (cache st') ts = Ok set' /\ resident tt set') /\
  (forall st'',
     accessData s b E st' a = Ok st'' ->
     hit_count st'' = hit_count st' + 1 /\ miss_count st'' = miss_count st' /\
     eviction_count st'' = eviction_count st').
Proof.
  intros Hr Hts Htt H0 Hrun Htags Hfew.
  pose proof (reachable_wf s b E st0 Hr) as Hwf0.
  assert (Htidy0 : tidy (cache st0)).
  { destruct Hr as (c & Hc & Hsteps).
    apply (steps_tidy s b E (Sim c 0 0 0) st0); simpl;
      [apply initCache_wf, Hc | apply (initCache_tidy s E c Hc) | exact Hsteps]. }
  assert (Hwf : wf_cache s E (cache st))
    by (apply (access_wf s b E st0 a st Hwf0); apply accessData_access, H0).
  pose proof (access_tidy s b E st0 a st Hwf0 Htidy0 H0) as Htidy.
  assert (Hstart : exists set, index (cache st) ts = Ok set /\ retained others tt set).
  { destruct (accessData_effect s b E st0 a st Hwf0 H0)
      as (ts' & tt' & set & i & line & Hts' & Htt' & Hidx & Hi & Hc & _).
    rewrite Hts in Hts'; inversion Hts'; subst ts'.
    rewrite Htt in Htt'; inversion Htt'; subst tt'.
    eexists. split; [rewrite Hc; eapply index_insert, Hidx|].
    exists i, (Line "1" tt (max_counter set + 1)).
    split; [apply list_lookup_insert_eq; eapply lookup_lt_Some, Hi|].
    split; [reflexivity|]. split; [reflexivity|].
    intros k l Hk _ Hlt. exfalso. simpl in Hlt.
    apply list_lookup_insert_Some in Hk as [(_ & <- & _)|[_ Hk]]; simpl in Hlt; [lia|].
    pose proof (proj1 (proj2 (max_counter_spec set)) k l Hk). lia. }
  destruct Hstart as (set & Hidx & Hret).
  destruct (replayTrace_retained s b E others ts tt Hfew trace st st' set
              Hwf Htidy Hidx Hret Htags Hrun) as (set' & Hidx' & (i & line & Hi & Hv & Ht & _)).
  assert (Hres : resident tt set') by (exists i, line; auto).
  split; [exists set'; auto|].
  intros st'' H''.
  assert (Hwf' : wf_cache s E (cache st')).
  { apply (steps_wf s b E st st' Hwf). eapply replayTrace_steps, Hrun. }
  pose proof Hidx' as Hidx0. apply index_Ok in Hidx0 as [_ Hset'].
  destruct (proj2 Hwf' _ _ Hset') as (Hlen' & _ & _).
  destruct (resident_hit s b E st' a ts tt set' st'' Hts Htt Hidx' Hlen' Hres H'')
    as (i' & line' & _ & _ & _ & _ & ->).
  simpl. repeat split.
Qed.

Lemma lru_retention_witness :
  exists set', index [[Line "1" 0 1; Line "1" 1 3]; [Line "1" 0 1; Line "0" 0 0]] 0 = Ok set' /\
               resident 0 set'.
Proof.
  apply (lru_retention 1 1 2
           (Sim [[Line "0" 0 0; Line "0" 0 0]; [Line "0" 0 0; Line "0" 0 0]] 0 0 0)
           (Sim [[Line "1" 0 1; Line "0" 0 0]; [Line "0" 0 0; Line "0" 0 0]] 1 0 0)
           (Sim [[Line "1" 0 1; Line "1" 1 3]; [Line "1" 0 1; Line "0" 0 0]] 3 1 0)
           0 0 0 [("L"%char, 4); ("I"%char, 8); ("S"%char, 2); ("L"%char, 5)] [1]).
  - exists [[Line "0" 0 0; Line "0" 0 0]; [Line "0" 0 0; Line "0" 0 0]].
    split; [vm_compute; reflexivity | apply steps_refl].
  - vm_compute. reflexivity.
  - vm_compute. reflexivity.
  - vm_compute. reflexivity.
  - vm_compute. reflexivity.
  - intros op addr t' [Hin|[Hin|[Hin|[Hin|[]]]]]; inversion Hin; subst;
      vm_compute; intros Hn Hs Ht; try (exfalso; apply Hn; reflexivity);
      inversion Hs; inversion Ht; subst; right; apply list_elem_of_here.
  - simpl. lia.
Defined.

(** * Memory and the driver *)

(** ** Allocation lemmas *)

Lemma malloc_fresh (h : heap) n mk h' p :
  malloc h n mk = (h', p) ->
  (n < 0 /\ h' = h /\ p = NULL) \/
  (0 <= n /\ exists id, p = Block id /\ h !! id = None /\
                       h' = <[id := mk (Z.to_nat n)]> h).
Proof.
  unfold malloc. destruct (n <? 0) eqn:Hn; intros H; inversion H; subst.
  - left. apply Z.ltb_lt in Hn. auto.
  - right. apply Z.ltb_ge in Hn. split; [exact Hn|]. eexists. split; [reflexivity|].
    split; [|reflexivity]. apply not_elem_of_dom. apply is_fresh.
Qed.

Lemma init_lines_spec id fuel (j : nat) (h : heap) cells :
  h !! id = Some (Lines cells) ->
  length cells = (j + fuel)%nat ->
  init_lines (Block id) fuel (Z.of_nat j) h =
  Ok (<[id := Lines (take j cells ++ replicate fuel (Some (Line "0" 0 0)))]> h).
Proof.
  revert j h cells. induction fuel as [|fuel IH]; intros j h cells Hid Hlen; simpl.
  - rewrite app_nil_r, take_ge by lia. rewrite insert_id by exact Hid. reflexivity.
  - unfold set_line. rewrite Hid.
    replace ((0 <=? Z.of_nat j) && (Z.of_nat j <? Z.of_nat (length cells))) with true
      by (symmetry; apply andb_true_iff; split; [apply Z.leb_le | apply Z.ltb_lt]; lia).
    simpl. rewrite Nat2Z.id.
    replace (Z.of_nat j + 1) with (Z.of_nat (S j)) by lia.
    rewrite (IH (S j) _ (<[j := Some (Line "0" 0 0)]> cells)).
    + rewrite insert_insert_eq. do 3 f_equal.
      rewrite (take_S_r _ _ (Some (Line "0" 0 0)))
        by (apply list_lookup_insert_eq; lia).
      rewrite take_insert_ge by lia. rewrite <- app_assoc. reflexivity.
    + apply lookup_insert_eq.
    + rewrite length_insert. lia.
Qed.

Lemma init_sets_spec E c fuel (i : nat) (h : heap) cells :
  0 <= E ->
  h !! c = Some (Sets cells) ->
  length cells = (i + fuel)%nat ->
  exists qs h',
    init_sets E (Block c) fuel (Z.of_nat i) h = Ok h' /\
    length qs = fuel /\ NoDup qs /\ (c ∉ qs) /\
    (forall q, q ∈ qs -> h !! q = None) /\
    h' !! c = Some (Sets (take i cells ++ ((fun q => Some (Block q)) <$> qs))) /\
    (forall q, q ∈ qs ->
       h' !! q = Some (Lines (replicate (Z.to_nat E) (Some (Line "0" 0 0))))) /\
    (forall k, k <> c -> k ∉ qs -> h' !! k = h !! k).
Proof.
  intros HE. revert i h cells.
  induction fuel as [|fuel IH]; intros i h cells Hc Hlen.
  - exists [], h. simpl. split; [reflexivity|]. split; [reflexivity|].
    split; [constructor|]. split; [apply not_elem_of_nil|].
    split; [intros q Hq; apply elem_of_nil in Hq; contradiction|].
    split; [rewrite app_nil_r, take_ge by lia; exact Hc|].
    split; [intros q Hq; apply elem_of_nil in Hq; contradiction | reflexivity].
  - simpl. unfold malloc.
    replace (E <? 0) with false by (symmetry; apply Z.ltb_ge; lia).
    set (id := fresh (dom h)).
    assert (Hid : h !! id = None) by (apply not_elem_of_dom, is_fresh).
    assert (Hne : id <> c) by (intros ->; rewrite Hc in Hid; discriminate).
    set (h1 := <[id := Lines (replicate (Z.to_nat E) None)]> h).
    assert (H1c : h1 !! c = Some (Sets cells))
      by (unfold h1; rewrite lookup_insert_ne by exact Hne; exact Hc).
    unfold set_cell. rewrite H1c.
    replace ((0 <=? Z.of_nat i) && (Z.of_nat i <? Z.of_nat (length cells))) with true
      by (symmetry; apply andb_true_iff; split; [apply Z.leb_le | apply Z.ltb_lt]; lia).
    simpl. rewrite Nat2Z.id.
    set (cells1 := <[i := Some (Block id)]> cells).
    set (h2 := <[c := Sets cells1]> h1).
    assert (H2id : h2 !! id = Some (Lines (replicate (Z.to_nat E) None))).
    { unfold h2, h1. rewrite lookup_insert_ne by auto. apply lookup_insert_eq. }
    pose proof (init_lines_spec id (Z.to_nat E) O h2 _ H2id
                  ltac:(rewrite length_replicate; reflexivity)) as Hl.
    change (Z.of_nat 0) with 0 in Hl. rewrite take_0 in Hl. simpl in Hl.
    rewrite Hl. clear Hl.
    simpl. set (h3 := <[id := Lines (replicate (Z.to_nat E) (Some (Line "0" 0 0)))]> h2).
    assert (H3c : h3 !! c = Some (Sets cells1)).
    { unfold h3, h2. rewrite lookup_insert_ne by exact Hne. apply lookup_insert_eq. }
    replace (Z.of_nat i + 1) with (Z.of_nat (S i)) by lia.
    destruct (IH (S i) h3 cells1 H3c) as (qs & h' & Hrun & Hlq & Hnd & Hcq & Hfr & Hhc & Hhq & Hho).
    { unfold cells1. rewrite length_insert. lia. }
    assert (H3id : h3 !! id = Some (Lines (replicate (Z.to_nat E) (Some (Line "0" 0 0)))))
      by (unfold h3; apply lookup_insert_eq).
    assert (Hidq : id ∉ qs).
    { intros Hin. rewrite (Hfr id Hin) in H3id. discriminate. }
    assert (H3k : forall k, k <> c -> k <> id -> h3 !! k = h !! k).
    { intros k Hkc Hkid. unfold h3, h2, h1.
      rewrite lookup_insert_ne by auto. rewrite lookup_insert_ne by auto.
      rewrite lookup_insert_ne by auto. reflexivity. }
    exists (id :: qs), h'. split; [exact Hrun|]. split; [simpl; lia|].
    split; [constructor; assumption|].
    split; [intros Hin; apply elem_of_cons in Hin as [->|Hin]; [congruence | contradiction]|].
    split.
    { intros q Hq. apply elem_of_cons in Hq as [->|Hq]; [exact Hid|].
      rewrite <- (H3k q); [apply Hfr, Hq | | ]; intros ->; contradiction. }
    split.
    { rewrite Hhc. do 2 f_equal. unfold cells1.
      rewrite (take_S_r _ _ (Some (Block id))) by (apply list_lookup_insert_eq; lia).
      rewrite take_insert_ge by lia. rewrite <- app_assoc. reflexivity. }
    split.
    { intros q Hq. apply elem_of_cons in Hq as [->|Hq]; [|apply Hhq, Hq].
      rewrite (Hho id Hne Hidq). exact H3id. }
    intros k Hkc Hkq. apply not_elem_of_cons in Hkq as [Hkid Hkq].
    rewrite (Hho k Hkc Hkq). apply H3k; assumption.
Qed.

Lemma free_sets_spec c qs (i : nat) (h : heap) cells :
  h !! c = Some (Sets cells) ->
  drop i cells = ((fun q => Some (Block q)) <$> qs) ->
  NoDup qs -> c ∉ qs ->
  (forall q, q ∈ qs -> is_Some (h !! q)) ->
  exists h',
    free_sets (Block c) (length qs) (Z.of_nat i) h = Ok h' /\
    (forall k, k ∈ qs -> h' !! k = None) /\
    (forall k, k ∉ qs -> h' !! k = h !! k).
Proof.
  revert i h. induction qs as [|q qs IH]; intros i h Hc Hdrop Hnd Hcq Hlive.
  - exists h. simpl. split; [reflexivity|].
    split; [intros k Hk; apply elem_of_nil in Hk; contradiction | reflexivity].
  - simpl. unfold get_cell. rewrite Hc.
    replace (Z.of_nat i <? 0) with false by (symmetry; apply Z.ltb_ge; lia).
    rewrite Nat2Z.id.
    assert (Hi : cells !! i = Some (Some (Block q))).
    { pose proof (lookup_drop cells i O) as Hl. rewrite Hdrop in Hl. simpl in Hl.
      rewrite Nat.add_0_r in Hl. symmetry. exact Hl. }
    rewrite Hi. simpl.
    destruct (Hlive q ltac:(apply elem_of_cons; left; reflexivity)) as [blk Hq].
    rewrite Hq. simpl.
    apply NoDup_cons in Hnd as [Hqq Hnd].
    apply not_elem_of_cons in Hcq as [Hcq' Hcq].
    replace (Z.of_nat i + 1) with (Z.of_nat (S i)) by lia.
    destruct (IH (S i) (delete q h)) as (h' & Hrun & Hgone & Hkept).
    + rewrite lookup_delete_ne by auto. exact Hc.
    + rewrite <- (drop_drop cells 1 i) || idtac.
      assert (Hd : drop (S i) cells = drop 1 (drop i cells))
        by (rewrite drop_drop; f_equal; lia).
      rewrite Hd, Hdrop. reflexivity.
    + exact Hnd.
    + exact Hcq.
    + intros q' Hq'. rewrite lookup_delete_ne by (intros ->; contradiction).
      apply Hlive. apply elem_of_cons. right. exact Hq'.
    + exists h'. split; [exact Hrun|]. split.
      * intros k Hk. apply elem_of_cons in Hk as [->|Hk]; [|apply Hgone, Hk].
        rewrite (Hkept q Hqq). apply lookup_delete_eq.
      * intros k Hk. apply not_elem_of_cons in Hk as [Hkq Hk].
        rewrite (Hkept k Hk). apply lookup_delete_ne. auto.
Qed.

Lemma collect_const {A B : Type} (f : A -> outcome B) (l : list A) y :
  (forall x, x ∈ l -> f x = Ok y) ->
  collect f l = Ok (replicate (length l) y).
Proof.
  induction l as [|x l IH]; intros H; simpl; [reflexivity|].
  rewrite (H x) by (apply elem_of_cons; left; reflexivity). simpl.
  rewrite IH by (intros x' Hx'; apply H, elem_of_cons; right; exact Hx').
  reflexivity.
Qed.

Lemma init_sets_null E c fuel (i : nat) (h : heap) cells :
  E < 0 ->
  h !! c = Some (Sets cells) ->
  length cells = (i + fuel)%nat ->
  init_sets E (Block c) fuel (Z.of_nat i) h =
  Ok (<[c := Sets (take i cells ++ replicate fuel (Some NULL))]> h).
Proof.
  intros HE. revert i h cells.
  induction fuel as [|fuel IH]; intros i h cells Hc Hlen; simpl.
  - rewrite app_nil_r, take_ge by lia. rewrite insert_id by exact Hc. reflexivity.
  - unfold malloc. replace (E <? 0) with true by (symmetry; apply Z.ltb_lt; lia).
    unfold set_cell. rewrite Hc.
    replace ((0 <=? Z.of_nat i) && (Z.of_nat i <? Z.of_nat (length cells))) with true
      by (symmetry; apply andb_true_iff; split; [apply Z.leb_le | apply Z.ltb_lt]; lia).
    simpl. rewrite Nat2Z.id. replace (Z.to_nat E) with O by lia. simpl.
    replace (Z.of_nat i + 1) with (Z.of_nat (S i)) by lia.
    rewrite (IH (S i) _ (<[i := Some NULL]> cells)).
    + rewrite insert_insert_eq. do 3 f_equal.
      rewrite (take_S_r _ _ (Some NULL)) by (apply list_lookup_insert_eq; lia).
      rewrite take_insert_ge by lia. rewrite <- app_assoc. reflexivity.
    + apply lookup_insert_eq.
    + rewrite length_insert. lia.
Qed.

Lemma free_sets_null c fuel (i : nat) (h : heap) cells :
  h !! c = Some (Sets cells) ->
  (forall k, (i <= k < i + fuel)%nat -> cells !! k = Some (Some NULL)) ->
  free_sets (Block c) fuel (Z.of_nat i) h = Ok h.
Proof.
  intros Hc. revert i. induction fuel as [|fuel IH]; intros i Hcells; simpl;
    [reflexivity|].
  unfold get_cell. rewrite Hc.
  replace (Z.of_nat i <? 0) with false by (symmetry; apply Z.ltb_ge; lia).
  rewrite Nat2Z.id. rewrite (Hcells i) by lia. simpl.
  replace (Z.of_nat i + 1) with (Z.of_nat (S i)) by lia.
  apply IH. intros k Hk. apply Hcells. lia.
Qed.

(** [initCache] followed by [freeCache], for every [s <= 30] and every
    [E]: with [s < 0] there is no set, with [E < 0] every set pointer is
    [NULL]. *)
Lemma init_free_spec (s E : Z) (m : memory) :
  s <= 30 ->
  exists m1,
    initCache_mem s E m = Ok m1 /\
    read_cache m1 = initCache s E /\
    (forall k blk, blocks m !! k = Some blk -> blocks m1 !! k = Some blk) /\
    freeCache s m1 = Ok (Mem (blocks m) (cache_var m1)).
Proof.
  intros Hs.
  assert (HS0 : 0 <= 2 ^ s) by (apply Z.pow_nonneg; lia).
  unfold initCache_mem, freeCache, initCache.
  rewrite int_of_pow2 by lia. simpl. unfold malloc.
  replace (2 ^ s <? 0) with false by (symmetry; apply Z.ltb_ge; lia).
  set (c := fresh (dom (blocks m))).
  assert (Hc : blocks m !! c = None) by (apply not_elem_of_dom, is_fresh).
  set (h0 := <[c := Sets (replicate (Z.to_nat (2 ^ s)) None)]> (blocks m)).
  destruct (Z_lt_le_dec E 0) as [Hneg|HE].
  { pose proof (init_sets_null E c (Z.to_nat (2 ^ s)) O h0
                  (replicate (Z.to_nat (2 ^ s)) None) Hneg
                  ltac:(apply lookup_insert_eq)
                  ltac:(rewrite length_replicate; reflexivity)) as Hrun.
    change (Z.of_nat 0) with 0 in Hrun. rewrite Hrun. clear Hrun.
    rewrite take_0. simpl app. unfold h0. rewrite insert_insert_eq.
    set (h1 := <[c := Sets (replicate (Z.to_nat (2 ^ s)) (Some NULL))]> (blocks m)).
    assert (H1c : h1 !! c = Some (Sets (replicate (Z.to_nat (2 ^ s)) (Some NULL))))
      by apply lookup_insert_eq.
    simpl. eexists. split; [reflexivity|]. split; [|split].
    - unfold read_cache. simpl. rewrite H1c.
      rewrite (collect_const _ _ []).
      + rewrite length_replicate. replace (Z.to_nat E) with O by lia. reflexivity.
      + intros x Hx. apply elem_of_replicate in Hx as [-> _]. reflexivity.
    - intros k blk Hk. simpl.
      assert (Hkc : k <> c) by (intros ->; rewrite Hc in Hk; discriminate).
      unfold h1. rewrite lookup_insert_ne by auto. exact Hk.
    - simpl.
      pose proof (free_sets_null c (Z.to_nat (2 ^ s)) O h1 _ H1c) as Hfree.
      change (Z.of_nat 0) with 0 in Hfree. rewrite Hfree
        by (intros k Hk; apply lookup_replicate; split; [reflexivity | lia]).
      simpl. rewrite H1c. simpl. do 2 f_equal.
      apply map_eq. intros k.
      destruct (decide (k = c)) as [->|Hkc]; [rewrite lookup_delete_eq, Hc; reflexivity|].
      rewrite lookup_delete_ne by auto. unfold h1.
      rewrite lookup_insert_ne by auto. reflexivity. }
  destruct (init_sets_spec E c (Z.to_nat (2 ^ s)) O h0
              (replicate (Z.to_nat (2 ^ s)) None) HE)
    as (qs & h' & Hrun & Hlq & Hnd & Hcq & Hfr & Hhc & Hhq & Hho).
  { apply lookup_insert_eq. }
  { rewrite length_replicate. reflexivity. }
  change (Z.of_nat 0) with 0 in Hrun. rewrite take_0 in Hhc. simpl in Hhc.
  rewrite Hrun. simpl. eexists. split; [reflexivity|].
  assert (Hq0 : forall q, q ∈ qs -> blocks m !! q = None).
  { intros q Hq. pose proof (Hfr q Hq) as H. unfold h0 in H.
    rewrite lookup_insert_ne in H by (intros ->; contradiction). exact H. }
  split; [|split].
  - unfold read_cache. simpl. rewrite Hhc.
    rewrite (collect_const _ _ (replicate (Z.to_nat E) (Line "0" 0 0))).
    + rewrite length_fmap, Hlq. reflexivity.
    + intros x Hx. apply list_elem_of_fmap in Hx as (q & -> & Hq).
      simpl. rewrite (Hhq q Hq).
      rewrite (collect_const _ _ (Line "0" 0 0)).
      * rewrite length_replicate. reflexivity.
      * intros y Hy. apply elem_of_replicate in Hy as [-> _]. reflexivity.
  - intros k blk Hk. simpl.
    assert (Hkc : k <> c) by (intros ->; rewrite Hc in Hk; discriminate).
    assert (Hkq : k ∉ qs) by (intros Hin; rewrite (Hq0 k Hin) in Hk; discriminate).
    rewrite (Hho k Hkc Hkq). unfold h0. rewrite lookup_insert_ne by auto. exact Hk.
  - simpl.
    destruct (free_sets_spec c qs O h' _ Hhc) as (h'' & Hfree & Hgone & Hkept).
    { rewrite drop_0. reflexivity. }
    { exact Hnd. }
    { exact Hcq. }
    { intros q Hq. rewrite (Hhq q Hq). eauto. }
    rewrite Hlq in Hfree. change (Z.of_nat 0) with 0 in Hfree. rewrite Hfree. simpl.
    rewrite (Hkept c Hcq), Hhc. simpl. do 2 f_equal.
    apply map_eq. intros k.
    destruct (decide (k = c)) as [->|Hkc]; [rewrite lookup_delete_eq, Hc; reflexivity|].
    rewrite lookup_delete_ne by auto.
    destruct (decide (k ∈ qs)) as [Hin|Hnin].
    + rewrite (Hgone k Hin), (Hq0 k Hin). reflexivity.
    + rewrite (Hkept k Hnin), (Hho k Hkc Hnin). unfold h0.
      rewrite lookup_insert_ne by auto. reflexivity.
Qed.

(** X14. For [0 <= s <= 30] and [E >= 0], [initCache] allocates the
    array of sets and one array of lines per set without touching any
    block that was already allocated; the contents read back through
    [cache[i][j]] are the [2^s] sets of [E] empty lines; and [freeCache]
    run on the result releases exactly what [initCache] allocated: the
    allocated blocks are again those from before [initCache]. *)
Theorem init_then_free (s E : Z) (m : memory) :
  0 <= s <= 30 -> 0 <= E ->
  exists m1,
    initCache_mem s E m = Ok m1 /\
    read_cache m1 = initCache s E /\
    (forall k blk, blocks m !! k = Some blk -> blocks m1 !! k = Some blk) /\
    freeCache s m1 = Ok (Mem (blocks m) (cache_var m1)).
Proof.
  intros Hs HE. apply init_free_spec. lia.
Qed.

Lemma init_then_free_witness :
  exists m1,
    initCache_mem 2 3 (Mem ∅ NULL) = Ok m1 /\
    read_cache m1 = initCache 2 3 /\
    (forall k blk, (∅ : heap) !! k = Some blk -> blocks m1 !! k = Some blk) /\
    freeCache 2 m1 = Ok (Mem ∅ (cache_var m1)).
Proof. apply (init_then_free 2 3 (Mem ∅ NULL)); lia. Defined.

Lemma free_sets_first c fuel h :
  (forall cells, h !! c <> Some (Sets cells)) ->
  free_sets (Block c) (S fuel) 0 h = Fault OutOfBounds.
Proof.
  intros Hc. simpl. unfold get_cell.
  destruct (h !! c) as [[cells|cells]|] eqn:Hl; try reflexivity.
  exfalso. apply (Hc cells). reflexivity.
Qed.

(** X15. [freeCache] is defined only on a cache that is allocated. Called
    while [cache] is still [NULL] (before [initCache], for any [s >= 0])
    it is undefined: it reads [cache[0]]. When it completes it leaves
    [cache] pointing at the released array, so a second [freeCache] is
    undefined as well. *)
Theorem free_without_cache (s : Z) (m : memory) :
  0 <= s ->
  (cache_var m = NULL -> exists u, freeCache s m = Fault u) /\
  (forall m', freeCache s m = Ok m' ->
     cache_var m' = cache_var m /\ cache_var m <> NULL /\
     exists u, freeCache s m' = Fault u).
Proof.
  intros Hs.
  destruct (Z_le_gt_dec s 30) as [Hle|Hgt].
  2: { assert (Hbad : forall m0, freeCache s m0 = Fault BadConversion).
       { intros m0. unfold freeCache. rewrite int_of_pow2_big by lia.
         reflexivity. }
       split; [intros _; rewrite Hbad; eauto|].
       intros m' H. rewrite Hbad in H. discriminate. }
  assert (HS1 : 1 <= 2 ^ s) by (assert (0 < 2 ^ s) by (apply Z.pow_pos_nonneg; lia); lia).
  assert (Hfuel : exists n, Z.to_nat (2 ^ s) = S n)
    by (exists (Z.to_nat (2 ^ s) - 1)%nat; lia).
  destruct Hfuel as [n Hn].
  assert (Hrun : forall m0,
    freeCache s m0 =
    (h ← free_sets (cache_var m0) (S n) 0 (blocks m0);
     h' ← free h (cache_var m0); Ok (Mem h' (cache_var m0)))).
  { intros m0. unfold freeCache. rewrite int_of_pow2 by lia.
    simpl. rewrite Hn. reflexivity. }
  split.
  - intros Hnull. rewrite Hrun, Hnull. simpl. eauto.
  - intros m' H. rewrite Hrun in H.
    apply bind_Ok in H as (h & Hfs & H). apply bind_Ok in H as (h' & Hfree & H).
    inversion H; subst m'. simpl. split; [reflexivity|].
    destruct (cache_var m) as [|c] eqn:Hc; [simpl in Hfs; discriminate|].
    split; [discriminate|].
    rewrite Hrun. simpl cache_var. simpl blocks.
    unfold free in Hfree. destruct (h !! c); [|discriminate].
    inversion Hfree; subst h'.
    rewrite free_sets_first; [simpl; eauto|].
    intros cells. rewrite lookup_delete_eq. discriminate.
Qed.

Lemma free_without_cache_witness :
  exists u, freeCache 4 (Mem ∅ NULL) = Fault u.
Proof.
  apply (proj1 (free_without_cache 4 (Mem ∅ NULL) ltac:(lia))). reflexivity.
Defined.

(** ** The driver: lemmas *)

Section DriverFacts.

Variable atoi : String.string -> Z.
Variable trace_of : String.string -> option (list trace_line).

Lemma option_case_stop o opt e :
  option_case atoi o opt = Stop e -> e = Exited 0.
Proof.
  destruct opt as [c optarg]. unfold option_case.
  repeat match goal with
         | |- context [Ascii.eqb ?x ?y] => destruct (Ascii.eqb x y)
         end; intros H; inversion H; reflexivity.
Qed.

Lemma parse_options_stop opts o e :
  parse_options atoi opts o = Stop e -> e = Exited 0.
Proof.
  revert o. induction opts as [|opt opts IH]; intros o H; simpl in H; [discriminate|].
  destruct (option_case atoi o opt) as [o'|e'] eqn:Hc; simpl in H.
  - apply (IH o' H).
  - inversion H; subst. apply (option_case_stop o opt e Hc).
Qed.

Lemma required_stop o e : required o = Stop e -> e = Exited 0.
Proof.
  unfold required. destruct (opt_trace o) as [file|].
  - destruct ((opt_s o =? 0) || (opt_E o =? 0) || (opt_b o =? 0));
      intros H; inversion H; reflexivity.
  - intros H; inversion H; reflexivity.
Qed.

Lemma required_continue o s E b file :
  required o = Continue (s, E, b, file) <->
  opt_trace o = Some file /\ s = opt_s o /\ E = opt_E o /\ b = opt_b o /\
  s <> 0 /\ E <> 0 /\ b <> 0.
Proof.
  unfold required. destruct (opt_trace o) as [f|];
    [|split; [discriminate | intros (Hf & _); discriminate]].
  destruct (Z.eqb_spec (opt_s o) 0) as [H1|H1];
    destruct (Z.eqb_spec (opt_E o) 0) as [H2|H2];
    destruct (Z.eqb_spec (opt_b o) 0) as [H3|H3]; simpl;
    (split; [intros H; inversion H; subst
            |intros (Hf & -> & -> & -> & Hs & HE & Hb); try contradiction]).
  - repeat split; assumption.
  - inversion Hf; subst. reflexivity.
Qed.

Lemma ready_stop opts e :
  (o ← parse_options atoi opts (Options 0 0 0 None 0); required o) = Stop e ->
  e = Exited 0.
Proof.
  destruct (parse_options atoi opts (Options 0 0 0 None 0)) as [o|e'] eqn:Hp; simpl.
  - apply required_stop.
  - intros H. inversion H; subst. apply (parse_options_stop _ _ _ Hp).
Qed.

Lemma ready_continue opts s E b file :
  (o ← parse_options atoi opts (Options 0 0 0 None 0); required o)
    = Continue (s, E, b, file) <->
  exists o, parse_options atoi opts (Options 0 0 0 None 0) = Continue o /\
            opt_trace o = Some file /\ s = opt_s o /\ E = opt_E o /\ b = opt_b o /\
            s <> 0 /\ E <> 0 /\ b <> 0.
Proof.
  destruct (parse_options atoi opts (Options 0 0 0 None 0)) as [o|e'] eqn:Hp; simpl.
  - rewrite required_continue. split.
    + intros H. exists o. split; [reflexivity | exact H].
    + intros (o' & Ho & H). inversion Ho; subst. exact H.
  - split; [discriminate | intros (o' & Ho & _); discriminate].
Qed.

Lemma main_stopped opts m e :
  (o ← parse_options atoi opts (Options 0 0 0 None 0); required o) = Stop e ->
  main atoi trace_of opts m = (Exited 0, m).
Proof.
  intros H. pose proof (ready_stop opts e H) as ->.
  unfold main. rewrite H. reflexivity.
Qed.

End DriverFacts.

(** X16. Exit statuses of [main]. When the option loop meets [-h] or an
    unknown option, or when [s], [E] or [b] is zero or no trace file was
    given, [main] ends with status 0 and has allocated nothing: each
    [exit(1)] written after [printUsage] is never reached, because
    [printUsage] itself ends with [exit(0)]. The only exit with status 1
    is that of [replayTrace] when the trace file cannot be opened, and it
    happens after [initCache] has allocated the cache. *)
Theorem main_exit_status (atoi : String.string -> Z)
    (trace_of : String.string -> option (list trace_line))
    (opts : list (ascii * String.string)) (m : memory) :
  (forall e,
     parse_options atoi opts (Options 0 0 0 None 0) = Stop e ->
     main atoi trace_of opts m = (Exited 0, m)) /\
  (forall o,
     parse_options atoi opts (Options 0 0 0 None 0) = Continue o ->
     opt_s o = 0 \/ opt_E o = 0 \/ opt_b o = 0 \/ opt_trace o = None ->
     main atoi trace_of opts m = (Exited 0, m)) /\
  (forall status m',
     main atoi trace_of opts m = (Exited status, m') ->
     (status = 0 /\ m' = m) \/
     (status = 1 /\
      exists o file,
        parse_options atoi opts (Options 0 0 0 None 0) = Continue o /\
        opt_trace o = Some file /\
        opt_s o <> 0 /\ opt_E o <> 0 /\ opt_b o <> 0 /\
        trace_of file = None /\
        initCache_mem (opt_s o) (opt_E o) m = Ok m')).
Proof.
  pose proof (fun e => main_stopped atoi trace_of opts m e) as Hstop.
  split; [|split].
  - intros e H. apply (Hstop e). rewrite H. reflexivity.
  - intros o Hp Hzero.
    destruct (required o) as [[[[s E] b] file]|e] eqn:Hr.
    + apply required_continue in Hr as (Hf & -> & -> & -> & Hs & HE & Hb).
      destruct Hzero as [H|[H|[H|H]]]; try contradiction. congruence.
    + apply (Hstop e). rewrite Hp. exact Hr.
  - intros status m' H. unfold main in H.
    destruct (o ← parse_options atoi opts (Options 0 0 0 None 0); required o)
      as [[[[s E] b] file]|e] eqn:Hr.
    + apply ready_continue in Hr as (o & Hp & Hf & -> & -> & -> & Hs & HE & Hb).
      destruct (initCache_mem (opt_s o) (opt_E o) m) as [m1|u] eqn:Hinit; [|discriminate].
      destruct (trace_of file) as [trace|] eqn:Ht.
      * destruct (c ← read_cache m1; replayTrace (opt_s o) (opt_b o) (opt_E o) trace (Sim c 0 0 0));
          [|discriminate].
        destruct (freeCache (opt_s o) m1); discriminate.
      * inversion H; subst. right. split; [reflexivity|].
        exists o, file. repeat (split; [assumption|]). exact Hinit.
    + pose proof (ready_stop atoi opts e Hr) as ->. inversion H; subst.
      left. split; reflexivity.
Qed.

Lemma main_exit_status_witness :
  main (fun _ => 0) (fun _ => None)
    [("s"%char, String.EmptyString); ("t"%char, String.EmptyString)] (Mem ∅ NULL)
  = (Exited 0, Mem ∅ NULL).
Proof.
  apply (proj1 (proj2 (main_exit_status (fun _ => 0) (fun _ => None)
           [("s"%char, String.EmptyString); ("t"%char, String.EmptyString)]
           (Mem ∅ NULL)))
         (Options 0 0 0 (Some String.EmptyString) 0)).
  - reflexivity.
  - left. reflexivity.
Defined.

(** X17. When the options give [1 <= s <= 30], [E >= 1], [b <> 0] and a
    trace file that can be opened, [main] ends as the simulation does:
    with a summary of the three counters of [simulate s b E trace] and
    every block of the cache released, or in the undefined behaviour the
    simulation runs into. *)
Theorem main_summary (atoi : String.string -> Z)
    (trace_of : String.string -> option (list trace_line))
    (opts : list (ascii * String.string)) (m : memory)
    (o : options) (file : String.string) (trace : list trace_line) :
  parse_options atoi opts (Options 0 0 0 None 0) = Continue o ->
  opt_trace o = Some file -> trace_of file = Some trace ->
  1 <= opt_s o <= 30 -> 1 <= opt_E o -> opt_b o <> 0 ->
  (forall st,
     simulate (opt_s o) (opt_b o) (opt_E o) trace = Ok st ->
     exists c,
       main atoi trace_of opts m =
       (Summary (hit_count st) (miss_count st) (eviction_count st),
        Mem (blocks m) c)) /\
  (forall u,
     simulate (opt_s o) (opt_b o) (opt_E o) trace = Fault u ->
     exists m1, main atoi trace_of opts m = (Undefined u, m1)).
Proof.
  intros Hp Hf Ht Hs HE Hb.
  assert (Hr : (o ← parse_options atoi opts (Options 0 0 0 None 0); required o)
               = Continue (opt_s o, opt_E o, opt_b o, file)).
  { apply ready_continue. exists o. repeat (split; [first [assumption | reflexivity]|]).
    split; [lia|]. split; [lia | assumption]. }
  destruct (init_free_spec (opt_s o) (opt_E o) m ltac:(lia))
    as (m1 & Hinit & Hread & _ & Hfree).
  unfold main. rewrite Hr, Hinit, Ht, Hread, Hfree.
  change (c ← initCache (opt_s o) (opt_E o);
          replayTrace (opt_s o) (opt_b o) (opt_E o) trace (Sim c 0 0 0))
    with (simulate (opt_s o) (opt_b o) (opt_E o) trace).
  split.
  - intros st Hsim. rewrite Hsim. eauto.
  - intros u Hsim. rewrite Hsim. eauto.
Qed.

Lemma main_summary_witness :
  exists c,
    main (fun _ => 2) (fun _ => Some [("L"%char, 0); ("M"%char, 16)])
      [("s"%char, String.EmptyString); ("E"%char, String.EmptyString);
       ("b"%char, String.EmptyString); ("t"%char, String.EmptyString)] (Mem ∅ NULL)
    = (Summary 1 2 0, Mem ∅ c).
Proof.
  apply (proj1 (main_summary (fun _ => 2)
           (fun _ => Some [("L"%char, 0); ("M"%char, 16)])
           [("s"%char, String.EmptyString); ("E"%char, String.EmptyString);
            ("b"%char, String.EmptyString); ("t"%char, String.EmptyString)]
           (Mem ∅ NULL) (Options 2 2 2 (Some String.EmptyString) 0)
           String.EmptyString [("L"%char, 0); ("M"%char, 16)]
           ltac:(reflexivity) ltac:(reflexivity) ltac:(reflexivity)
           ltac:(simpl; lia) ltac:(simpl; lia) ltac:(simpl; lia))
         (Sim [[Line "1" 0 1; Line "1" 1 3]; [Line "0" 0 0; Line "0" 0 0];
               [Line "0" 0 0; Line "0" 0 0]; [Line "0" 0 0; Line "0" 0 0]] 2 1 0)).
  vm_compute. reflexivity.
Defined.

Section OptionFacts.

Variable atoi : String.string -> Z.

Lemma parse_options_app pre post o :
  parse_options atoi (pre ++ post) o =
  (o' ← parse_options atoi pre o; parse_options atoi post o').
Proof.
  revert o. induction pre as [|opt pre IH]; intros o; simpl; [reflexivity|].
  destruct (option_case atoi o opt) as [o'|e]; simpl; [apply IH | reflexivity].
Qed.

Lemma option_case_setting o c optarg :
  (setting c = true -> exists o', option_case atoi o (c, optarg) = Continue o') /\
  (setting c = false -> option_case atoi o (c, optarg) = Stop (Exited 0)).
Proof.
  unfold setting, option_case.
  destruct (Ascii.eqb c "s"); [split; [eauto | discriminate]|].
  destruct (Ascii.eqb c "E"); [split; [eauto | discriminate]|].
  destruct (Ascii.eqb c "b"); [split; [eauto | discriminate]|].
  destruct (Ascii.eqb c "t"); [split; [eauto | discriminate]|].
  destruct (Ascii.eqb c "v"); [split; [eauto | discriminate]|].
  simpl. split; [discriminate|]. intros _.
  destruct (Ascii.eqb c "h"); reflexivity.
Qed.

Lemma parse_options_settings pre o :
  (forall opt, In opt pre -> setting (fst opt) = true) ->
  exists o', parse_options atoi pre o = Continue o'.
Proof.
  revert o. induction pre as [|[c optarg] pre IH]; intros o H; [simpl; eauto|].
  destruct (proj1 (option_case_setting o c optarg)) as [o' Ho'].
  { apply (H (c, optarg)). left. reflexivity. }
  change (parse_options atoi ((c, optarg) :: pre) o)
    with (o1 ← option_case atoi o (c, optarg); parse_options atoi pre o1).
  rewrite Ho'. simpl. apply IH. intros opt Hin. apply H. right. exact Hin.
Qed.

End OptionFacts.

(** X18. Options are taken in order. After any options that set a
    global, the first option that is not [s], [E], [b], [t] or [v] ends
    [main] with status 0 whatever follows it; and an option given again
    replaces the value given before. *)
Theorem options_semantics (atoi : String.string -> Z)
    (trace_of : String.string -> option (list trace_line))
    (pre post : list (ascii * String.string)) (m : memory) :
  (forall opt, In opt pre -> setting (fst opt) = true) ->
  (forall c optarg,
     setting c = false ->
     main atoi trace_of (pre ++ (c, optarg) :: post) m = (Exited 0, m)) /\
  (exists o,
     parse_options atoi pre (Options 0 0 0 None 0) = Continue o /\
     forall optarg,
       parse_options atoi (pre ++ [("s"%char, optarg)]) (Options 0 0 0 None 0)
         = Continue (Options (atoi optarg) (opt_E o) (opt_b o) (opt_trace o) (opt_verbose o)) /\
       parse_options atoi (pre ++ [("E"%char, optarg)]) (Options 0 0 0 None 0)
         = Continue (Options (opt_s o) (atoi optarg) (opt_b o) (opt_trace o) (opt_verbose o)) /\
       parse_options atoi (pre ++ [("b"%char, optarg)]) (Options 0 0 0 None 0)
         = Continue (Options (opt_s o) (opt_E o) (atoi optarg) (opt_trace o) (opt_verbose o)) /\
       parse_options atoi (pre ++ [("t"%char, optarg)]) (Options 0 0 0 None 0)
         = Continue (Options (opt_s o) (opt_E o) (opt_b o) (Some optarg) (opt_verbose o))).
Proof.
  intros Hpre.
  destruct (parse_options_settings atoi pre (Options 0 0 0 None 0) Hpre) as [o Ho].
  split.
  - intros c optarg Hc.
    apply (main_stopped atoi trace_of (pre ++ (c, optarg) :: post) m (Exited 0)).
    rewrite parse_options_app, Ho.
    change (o0 ← (o' ← Continue o; parse_options atoi ((c, optarg) :: post) o'); required o0)
      with (o0 ← (o1 ← option_case atoi o (c, optarg); parse_options atoi post o1);
            required o0).
    rewrite (proj2 (option_case_setting atoi o c optarg) Hc). reflexivity.
  - exists o. split; [exact Ho|]. intros optarg.
    rewrite !parse_options_app, Ho. simpl. repeat split.
Qed.

Lemma options_semantics_witness :
  main (fun _ => 4) (fun _ => None)
    ([("v"%char, String.EmptyString); ("s"%char, String.EmptyString)] ++
     ("h"%char, String.EmptyString) :: [("E"%char, String.EmptyString)]) (Mem ∅ NULL)
  = (Exited 0, Mem ∅ NULL).
Proof.
  apply (proj1 (options_semantics (fun _ => 4) (fun _ => None)
           [("v"%char, String.EmptyString); ("s"%char, String.EmptyString)]
           [("E"%char, String.EmptyString)] (Mem ∅ NULL)
           ltac:(intros opt [<-|[<-|[]]]; reflexivity))).
  reflexivity.
Defined.

(** * Residency *)

Section Residency.

Variables s b E : Z.

Lemma resident_insert (set : cache_set_t) i line tt c t :
  set !! i = Some line ->
  unique_tags set ->
  (valid line = "1"%char -> tag line <> tt -> ~ resident tt set) ->
  (resident t (<[i := Line "1" tt c]> set) <->
   t = tt \/ (resident t set /\ ~ (valid line = "1"%char /\ tag line = t))).
Proof.
  intros Hi Hu Hnew. split.
  - intros (k & l & Hk & Hv & Ht).
    apply list_lookup_insert_Some in Hk as [(_ & <- & _)|[Hki Hk]].
    + left. simpl in Ht. congruence.
    + right. split; [exists k, l; auto|].
      intros [Hvl Htl]. apply Hki. symmetry.
      apply (Hu k i l line Hk Hi Hv Hvl). congruence.
  - intros [->|[(k & l & Hk & Hv & Ht) Hnot]].
    + exists i, (Line "1" tt c). split; [|split; reflexivity].
      apply list_lookup_insert_eq. eapply lookup_lt_Some, Hi.
    + destruct (decide (k = i)) as [->|Hki].
      * rewrite Hi in Hk. inversion Hk; subst l. exfalso. apply Hnot. auto.
      * exists k, l. split; [|auto]. rewrite list_lookup_insert_ne by auto. exact Hk.
Qed.

End Residency.

(** X19. Which tags a set holds after a completed call on a reachable
    state. If the call counted no eviction (a hit or a cold miss), the
    set holds what it held before and the target tag. If it counted an
    eviction, the set was full, the line overwritten carried the
    strictly smallest counter of the set, and the set holds the target
    tag and what it held before except the tag of that line. *)
Theorem residency_after_access (s b E : Z) (st : sim) (addr : Z) (st' : sim) :
  reachable s b E st ->
  accessData s b E st addr = Ok st' ->
  exists ts tt set set',
    targSet s b addr = Ok ts /\ targTag s b addr = Ok tt /\
    index (cache st) ts = Ok set /\ index (cache st') ts = Ok set' /\
    (eviction_count st' = eviction_count st ->
     forall t, resident t set' <-> t = tt \/ resident t set) /\
    (eviction_count st' = eviction_count st + 1 ->
     full set /\
     exists i victim,
       set !! i = Some victim /\ tag victim <> tt /\
       (forall k l, k <> i -> set !! k = Some l -> counter victim < counter l) /\
       forall t, resident t set' <-> t = tt \/ (resident t set /\ t <> tag victim)).
Proof.
  intros Hr H. pose proof (reachable_wf s b E st Hr) as Hwf.
  assert (Htidy : tidy (cache st)).
  { destruct Hr as (c & Hc & Hsteps).
    apply (steps_tidy s b E (Sim c 0 0 0) st); simpl;
      [apply initCache_wf, Hc | apply (initCache_tidy s E c Hc) | exact Hsteps]. }
  destruct (accessData_effect s b E st addr st' Hwf H)
    as (ts & tt & set & i & line & Hts & Htt & Hidx & Hi & Hc & Hkind).
  pose proof Hidx as Hidx0. apply index_Ok in Hidx0 as [_ Hset].
  destruct (proj2 Hwf _ _ Hset) as (Hlen & Huniq & Hlines).
  exists ts, tt, set, (<[i := Line "1" tt (max_counter set + 1)]> set).
  repeat (split; [assumption|]).
  split; [rewrite Hc; eapply index_insert, Hidx|].
  assert (Hnew : valid line = "1"%char -> tag line <> tt -> ~ resident tt set).
  { intros Hv Hne (k & l & Hk & Hvl & Htl).
    destruct Hkind as [(_ & Ht & _)|[(_ & Hv0 & _)|(Hnr & _)]].
    - contradiction.
    - congruence.
    - apply Hnr. exists k, l. auto. }
  split.
  - intros He t.
    rewrite (resident_insert set i line tt _ t Hi Huniq Hnew).
    destruct Hkind as [(Hv & Ht & _)|[(_ & Hv & _)|(_ & _ & _ & _ & _ & _ & _ & He')]];
      [| |lia].
    + split; [intros [->|[Hres _]]; auto|].
      intros [->|Hres]; [auto|].
      destruct (Z.eq_dec t tt) as [->|Hne]; [auto|].
      right. split; [exact Hres|]. intros [_ Htl]. congruence.
    + split; [intros [->|[Hres _]]; auto|].
      intros [->|Hres]; [auto|]. right. split; [exact Hres|].
      intros [Hvl _]. congruence.
  - intros He.
    destruct Hkind as [(_ & _ & _ & _ & _ & He')|[(_ & _ & _ & _ & _ & He')
                      |(Hnr & Hfull & Hmin & _)]]; [lia | lia |].
    split; [exact Hfull|].
    assert (Hvt : tag line <> tt).
    { intros Heq. apply Hnr. exists i, line. split; [exact Hi|].
      split; [apply (Hfull _ _ Hi) | exact Heq]. }
    exists i, line. split; [exact Hi|]. split; [exact Hvt|]. split.
    + intros k l Hki Hk. pose proof (Hmin k l Hk) as Hle.
      destruct (Z.eq_dec (counter line) (counter l)) as [Heq|Hneq]; [|lia].
      exfalso. apply Hki. destruct (Htidy _ _ Hset) as (_ & _ & _ & Hd).
      apply (Hd k i l line Hk Hi (Hfull _ _ Hk) (Hfull _ _ Hi)). congruence.
    + intros t. rewrite (resident_insert set i line tt _ t Hi Huniq Hnew).
      split; (intros [->|[Hres Hnot]]; [auto|right; split; [exact Hres|]]).
      * intros ->. apply Hnot. split; [apply (Hfull _ _ Hi) | reflexivity].
      * intros [_ Hq]. congruence.
Qed.

Lemma residency_after_access_witness :
  exists ts tt set set',
    targSet 1 1 4 = Ok ts /\ targTag 1 1 4 = Ok tt /\
    index (cache (Sim [[Line "1" 0 1]; [Line "0" 0 0]] 1 0 0)) ts = Ok set /\
    index (cache (Sim [[Line "1" 1 2]; [Line "0" 0 0]] 2 0 1)) ts = Ok set'.
Proof.
  destruct (residency_after_access 1 1 1
              (Sim [[Line "1" 0 1]; [Line "0" 0 0]] 1 0 0) 4
              (Sim [[Line "1" 1 2]; [Line "0" 0 0]] 2 0 1))
    as (ts & tt & set & set' & H1 & H2 & H3 & H4 & _).
  - apply (simulate_reachable 1 1 1 [("L"%char, 0)]). vm_compute. reflexivity.
  - vm_compute. reflexivity.
  - exists ts, tt, set, set'. auto.
Defined.

(** * Independence of the sets *)

Section Independence.

Variables s b E : Z.

Lemma access_other_set st addr st' (ts : Z) :
  0 <= ts -> targSet s b addr <> Ok ts ->
  accessData s b E st addr = Ok st' ->
  cache st' !! Z.to_nat ts = cache st !! Z.to_nat ts.
Proof.
  intros Hts Hne H. apply accessData_access in H.
  destruct H
    as [ts' tt set mn mx mi i line Hset Htag Hidx Hscan Hfind Hline Hhits Hstamp ->
       |ts' tt set mn mx mi k line Hset Htag Hidx Hscan Hfind Hmisses Hempty Hline Hstamp ->
       |ts' tt set mn mx mi line Hset Htag Hidx Hscan Hfind Hmisses Hempty Hev Hstamp Hline ->];
    simpl; apply index_Ok in Hidx as [Hpos _];
    apply list_lookup_insert_ne; intros Heq;
    apply Hne; rewrite Hset; f_equal; lia.
Qed.

End Independence.

(** X20. A trace leaves alone every set it does not address: if no [L],
    [S] or [M] line of a trace that replays to completion has set index
    [ts], the lines of set [ts] are the same before and after. *)
Theorem untouched_set_unchanged (s b E : Z) (trace : list trace_line)
    (st st' : sim) (ts : Z) :
  0 <= ts ->
  (forall op addr, In (op, addr) trace -> accesses_of (op, addr) <> 0 ->
                   targSet s b addr <> Ok ts) ->
  replayTrace s b E trace st = Ok st' ->
  cache st' !! Z.to_nat ts = cache st !! Z.to_nat ts.
Proof.
  intros Hts. revert st. induction trace as [|[op addr] trace IH]; intros st Hno H.
  - simpl in H. inversion H. reflexivity.
  - change (replayTrace s b E ((op, addr) :: trace) st)
      with (st1 ← replayLine s b E st (op, addr); replayTrace s b E trace st1) in H.
    apply bind_Ok in H as (st1 & H1 & H2).
    rewrite (IH st1); [|intros op' addr' Hin; apply Hno; right; exact Hin | exact H2].
    apply replayLine_cases in H1 as [[_ ->]|[[Hn H1]|(Hn & stm & H1 & H1')]];
      change (snd (op, addr)) with addr in *.
    + reflexivity.
    + apply (access_other_set s b E st addr st1 ts Hts); [|exact H1].
      apply (Hno op addr); [left; reflexivity | lia].
    + assert (Hne : targSet s b addr <> Ok ts)
        by (apply (Hno op addr); [left; reflexivity | lia]).
      rewrite (access_other_set s b E stm addr st1 ts Hts Hne H1').
      apply (access_other_set s b E st addr stm ts Hts Hne H1).
Qed.

Lemma untouched_set_unchanged_witness :
  cache (Sim [[Line "1" 0 1; Line "1" 1 3]; [Line "0" 0 0; Line "0" 0 0]] 2 1 0)
    !! Z.to_nat 1 =
  cache (Sim [[Line "0" 0 0; Line "0" 0 0]; [Line "0" 0 0; Line "0" 0 0]] 0 0 0)
    !! Z.to_nat 1.
Proof.
  apply (untouched_set_unchanged 1 1 2 [("L"%char, 0); ("M"%char, 4)]).
  - lia.
  - intros op addr [Hin|[Hin|[]]] _; inversion Hin; subst; vm_compute; discriminate.
  - vm_compute. reflexivity.
Defined.

(** * Degenerate geometries *)

Section Degenerate.

Variables s b E : Z.

Lemma accessData_no_sets st addr :
  cache st = [] -> exists u, accessData s b E st addr = Fault u.
Proof.
  intros Hc. unfold accessData.
  destruct (targSet s b addr) as [ts|u]; [|simpl; eauto]. simpl.
  destruct (targTag s b addr) as [tt|u]; [|simpl; eauto]. simpl.
  rewrite Hc. unfold index. destruct (ts <? 0); simpl; eauto.
Qed.

Lemma replayLine_skip st line :
  accesses_of line = 0 -> replayLine s b E st line = Ok st.
Proof.
  destruct line as [op addr]. unfold accesses_of, replayLine.
  destruct (Ascii.eqb op "L"); [discriminate|].
  destruct (Ascii.eqb op "S"); [discriminate|].
  destruct (Ascii.eqb op "M"); [discriminate | reflexivity].
Qed.

Lemma replayLine_faults st line :
  (forall addr, exists u, accessData s b E st addr = Fault u) ->
  accesses_of line <> 0 -> exists u, replayLine s b E st line = Fault u.
Proof.
  intros Hbad. destruct line as [op addr]. unfold accesses_of, replayLine.
  destruct (Hbad addr) as [u Hu].
  destruct (Ascii.eqb op "L"); [intros _; eauto|].
  destruct (Ascii.eqb op "S"); [intros _; eauto|].
  destruct (Ascii.eqb op "M"); [intros _; rewrite Hu; simpl; eauto | lia].
Qed.

Lemma replay_no_access trace st :
  accesses trace = 0 -> replayTrace s b E trace st = Ok st.
Proof.
  induction trace as [|line trace IH]; intros H; [reflexivity|].
  simpl in H. pose proof (accesses_of_nonneg line). pose proof (accesses_nonneg trace).
  change (replayTrace s b E (line :: trace) st)
    with (st1 ← replayLine s b E st line; replayTrace s b E trace st1).
  rewrite replayLine_skip by lia. simpl. apply IH. lia.
Qed.

Lemma replay_faults trace st :
  (forall addr, exists u, accessData s b E st addr = Fault u) ->
  accesses trace <> 0 -> exists u, replayTrace s b E trace st = Fault u.
Proof.
  intros Hbad. induction trace as [|line trace IH]; intros H; [simpl in H; lia|].
  change (replayTrace s b E (line :: trace) st)
    with (st1 ← replayLine s b E st line; replayTrace s b E trace st1).
  destruct (Z.eq_dec (accesses_of line) 0) as [H0|H0].
  - rewrite replayLine_skip by exact H0. simpl. apply IH. simpl in H. lia.
  - destruct (replayLine_faults st line Hbad H0) as [u Hu]. rewrite Hu. simpl. eauto.
Qed.

End Degenerate.

(** X21. [main] on the geometries it accepts although no cache fits
    them. With [s >= 31] [initCache] is undefined at once. With [s < 0]
    (no set at all) or [E < 0] (every [malloc] for a set fails) and a
    trace file that can be opened: if the trace has no [L], [S] or [M]
    line, [main] reports 0 hits, 0 misses and 0 evictions and leaves
    allocated what was allocated before; if it has one, the first of
    them is undefined. *)
Theorem main_degenerate_geometry (atoi : String.string -> Z)
    (trace_of : String.string -> option (list trace_line))
    (opts : list (ascii * String.string)) (m : memory)
    (o : options) (file : String.string) (trace : list trace_line) :
  parse_options atoi opts (Options 0 0 0 None 0) = Continue o ->
  opt_trace o = Some file -> trace_of file = Some trace ->
  opt_s o <> 0 -> opt_E o <> 0 -> opt_b o <> 0 ->
  (31 <= opt_s o ->
   main atoi trace_of opts m = (Undefined BadConversion, m)) /\
  (opt_s o < 0 \/ (opt_s o <= 30 /\ opt_E o < 0) ->
   (accesses trace = 0 ->
    exists c, main atoi trace_of opts m = (Summary 0 0 0, Mem (blocks m) c)) /\
   (accesses trace <> 0 ->
    exists u m1, main atoi trace_of opts m = (Undefined u, m1))).
Proof.
  intros Hp Hf Ht Hs HE Hb.
  assert (Hr : (o ← parse_options atoi opts (Options 0 0 0 None 0); required o)
               = Continue (opt_s o, opt_E o, opt_b o, file)).
  { apply ready_continue. exists o. repeat (split; [first [assumption | reflexivity]|]).
    assumption. }
  split.
  - intros Hbig. unfold main. rewrite Hr. unfold initCache_mem.
    rewrite int_of_pow2_big by exact Hbig. reflexivity.
  - intros Hdeg.
    destruct (init_free_spec (opt_s o) (opt_E o) m ltac:(lia))
      as (m1 & Hinit & Hread & _ & Hfree).
    unfold main. rewrite Hr, Hinit, Ht, Hread, Hfree.
    destruct (initCache (opt_s o) (opt_E o)) as [c|u] eqn:Hc.
    2: { apply (f_equal (fun r => match r with Ok _ => true | Fault _ => false end)) in Hc.
         assert (Hok : exists c, initCache (opt_s o) (opt_E o) = Ok c)
           by (eexists; apply initCache_Ok; split; [lia | reflexivity]).
         destruct Hok as [c Hok]. rewrite Hok in Hc. discriminate. }
    simpl. split.
    + intros Hnone. rewrite replay_no_access by exact Hnone. simpl. eauto.
    + intros Hsome.
      destruct (replay_faults (opt_s o) (opt_b o) (opt_E o) trace (Sim c 0 0 0))
        as [u Hu]; [|exact Hsome|rewrite Hu; eauto].
      intros addr. destruct Hdeg as [Hneg|[_ Hneg]].
      * apply accessData_no_sets. simpl.
        apply initCache_Ok in Hc as [_ ->].
        rewrite (Z.pow_neg_r 2 (opt_s o)) by exact Hneg. reflexivity.
      * apply accessData_no_lines. lia.
Qed.

Lemma main_degenerate_geometry_witness :
  exists c,
    main (fun _ => -1) (fun _ => Some [("I"%char, 0x400d7d4)])
      [("s"%char, String.EmptyString); ("E"%char, String.EmptyString);
       ("b"%char, String.EmptyString); ("t"%char, String.EmptyString)] (Mem ∅ NULL)
    = (Summary 0 0 0, Mem ∅ c).
Proof.
  apply (proj1 (proj2 (main_degenerate_geometry (fun _ => -1)
           (fun _ => Some [("I"%char, 0x400d7d4)])
           [("s"%char, String.EmptyString); ("E"%char, String.EmptyString);
            ("b"%char, String.EmptyString); ("t"%char, String.EmptyString)]
           (Mem ∅ NULL) (Options (-1) (-1) (-1) (Some String.EmptyString) 0)
           String.EmptyString [("I"%char, 0x400d7d4)]
           ltac:(reflexivity) ltac:(reflexivity) ltac:(reflexivity)
           ltac:(simpl; lia) ltac:(simpl; lia) ltac:(simpl; lia))
         ltac:(left; simpl; lia))).
  reflexivity.
Defined.
